(** * PrivBatch agent: batch commitment, signing glue and range maths

    Shallow embedding of the Python agent of PrivBatch
    ([agent/src/merkle.py], [agent/src/signer.py], [agent/src/optimizer.py])
    and the properties its specification states about them, followed by the
    code around them ([agent/src/types.py], [agent/src/collector.py],
    [agent/src/executor.py], [agent/src/adaptive.py], [agent/src/main.py])
    and properties read off that code.

    Conventions of the embedding:
    - Python [bytes] are lists of [Byte.byte]; Python [int] is [Z];
    - a call that can raise returns a [result]: [Ok v] or [Err e], [e] naming
      the Python exception;
    - functions of third-party packages ([Web3.keccak], [eth_abi.encode],
      [eth_account]) are not part of the repository.  The hash and the
      signature primitives are Section variables, so every theorem holds
      for any implementation of them; [eth_abi.encode] is written out for
      the static types the agent uses;
    - the float operations of [optimizer.py] and the functions of [math]
      form an interface.  Python's instance of it is on binary64 numbers,
      with [exp] and [log] of the C library as parameters; what depends on
      the order of the values is proved from laws of the arithmetic, which
      are stated where they are used. *)

From Stdlib Require Import Floats.
From Stdlib Require Import Strings.Byte Strings.String Strings.Ascii.
From Stdlib Require Import Reals Lra.
From Stdlib Require Import ZArith List Lia Bool Permutation.
Import ListNotations.

Set Implicit Arguments.
Set Warnings "-inexact-float".
Open Scope Z_scope.

(* ================================================================== *)
(** * Python run-time primitives *)
(* ================================================================== *)

Module Py.

Definition bytes := list byte.

(** Exceptions raised by the modelled code.  [OutOfFuel] is not a Python
    exception: it is what a fuel-bounded loop of the model returns when
    its fuel is exhausted (shown never to happen). *)
Inductive exn : Set :=
| ValueError
| IndexError
| OverflowError
| ZeroDivisionError
| EncodingError
| BadSignature
| OutOfFuel.

Inductive result (A : Type) : Type :=
| Ok (a : A)
| Err (e : exn).
Arguments Ok {A} a.
Arguments Err {A} e.

Definition bind {A B} (r : result A) (k : A -> result B) : result B :=
  match r with
  | Ok a => k a
  | Err e => Err e
  end.

(** [l[i]] on a Python list: negative indices count from the end, an index
    outside [-len, len) raises IndexError. *)
Definition index {A} (l : list A) (i : Z) : result A :=
  let n := Z.of_nat (length l) in
  let j := if (i <? 0)%Z then (n + i)%Z else i in
  if ((0 <=? j) && (j <? n))%bool then
    match nth_error l (Z.to_nat j) with
    | Some a => Ok a
    | None => Err IndexError
    end
  else Err IndexError.

(** [range(0, n, 2)] *)
Definition range_by2 (n : Z) : list Z :=
  map (fun k => (2 * Z.of_nat k)%Z) (seq 0 (Z.to_nat ((n + 1) / 2))).

(** [l[:-1]] *)
Definition all_but_last {A} (l : list A) : list A := removelast l.

(** Comparison of two bytes objects, [a <= b]: lexicographic on the
    unsigned byte values, a proper prefix being smaller. *)
Fixpoint bytes_leb (a b : bytes) : bool :=
  match a, b with
  | [], _ => true
  | _ :: _, [] => false
  | x :: a', y :: b' =>
      if (Byte.to_N x <? Byte.to_N y)%N then true
      else if (Byte.to_N y <? Byte.to_N x)%N then false
      else bytes_leb a' b'
  end.

(** [a == b] on bytes objects. *)
Fixpoint bytes_eqb (a b : bytes) : bool :=
  match a, b with
  | [], [] => true
  | x :: a', y :: b' => Byte.eqb x y && bytes_eqb a' b'
  | _, _ => false
  end.

(** Big-endian digits of [n] in base 256, exactly [len] of them (the low
    [len] digits). *)
Fixpoint be_digits (len : nat) (n : Z) : bytes :=
  match len with
  | O => []
  | S len' =>
      be_digits len' (n / 256)
        ++ [match Byte.of_N (Z.to_N (n mod 256)) with
            | Some b => b
            | None => x00
            end]
  end.

(** Value of a big-endian byte string. *)
Definition be_value (b : bytes) : Z :=
  fold_left (fun acc x => (acc * 256 + Z.of_N (Byte.to_N x))%Z) b 0%Z.

(** [n.to_bytes(len, "big")]: OverflowError when [n] is negative or does
    not fit in [len] bytes. *)
Definition to_bytes (n : Z) (len : nat) : result bytes :=
  if ((0 <=? n) && (n <? 256 ^ Z.of_nat len))%Z%bool
  then Ok (be_digits len n)
  else Err OverflowError.

(** [text.encode("utf-8")] for the ASCII literals of the sources. *)
Fixpoint bytes_of_string (s : string) : bytes :=
  match s with
  | EmptyString => []
  | String c s' => byte_of_ascii c :: bytes_of_string s'
  end.

End Py.

Export Py.

Notation "x <- c1 ;; c2" := (Py.bind c1 (fun x => c2))
  (at level 61, c1 at next level, right associativity).

(* ================================================================== *)
(** * Keccak-256 *)
(* ================================================================== *)

(** The hash [Web3.keccak] computes: the Keccak-f[1600] sponge with rate
    136 bytes, capacity 512 bits, the original Keccak padding (0x01 .. 0x80)
    and 32 bytes of output.  It is an executable instance of the hash the
    theorems below are generic in; lanes are 64-bit words held in [N]. *)
Module Keccak256.
Local Open Scope N_scope.

Definition mask64 : N := 18446744073709551615.

Definition rotl64 (x : N) (n : N) : N :=
  N.lor (N.land (N.shiftl x n) mask64) (N.shiftr x (64 - n)).

(** Lane [(x, y)] of the 5 x 5 state, stored at position [x + 5 y]. *)
Definition lane (st : list N) (x y : nat) : N :=
  nth ((x mod 5) + 5 * (y mod 5))%nat st 0.

Definition idx5 : list nat := [0; 1; 2; 3; 4]%nat.

Definition positions : list (nat * nat) :=
  flat_map (fun y => map (fun x => (x, y)) idx5) idx5.

Definition theta (st : list N) : list N :=
  let C := fun x => fold_left N.lxor (map (fun y => lane st x y) idx5) 0 in
  let D := fun x =>
    N.lxor (C ((x + 4) mod 5)%nat) (rotl64 (C ((x + 1) mod 5)%nat) 1) in
  map (fun p => N.lxor (lane st (fst p) (snd p)) (D (fst p))) positions.

Definition rotc : list N :=
  [ 0;  1; 62; 28; 27;
   36; 44;  6; 55; 20;
    3; 10; 43; 25; 39;
   41; 45; 15; 21;  8;
   18;  2; 61; 56; 14].

(** rho and pi together: lane [(x, y)] rotated goes to [(y, 2x + 3y)]. *)
Definition rho_pi (st : list N) : list N :=
  map (fun p =>
         let x := ((fst p + 3 * snd p) mod 5)%nat in
         let y := fst p in
         rotl64 (lane st x y) (nth (x + 5 * y)%nat rotc 0)) positions.

Definition chi (st : list N) : list N :=
  map (fun p =>
         let x := fst p in
         let y := snd p in
         N.lxor (lane st x y)
           (N.land (N.lxor (lane st (x + 1) y) mask64) (lane st (x + 2) y)))
      positions.

Definition round_constants : list N :=
  [0x0000000000000001; 0x0000000000008082; 0x800000000000808A;
   0x8000000080008000; 0x000000000000808B; 0x0000000080000001;
   0x8000000080008081; 0x8000000000008009; 0x000000000000008A;
   0x0000000000000088; 0x0000000080008009; 0x000000008000000A;
   0x000000008000808B; 0x800000000000008B; 0x8000000000008089;
   0x8000000000008003; 0x8000000000008002; 0x8000000000000080;
   0x000000000000800A; 0x800000008000000A; 0x8000000080008081;
   0x8000000000008080; 0x0000000080000001; 0x8000000080008008].

Definition iota (rc : N) (st : list N) : list N :=
  match st with
  | [] => []
  | a :: rest => N.lxor a rc :: rest
  end.

Definition round (st : list N) (rc : N) : list N :=
  iota rc (chi (rho_pi (theta st))).

Definition keccak_f (st : list N) : list N :=
  fold_left round round_constants st.

Definition rate : nat := 136.

Definition byte_of (n : N) : byte :=
  match Byte.of_N (n mod 256) with
  | Some b => b
  | None => x00
  end.

(** Little-endian value of a byte string. *)
Definition le_value (b : bytes) : N :=
  fold_right (fun x acc => Byte.to_N x + 256 * acc) 0 b.

Fixpoint lanes_of (n : nat) (b : bytes) : list N :=
  match n with
  | O => []
  | S n' => le_value (firstn 8 b) :: lanes_of n' (skipn 8 b)
  end.

Definition xor_block (st : list N) (block : bytes) : list N :=
  map (fun p => N.lxor (fst p) (snd p))
      (combine st (lanes_of 17 block ++ repeat 0 8)).

Definition pad (msg : bytes) : bytes :=
  match (rate - (length msg mod rate))%nat with
  | 1%nat => msg ++ [x81]
  | r => msg ++ [x01] ++ repeat x00 (r - 2) ++ [x80]
  end.

Fixpoint absorb (fuel : nat) (st : list N) (msg : bytes) : list N :=
  match fuel, msg with
  | _, [] => st
  | O, _ => st
  | S fuel', _ =>
      absorb fuel' (keccak_f (xor_block st (firstn rate msg)))
             (skipn rate msg)
  end.

Definition le_bytes8 (n : N) : bytes :=
  map (fun k => byte_of (N.shiftr n (8 * N.of_nat k))) (seq 0 8).

Definition keccak256 (msg : bytes) : bytes :=
  let p := pad msg in
  let st := absorb (length p) (repeat 0 25) p in
  flat_map (fun i => le_bytes8 (nth i st 0)) [0; 1; 2; 3]%nat.

End Keccak256.

(* ================================================================== *)
(** * agent/src/types.py *)
(* ================================================================== *)

Module Types.

(** An address is held as the bytes its hexadecimal text denotes (20 for
    a well-formed one). *)
Definition address := bytes.

Record PoolKey : Type := mkPoolKey {
  currency0 : address;
  currency1 : address;
  fee : Z;
  tick_spacing : Z;
  hooks : address
}.

Record LPIntent : Type := mkLPIntent {
  user : address;
  pool : PoolKey;
  tick_lower : Z;
  tick_upper : Z;
  amount : Z;
  nonce : Z;
  deadline : Z
}.

(** [EIP712_DOMAIN] *)
Definition EIP712_DOMAIN_name : string := "PrivBatch".
Definition EIP712_DOMAIN_version : string := "1".

End Types.

Export Types.

(* ================================================================== *)
(** * eth_abi.encode, for the static types the agent passes *)
(* ================================================================== *)

Module Abi.

Inductive abi_type : Set :=
| bytes32
| t_address
| uint (bits : Z)
| int (bits : Z).

Inductive abi_value : Type :=
| v_bytes (b : bytes)
| v_address (a : address)
| v_int (n : Z).

Definition zeros (n : nat) : bytes := repeat x00 n.

(** One head word.  Every static type takes exactly 32 bytes: bytes32 is
    padded on the right, an address (20 bytes) on the left, an unsigned
    integer is written big-endian, a signed one in 256-bit two's
    complement.  A value outside its type is refused. *)
Definition encode_single (t : abi_type) (v : abi_value) : result bytes :=
  match t, v with
  | bytes32, v_bytes b =>
      if (length b <=? 32)%nat then Ok (b ++ zeros (32 - length b))
      else Err EncodingError
  | t_address, v_address a =>
      if (length a =? 20)%nat then Ok (zeros 12 ++ a)
      else Err EncodingError
  | uint bits, v_int n =>
      if ((0 <=? n) && (n <? 2 ^ bits))%bool then Ok (be_digits 32 n)
      else Err EncodingError
  | int bits, v_int n =>
      if ((- 2 ^ (bits - 1) <=? n) && (n <? 2 ^ (bits - 1)))%bool
      then Ok (be_digits 32 (n mod 2 ^ 256))
      else Err EncodingError
  | _, _ => Err EncodingError
  end.

Fixpoint encode (ts : list abi_type) (vs : list abi_value) : result bytes :=
  match ts, vs with
  | [], [] => Ok []
  | t :: ts', v :: vs' =>
      w <- encode_single t v ;;
      rest <- encode ts' vs' ;;
      Ok (w ++ rest)
  | _, _ => Err EncodingError
  end.

End Abi.

(* ================================================================== *)
(** * agent/src/merkle.py : the Merkle tree *)
(* ================================================================== *)

Module Merkle.
Section WithHash.

(** [Web3.keccak] *)
Variable keccak : bytes -> bytes.

(** [_hash_pair] *)
Definition _hash_pair (a b : bytes) : bytes :=
  if bytes_leb a b then keccak (a ++ b) else keccak (b ++ a).

Definition PoolKey_signature : string :=
  "PoolKey(address currency0,address currency1,uint24 fee,int24 tickSpacing,address hooks)".

(** The text literal of [compute_leaf], as the source has it. *)
Definition LPIntent_full_signature : string :=
  "LPIntent(address user,PoolKey pool,int24 tickLower,int24 tickUpper,uint256 amount,uint256 nonce,uint256 deadline)PoolKey(address currency0,address currency1,uint24 fee,int24 tickSpacing,address hooks)".

(** [_hash_pool_key] *)
Definition _hash_pool_key (pool : PoolKey) : result bytes :=
  let pool_key_typehash := keccak (bytes_of_string PoolKey_signature) in
  encoded <-
    Abi.encode
      [Abi.bytes32; Abi.t_address; Abi.t_address; Abi.uint 24; Abi.int 24;
       Abi.t_address]
      [Abi.v_bytes pool_key_typehash; Abi.v_address (currency0 pool);
       Abi.v_address (currency1 pool); Abi.v_int (fee pool);
       Abi.v_int (tick_spacing pool); Abi.v_address (hooks pool)] ;;
  Ok (keccak encoded).

(** [compute_leaf] *)
Definition compute_leaf (intent : LPIntent) : result bytes :=
  let lp_intent_typehash := keccak (bytes_of_string LPIntent_full_signature) in
  pool_hash <- _hash_pool_key (pool intent) ;;
  encoded <-
    Abi.encode
      [Abi.bytes32; Abi.t_address; Abi.bytes32; Abi.int 24; Abi.int 24;
       Abi.uint 256; Abi.uint 256; Abi.uint 256]
      [Abi.v_bytes lp_intent_typehash; Abi.v_address (user intent);
       Abi.v_bytes pool_hash; Abi.v_int (tick_lower intent);
       Abi.v_int (tick_upper intent); Abi.v_int (amount intent);
       Abi.v_int (nonce intent); Abi.v_int (deadline intent)] ;;
  Ok (keccak encoded).

Record MerkleTree : Type := mkTree {
  leaves : list bytes;
  layers : list (list bytes)
}.

(** Body of [for i in range(0, n, 2)] in [_build]: one append to
    [next_layer]. *)
Definition build_step (layer : list bytes) (acc : result (list bytes)) (i : Z)
  : result (list bytes) :=
  next_layer <- acc ;;
  if (i + 1 <? Z.of_nat (length layer))%Z then
    a <- index layer i ;;
    b <- index layer (i + 1) ;;
    Ok (next_layer ++ [_hash_pair a b])
  else
    a <- index layer i ;;
    Ok (next_layer ++ [a]).

(** The inner [for] loop of [_build]: the layer above [layer]. *)
Definition next_layer (layer : list bytes) : result (list bytes) :=
  fold_left (build_step layer) (range_by2 (Z.of_nat (length layer))) (Ok []).

(** The [while len(layer) > 1] loop of [_build]; [acc] is [self.layers]. *)
Fixpoint build_loop (fuel : nat) (layer : list bytes) (acc : list (list bytes))
  : result (list (list bytes)) :=
  if (1 <? length layer)%nat then
    match fuel with
    | O => Err OutOfFuel
    | S fuel' =>
        nl <- next_layer layer ;;
        build_loop fuel' nl (acc ++ [nl])
    end
  else Ok acc.

(** [_build]: layer 0 is the leaves; the loop halves the layer each time,
    so [len(leaves)] iterations are more than it can make. *)
Definition _build (lvs : list bytes) : result (list (list bytes)) :=
  build_loop (length lvs) lvs [lvs].

(** [MerkleTree.__init__] *)
Definition __init__ (lvs : list bytes) : result MerkleTree :=
  match lvs with
  | [] => Err ValueError
  | _ :: _ =>
      ls <- _build lvs ;;
      Ok (mkTree lvs ls)
  end.

(** [MerkleTree.root]: [self.layers[-1][0]] *)
Definition root (t : MerkleTree) : result bytes :=
  top <- index (layers t) (-1) ;;
  index top 0.

(** Body of [for layer in self.layers[:-1]] in [get_proof]; the state is
    [(proof, idx)]. *)
Definition proof_step (st : result (list bytes * Z)) (layer : list bytes)
  : result (list bytes * Z) :=
  s <- st ;;
  let '(proof, idx) := s in
  let n := Z.of_nat (length layer) in
  proof' <-
    (if (idx mod 2 =? 0)%Z then
       if (idx + 1 <? n)%Z then
         sib <- index layer (idx + 1) ;;
         Ok (proof ++ [sib])
       else Ok proof
     else
       sib <- index layer (idx - 1) ;;
       Ok (proof ++ [sib])) ;;
  Ok (proof', (idx / 2)%Z).

(** [MerkleTree.get_proof] *)
Definition get_proof (t : MerkleTree) (i : Z) : result (list bytes) :=
  if ((i <? 0) || (i >=? Z.of_nat (length (leaves t))))%Z%bool then
    Err IndexError
  else
    s <- fold_left proof_step (all_but_last (layers t)) (Ok ([], i)) ;;
    Ok (fst s).

(** A method call seen as a state transformer on the object: the object
    after the call and what the call returned.  [get_proof] assigns no
    attribute of [self]. *)
Definition call_get_proof (t : MerkleTree) (i : Z)
  : MerkleTree * result (list bytes) :=
  (t, get_proof t i).

(** [MerkleTree.verify] *)
Definition verify (leaf : bytes) (proof : list bytes) (rt : bytes) : bool :=
  let computed := fold_left _hash_pair proof leaf in
  bytes_eqb computed rt.

End WithHash.
End Merkle.

(* ================================================================== *)
(** * agent/src/signer.py : EIP-712 signing *)
(* ================================================================== *)

Module Signer.

(** The dictionaries [build_eip712_message] assembles, as records. *)
Record Domain : Type := mkDomain {
  d_name : string;
  d_version : string;
  d_chainId : Z;
  d_verifyingContract : address
}.

Record PoolMessage : Type := mkPoolMessage {
  m_currency0 : address;
  m_currency1 : address;
  m_fee : Z;
  m_tickSpacing : Z;
  m_hooks : address
}.

Record Message : Type := mkMessage {
  m_user : address;
  m_pool : PoolMessage;
  m_tickLower : Z;
  m_tickUpper : Z;
  m_amount : Z;
  m_nonce : Z;
  m_deadline : Z
}.

(** One entry [{"name": .., "type": ..}] of a type description. *)
Definition field : Type := (string * string)%type.

Record FullMessage : Type := mkFullMessage {
  domain : Domain;
  types : list (string * list field);
  primaryType : string;
  message : Message
}.

(** [build_eip712_message] *)
Definition build_eip712_message (intent : LPIntent) (chain_id : Z)
           (verifying_contract : address) : FullMessage :=
  let domain :=
    mkDomain EIP712_DOMAIN_name EIP712_DOMAIN_version chain_id
             verifying_contract in
  let message :=
    mkMessage (user intent)
      (mkPoolMessage (currency0 (pool intent)) (currency1 (pool intent))
                     (fee (pool intent)) (tick_spacing (pool intent))
                     (hooks (pool intent)))
      (tick_lower intent) (tick_upper intent) (amount intent)
      (nonce intent) (deadline intent) in
  let types :=
    [("PoolKey"%string,
      [("currency0", "address"); ("currency1", "address");
       ("fee", "uint24"); ("tickSpacing", "int24");
       ("hooks", "address")]%string);
     ("LPIntent"%string,
      [("user", "address"); ("pool", "PoolKey"); ("tickLower", "int24");
       ("tickUpper", "int24"); ("amount", "uint256");
       ("nonce", "uint256"); ("deadline", "uint256")]%string)] in
  mkFullMessage domain types "LPIntent" message.

(** The fields of eth_account's [SignedMessage] that [sign_intent] reads. *)
Record SignedMessage : Type := mkSigned {
  r : Z;
  s : Z;
  v : Z
}.

Section WithAccount.

(** eth_account: the signable message of a typed-data dictionary,
    [Account.sign_message] and [Account.recover_message] called with
    [vrs=(v, r, s)]. *)
Variable SignableMessage : Type.
Variable encode_typed_data : FullMessage -> result SignableMessage.
Variable sign_message : SignableMessage -> string -> result SignedMessage.
Variable recover_vrs : SignableMessage -> Z * Z * Z -> result address.

(** [Account.recover_message(signable, signature=...)]: a signature of 65
    bytes is read as big-endian [r] (bytes 0..31), big-endian [s] (bytes
    32..63) and [v] (byte 64); any other length is refused. *)
Definition recover_message (signable : SignableMessage) (signature : bytes)
  : result address :=
  if (length signature =? 65)%nat then
    recover_vrs signable
      (be_value (skipn 64 signature),
       be_value (firstn 32 signature),
       be_value (firstn 32 (skipn 32 signature)))
  else Err BadSignature.

(** [sign_intent] *)
Definition sign_intent (intent : LPIntent) (private_key : string)
           (chain_id : Z) (verifying_contract : address) : result bytes :=
  let full_message :=
    build_eip712_message intent chain_id verifying_contract in
  signable <- encode_typed_data full_message ;;
  signed <- sign_message signable private_key ;;
  rb <- to_bytes (r signed) 32 ;;
  sb <- to_bytes (s signed) 32 ;;
  vb <- to_bytes (v signed) 1 ;;
  Ok (rb ++ sb ++ vb).

(** [verify_intent_signature] *)
Definition verify_intent_signature (intent : LPIntent) (signature : bytes)
           (chain_id : Z) (verifying_contract : address) : result address :=
  let full_message :=
    build_eip712_message intent chain_id verifying_contract in
  signable <- encode_typed_data full_message ;;
  recover_message signable signature.

End WithAccount.

End Signer.

(* ================================================================== *)
(** * agent/src/optimizer.py : range sizing *)
(* ================================================================== *)

(** The module computes on Python floats with [*], [/], unary [-], [<=] and
    [math.exp], [math.log], [math.floor].  They are gathered in [Arith], and
    the functions of the module are written over any such arithmetic.
    [PyFloat.arith] below is the arithmetic of Python: binary64 numbers,
    with the functions of the C library as parameters. *)
Module Optimizer.

Record Arith : Type := mkArith {
  float : Type;
  (** the literals [0], [0.01] and [1.0001] *)
  lit_0 : float;
  lit_0_01 : float;
  lit_1_0001 : float;
  (** [x <= y] *)
  le : float -> float -> bool;
  (** [-x] and [x * y] *)
  neg : float -> float;
  mul : float -> float -> float;
  (** [x / y]: ZeroDivisionError *)
  truediv : float -> float -> result float;
  (** [math.exp]: OverflowError *)
  math_exp : float -> result float;
  (** [math.log]: ValueError outside its domain *)
  math_log : float -> result float;
  (** [int(math.floor(x))]: raises on an infinity or a NaN *)
  math_floor : float -> result Z
}.

(** [round_tick]: [//] is floor division, as [Z.div] is. *)
Definition round_tick (tick : Z) (tick_spacing : Z) : result Z :=
  if tick_spacing =? 0 then Err ZeroDivisionError
  else Ok ((tick / tick_spacing) * tick_spacing).

Section WithArith.

Variable A : Arith.

(** [price_to_tick] *)
Definition price_to_tick (price : float A) : result Z :=
  if le A price (lit_0 A) then Err ValueError
  else
    a <- math_log A price ;;
    b <- math_log A (lit_1_0001 A) ;;
    q <- truediv A a b ;;
    math_floor A q.

(** [compute_optimal_range] *)
Definition compute_optimal_range
           (current_price volatility k_multiplier : float A)
           (tick_spacing : Z) : result (Z * Z) :=
  let volatility :=
    if le A volatility (lit_0 A) then lit_0_01 A else volatility in
  center_tick <- price_to_tick current_price ;;
  e_lower <- math_exp A (mul A (neg A k_multiplier) volatility) ;;
  let price_lower := mul A current_price e_lower in
  e_upper <- math_exp A (mul A k_multiplier volatility) ;;
  let price_upper := mul A current_price e_upper in
  pl <- price_to_tick price_lower ;;
  tick_lower <- round_tick pl tick_spacing ;;
  pu <- price_to_tick price_upper ;;
  ru <- round_tick pu tick_spacing ;;
  let tick_upper := ru + tick_spacing in
  let tick_upper :=
    if tick_lower >=? tick_upper then tick_lower + tick_spacing
    else tick_upper in
  Ok (tick_lower, tick_upper).

End WithArith.

(** [tick_upper - tick_lower] of a returned range. *)
Definition width (rg : Z * Z) : Z := snd rg - fst rg.

End Optimizer.

(* ================================================================== *)
(** * Python floats *)
(* ================================================================== *)

(** A Python float is an IEEE 754 binary64 number, here a primitive float:
    [*], [/], unary [-] and [<=] are the operations of the standard, with
    their rounding, infinities, signed zeros and NaN.  [math.exp] and
    [math.log] call the C library of the platform, whose results the
    language does not fix to the last bit: [libm_exp] and [libm_log] are
    parameters, and [math_exp], [math_log] are what CPython makes of them
    (a NaN from an argument that is none is a ValueError; an infinity from a
    finite argument is an OverflowError for [math.exp] and a ValueError for
    [math.log]). *)
Module PyFloat.

(** The integer [math.floor] returns for a finite float [m * 2^e], of
    sign [s]. *)
Definition floor_spec (x : spec_float) : Z :=
  match x with
  | S754_finite s m e =>
      let n := if s then Z.neg m else Z.pos m in
      if 0 <=? e then n * 2 ^ e else n / 2 ^ (- e)
  | _ => 0
  end.

Definition floor_Z (x : PrimFloat.float) : Z := floor_spec (Prim2SF x).

(** [x / y] *)
Definition truediv (x y : PrimFloat.float) : result PrimFloat.float :=
  if PrimFloat.eqb y 0 then Err ZeroDivisionError
  else Ok (PrimFloat.div x y).

(** [int(math.floor(x))]: "cannot convert float NaN to integer" is a
    ValueError, "cannot convert float infinity to integer" an
    OverflowError. *)
Definition math_floor (x : PrimFloat.float) : result Z :=
  if PrimFloat.is_nan x then Err ValueError
  else if PrimFloat.is_infinity x then Err OverflowError
  else Ok (floor_Z x).

Section WithLibm.

(** [exp] and [log] of the C library. *)
Variable libm_exp : PrimFloat.float -> PrimFloat.float.
Variable libm_log : PrimFloat.float -> PrimFloat.float.

(** [math.exp] *)
Definition math_exp (x : PrimFloat.float) : result PrimFloat.float :=
  let r := libm_exp x in
  if PrimFloat.is_nan r && negb (PrimFloat.is_nan x) then Err ValueError
  else if PrimFloat.is_infinity r && PrimFloat.is_finite x
  then Err OverflowError
  else Ok r.

(** What CPython calls in place of [log]: the library is asked only for a
    finite positive argument. *)
Definition m_log (x : PrimFloat.float) : PrimFloat.float :=
  if PrimFloat.is_finite x then
    if PrimFloat.ltb 0 x then libm_log x
    else if PrimFloat.eqb x 0 then PrimFloat.neg_infinity
    else PrimFloat.nan
  else if PrimFloat.is_nan x then x
  else if PrimFloat.ltb 0 x then x
  else PrimFloat.nan.

(** [math.log] with one argument *)
Definition math_log (x : PrimFloat.float) : result PrimFloat.float :=
  let r := m_log x in
  if PrimFloat.is_nan r && negb (PrimFloat.is_nan x) then Err ValueError
  else if PrimFloat.is_infinity r && PrimFloat.is_finite x
  then Err ValueError
  else Ok r.

(** The arithmetic of Python.  The literal [0] of the comparisons is an
    [int], compared with a float by value. *)
Definition arith : Optimizer.Arith :=
  Optimizer.mkArith 0%float 0.01%float 1.0001%float
    PrimFloat.leb PrimFloat.opp PrimFloat.mul
    truediv math_exp math_log math_floor.

End WithLibm.

End PyFloat.

(** A C library to run the float code with: [exp] and [log] computed with
    float operations, by reduction of the argument and a truncated series.
    It has the special values and the overflow of the C standard and is
    accurate to a few units in the last place; it is not the library of any
    platform bit for bit. *)
Module StandInLibm.

Definition of_Z (z : Z) : PrimFloat.float :=
  if z <? 0 then PrimFloat.opp (PrimFloat.of_uint63 (Uint63.of_Z (- z)))
  else PrimFloat.of_uint63 (Uint63.of_Z z).

Definition ln2 : PrimFloat.float := 0x1.62e42fefa39efp-1%float.
Definition ln2_hi : PrimFloat.float := 0x1.62e42feep-1%float.
Definition ln2_lo : PrimFloat.float := 0x1.a39ef35793c76p-33%float.

(** [1 + r/k (1 + r/(k+1) (1 + ...))]: the series of [exp r] from term
    [k] on. *)
Fixpoint exp_series (r : PrimFloat.float) (k : Z) (terms : nat)
  : PrimFloat.float :=
  match terms with
  | O => 1%float
  | S terms' =>
      (1 + r / of_Z k * exp_series r (k + 1) terms')%float
  end.

(** [exp x = 2^n * exp r] with [x = n ln 2 + r]. *)
Definition exp (x : PrimFloat.float) : PrimFloat.float :=
  if PrimFloat.is_nan x then x
  else if PrimFloat.ltb 709.782712893384%float x then PrimFloat.infinity
  else if PrimFloat.ltb x (-745.1332191019412)%float then 0%float
  else
    let n := PyFloat.floor_Z (x / ln2 + 0.5)%float in
    let r := (x - of_Z n * ln2_hi - of_Z n * ln2_lo)%float in
    Z.ldexp (exp_series r 1 20) n.

(** [1/(2j+1) + z2 (1/(2j+3) + z2 (...))]: the series of [atanh z / z]. *)
Fixpoint atanh_series (z2 : PrimFloat.float) (j : Z) (terms : nat)
  : PrimFloat.float :=
  match terms with
  | O => (1 / of_Z (2 * j + 1))%float
  | S terms' =>
      (1 / of_Z (2 * j + 1) + z2 * atanh_series z2 (j + 1) terms')%float
  end.

(** [log x = e ln 2 + 2 atanh ((m - 1) / (m + 1))] with [x = m 2^e] and
    [m] between [sqrt 2 / 2] and [sqrt 2]; for a finite positive [x]. *)
Definition log (x : PrimFloat.float) : PrimFloat.float :=
  let (m, e) := Z.frexp x in
  let (m, e) :=
    if PrimFloat.ltb m 0x1.6a09e667f3bcdp-1%float
    then ((m * 2)%float, e - 1) else (m, e) in
  let z := ((m - 1) / (m + 1))%float in
  (of_Z e * ln2 + 2 * z * atanh_series (z * z) 0 12)%float.

(** Python on this library. *)
Definition arith : Optimizer.Arith := PyFloat.arith exp log.

End StandInLibm.

(* ================================================================== *)
(** * Laws of float arithmetic *)
(* ================================================================== *)

(** What the range code relies on in its arithmetic.  The laws are those of
    IEEE 754 arithmetic rounded to nearest, where comparing with a NaN is
    false, an operation on a NaN gives a NaN and rounding keeps the order,
    and of a C library whose [exp] and [log] never decrease.  They speak of
    the operations as Python has them, so a call that raises is bound by
    none. *)
Module FloatLaws.
Section Laws.

Variable A : Optimizer.Arith.

(** [x <= y] is true. *)
Definition leq (x y : Optimizer.float A) : Prop := Optimizer.le A x y = true.

(** [x] is a number: it is no NaN. *)
Definition number (x : Optimizer.float A) : Prop := leq x x.

(** The volatility [compute_optimal_range] computes with. *)
Definition effective_volatility (volatility : Optimizer.float A)
  : Optimizer.float A :=
  if Optimizer.le A volatility (Optimizer.lit_0 A)
  then Optimizer.lit_0_01 A else volatility.

Record Monotone : Prop := mkMonotone {
  (** the order *)
  le_numbers : forall x y, leq x y -> number x /\ number y;
  le_total : forall x y, number x -> number y -> leq x y \/ leq y x;
  le_trans : forall x y z, leq x y -> leq y z -> leq x z;
  zero_le_small : leq (Optimizer.lit_0 A) (Optimizer.lit_0_01 A);
  (** [-x] *)
  neg_nonneg : forall x, leq (Optimizer.lit_0 A) x ->
    leq (Optimizer.neg A x) (Optimizer.lit_0 A);
  neg_nonpos : forall x, leq x (Optimizer.lit_0 A) ->
    leq (Optimizer.lit_0 A) (Optimizer.neg A x);
  neg_antitone : forall x y, leq x y ->
    leq (Optimizer.neg A y) (Optimizer.neg A x);
  (** [x * y] *)
  mul_number : forall x y, number (Optimizer.mul A x y) ->
    number x /\ number y;
  mul_mono_nonneg_l : forall c x y,
    leq (Optimizer.lit_0 A) c -> leq x y ->
    number (Optimizer.mul A c x) -> number (Optimizer.mul A c y) ->
    leq (Optimizer.mul A c x) (Optimizer.mul A c y);
  mul_mono_nonpos_l : forall c x y,
    leq c (Optimizer.lit_0 A) -> leq x y ->
    number (Optimizer.mul A c x) -> number (Optimizer.mul A c y) ->
    leq (Optimizer.mul A c y) (Optimizer.mul A c x);
  mul_mono_nonneg_r : forall c x y,
    leq (Optimizer.lit_0 A) c -> leq x y ->
    number (Optimizer.mul A x c) -> number (Optimizer.mul A y c) ->
    leq (Optimizer.mul A x c) (Optimizer.mul A y c);
  (** [x / y] *)
  div_number : forall x y q,
    Optimizer.truediv A x y = Ok q -> number q -> number x;
  div_mono : forall c x y qx qy,
    Optimizer.truediv A x c = Ok qx -> Optimizer.truediv A y c = Ok qy ->
    leq (Optimizer.lit_0 A) c -> leq x y -> number qx -> number qy ->
    leq qx qy;
  (** [math.exp] *)
  exp_number : forall x e,
    Optimizer.math_exp A x = Ok e -> number e -> number x;
  exp_mono : forall x y ex ey,
    Optimizer.math_exp A x = Ok ex -> Optimizer.math_exp A y = Ok ey ->
    leq x y -> leq ex ey;
  (** [math.log] *)
  log_number : forall x l,
    Optimizer.math_log A x = Ok l -> number l -> number x;
  log_mono : forall x y lx ly,
    Optimizer.math_log A x = Ok lx -> Optimizer.math_log A y = Ok ly ->
    leq x y -> leq lx ly;
  log_base_nonneg : forall l,
    Optimizer.math_log A (Optimizer.lit_1_0001 A) = Ok l ->
    leq (Optimizer.lit_0 A) l;
  (** [int(math.floor(x))] *)
  floor_number : forall x n, Optimizer.math_floor A x = Ok n -> number x;
  floor_mono : forall x y m n,
    Optimizer.math_floor A x = Ok m -> Optimizer.math_floor A y = Ok n ->
    leq x y -> (m <= n)%Z
}.

(** What the place of the current price in the range relies on besides:
    a product has the sign of its factors, and multiplying a price by the
    exponential of a number at or above 0 does not lower it, by that of a
    number at or below 0 does not raise it ([exp] is 1 at 0). *)
Record Expanding : Prop := mkExpanding {
  mul_nonneg : forall x y,
    leq (Optimizer.lit_0 A) x -> leq (Optimizer.lit_0 A) y ->
    number (Optimizer.mul A x y) ->
    leq (Optimizer.lit_0 A) (Optimizer.mul A x y);
  mul_nonpos : forall x y,
    leq x (Optimizer.lit_0 A) -> leq (Optimizer.lit_0 A) y ->
    number (Optimizer.mul A x y) ->
    leq (Optimizer.mul A x y) (Optimizer.lit_0 A);
  exp_expands : forall p x e,
    leq (Optimizer.lit_0 A) p -> leq (Optimizer.lit_0 A) x ->
    Optimizer.math_exp A x = Ok e -> number (Optimizer.mul A p e) ->
    leq p (Optimizer.mul A p e);
  exp_shrinks : forall p x e,
    leq (Optimizer.lit_0 A) p -> leq x (Optimizer.lit_0 A) ->
    Optimizer.math_exp A x = Ok e -> number (Optimizer.mul A p e) ->
    leq (Optimizer.mul A p e) p
}.

End Laws.

Arguments mul_nonneg [A] _ [x y] _ _ _.
Arguments mul_nonpos [A] _ [x y] _ _ _.
Arguments exp_expands [A] _ [p x e] _ _ _ _.
Arguments exp_shrinks [A] _ [p x e] _ _ _ _.
Arguments le_numbers [A] _ [x y] _.
Arguments le_total [A] _ [x y] _ _.
Arguments le_trans [A] _ [x y z] _ _.
Arguments zero_le_small [A] _.
Arguments neg_nonneg [A] _ [x] _.
Arguments neg_nonpos [A] _ [x] _.
Arguments neg_antitone [A] _ [x y] _.
Arguments mul_number [A] _ [x y] _.
Arguments mul_mono_nonneg_l [A] _ [c x y] _ _ _ _.
Arguments mul_mono_nonpos_l [A] _ [c x y] _ _ _ _.
Arguments mul_mono_nonneg_r [A] _ [c x y] _ _ _ _.
Arguments div_number [A] _ [x y q] _ _.
Arguments div_mono [A] _ [c x y qx qy] _ _ _ _ _ _.
Arguments exp_number [A] _ [x e] _ _.
Arguments exp_mono [A] _ [x y ex ey] _ _ _.
Arguments log_number [A] _ [x l] _ _.
Arguments log_mono [A] _ [x y lx ly] _ _ _.
Arguments log_base_nonneg [A] _ [l] _.
Arguments floor_number [A] _ [x n] _.
Arguments floor_mono [A] _ [x y m n] _ _ _.

End FloatLaws.

(** What the rounding of binary64 operations is described with below:
    the specification of the operations shifts a mantissa to the right and
    keeps a round bit and a sticky bit. *)
Module IEEE.

(** The key of a shifted mantissa: four times the mantissa, plus two for
    the round bit and one for the sticky bit. *)
Definition rkey (r : shr_record) : Z :=
  4 * shr_m r + (if shr_r r then 2 else 0) + (if shr_s r then 1 else 0).

(** The key of the quotient [N / D]: four times its integer part, plus 0
    when it is an integer, 1 below the half, 2 at the half, 3 above. *)
Definition kappa (N D : Z) : Z :=
  4 * (N / D)
  + (if N mod D =? 0 then 0
     else match 2 * (N mod D) ?= D with Lt => 1 | Eq => 2 | Gt => 3 end).

(** The mantissa of a key rounded to nearest, ties to even. *)
Definition rne_key (K : Z) : Z :=
  let m := K / 4 in
  match K mod 4 with
  | 0 | 1 => m
  | 2 => if Z.even m then m else m + 1
  | _ => m + 1
  end.

(** The float of a mantissa rounded at exponent [t], after the carry. *)
Definition final (s : bool) (t K : Z) : spec_float :=
  let r := rne_key K in
  let mf := if r =? 2 ^ 53 then 2 ^ 52 else r in
  let ef := if r =? 2 ^ 53 then t + 1 else t in
  match mf with
  | Z0 => S754_zero s
  | Zpos m => if ef <=? 971 then S754_finite s m ef else S754_infinity s
  | Zneg _ => S754_nan
  end.

(** A float that is no NaN and has the sign [s]. *)
Definition has_sign (s : bool) (a : spec_float) : Prop :=
  match a with
  | S754_zero s' | S754_infinity s' | S754_finite s' _ _ => s' = s
  | S754_nan => False
  end.

(** The exponent [SFdiv_core_binary] chooses for a quotient, and the
    numerator it divides. *)
Definition div_exponent (m1 : positive) (e1 : Z) (m2 : positive) (e2 : Z)
  : Z :=
  Z.min
    (fexp 53 1024
       (Zpos (digits2_pos m1) + e1 - (Zpos (digits2_pos m2) + e2)))
    (e1 - e2).

Definition div_numerator (m1 : positive) (e1 : Z) (m2 : positive) (e2 : Z)
  : Z :=
  Zpos m1 * 2 ^ (e1 - e2 - div_exponent m1 e1 m2 e2).

(** The float 1. *)
Definition one : spec_float := S754_finite false 4503599627370496 (-52).

End IEEE.

(** What is asked of the C library for Python's floats to keep the order:
    [exp] gives a NaN on a NaN, [exp] and [log] never decrease, and
    [log 1.0001] is not below 0. *)
Module Libm.

Record Monotone (libm_exp libm_log : PrimFloat.float -> PrimFloat.float)
  : Prop := mkMonotone {
  exp_nan : forall x,
    PrimFloat.is_nan x = true -> PrimFloat.is_nan (libm_exp x) = true;
  exp_monotone : forall x y,
    PrimFloat.leb x y = true ->
    PrimFloat.leb (libm_exp x) (libm_exp y) = true;
  log_monotone : forall x y,
    PrimFloat.is_finite x = true -> PrimFloat.is_finite y = true ->
    PrimFloat.ltb 0%float x = true -> PrimFloat.leb x y = true ->
    PrimFloat.leb (libm_log x) (libm_log y) = true;
  log_base : PrimFloat.leb 0%float (libm_log 1.0001%float) = true
}.

End Libm.

(** The same operations on the real numbers, where nothing rounds,
    overflows or is a NaN.  This is not the arithmetic of Python: it is an
    arithmetic in which the laws above hold together. *)
Module ExactArith.

Definition real_arith : Optimizer.Arith :=
  Optimizer.mkArith 0%R 0.01%R 1.0001%R
    (fun x y => if Rle_dec x y then true else false)
    Ropp Rmult
    (fun x y =>
       if Req_dec_T y 0 then Err ZeroDivisionError else Ok (x / y)%R)
    (fun x => Ok (exp x))
    (fun x => if Rle_dec x 0 then Err ValueError else Ok (ln x))
    (fun x => Ok (Zfloor x)).

(** [price_to_tick] of a positive price. *)
Definition tick_of (price : R) : Z := Zfloor (ln price / ln 1.0001).

End ExactArith.

(* ================================================================== *)
(** * Structural reading of the tree construction *)
(* ================================================================== *)

(** The two loops of [_build] written by recursion on the layer; the
    index-driven loops above are shown equal to them
    ([next_layer_pair_up], [build_loop_chain]). *)
Module MerkleSpec.
Section WithHash.

Variable keccak : bytes -> bytes.

(** One pass over a layer: neighbours hashed, a last odd node kept. *)
Fixpoint pair_up (l : list bytes) : list bytes :=
  match l with
  | a :: b :: rest => Merkle._hash_pair keccak a b :: pair_up rest
  | _ => l
  end.

(** The layers appended after [layer] by at most [fuel] iterations. *)
Fixpoint chain (fuel : nat) (layer : list bytes) : list (list bytes) :=
  match fuel with
  | O => []
  | S fuel' =>
      if (1 <? length layer)%nat
      then pair_up layer :: chain fuel' (pair_up layer)
      else []
  end.

(** [l'] is [l] with the two members of some sibling pairs (positions
    [2j] and [2j+1]) exchanged. *)
Inductive sibling_swap : list bytes -> list bytes -> Prop :=
| swap_nil : sibling_swap [] []
| swap_one : forall a, sibling_swap [a] [a]
| swap_keep : forall a b l l',
    sibling_swap l l' -> sibling_swap (a :: b :: l) (a :: b :: l')
| swap_pair : forall a b l l',
    sibling_swap l l' -> sibling_swap (a :: b :: l) (b :: a :: l').

(** [MerkleTree(lvs).root] *)
Definition tree_root (lvs : list bytes) : result bytes :=
  t <- Merkle.__init__ keccak lvs ;;
  Merkle.root t.

(** [l'] is [l] with the two children of some nodes exchanged: sibling
    leaves, or sibling nodes of a layer further up. *)
Inductive sibling_exchange : list bytes -> list bytes -> Prop :=
| exch_leaves : forall l l',
    sibling_swap l l' -> sibling_exchange l l'
| exch_above : forall l l',
    (1 < length l)%nat -> (1 < length l')%nat ->
    sibling_exchange (pair_up l) (pair_up l') ->
    sibling_exchange l l'.

End WithHash.
End MerkleSpec.

(** The words of the leaf encoding, field by field. *)
Module LeafSpec.

Definition LPIntent_signature : string :=
  "LPIntent(address user,PoolKey pool,int24 tickLower,int24 tickUpper,uint256 amount,uint256 nonce,uint256 deadline)".

(** An address left-padded to 32 bytes. *)
Definition address_word (a : address) : bytes := Abi.zeros 12 ++ a.

(** An unsigned integer, 32 bytes big-endian. *)
Definition uint_word (n : Z) : bytes := be_digits 32 n.

(** A signed integer sign-extended to 32 bytes big-endian (256-bit two's
    complement). *)
Definition int_word (n : Z) : bytes := be_digits 32 (n mod 2 ^ 256).

Definition is_address (a : address) : Prop := length a = 20%nat.
Definition is_uint (bits n : Z) : Prop := 0 <= n < 2 ^ bits.
Definition is_int (bits n : Z) : Prop := - 2 ^ (bits - 1) <= n < 2 ^ (bits - 1).

(** The fields of a pool key fit their Solidity types. *)
Definition pool_fits (p : PoolKey) : Prop :=
  is_address (currency0 p) /\ is_address (currency1 p) /\
  is_uint 24 (fee p) /\ is_int 24 (tick_spacing p) /\
  is_address (hooks p).

(** The fields of an intent fit their Solidity types. *)
Definition intent_fits (i : LPIntent) : Prop :=
  is_address (user i) /\ pool_fits (pool i) /\
  is_int 24 (tick_lower i) /\ is_int 24 (tick_upper i) /\
  is_uint 256 (amount i) /\ is_uint 256 (nonce i) /\
  is_uint 256 (deadline i).

End LeafSpec.

(** Concrete values the statements are exercised on. *)
Module Sample.

Definition leafA : bytes := repeat x01 32.
Definition leafB : bytes := repeat x02 32.
Definition leafC : bytes := repeat x03 32.

Definition addr (last : byte) : address := repeat x00 19 ++ [last].

Definition pool0 : PoolKey :=
  mkPoolKey (addr x11) (addr x22) 3000 60 (addr x00).

Definition intent0 : LPIntent :=
  mkLPIntent (addr x01) pool0 (-887220) 887220 100000000000000000000 0
             99999999999.

End Sample.

(** A stand-in for eth_account with the interface the signer uses: it keeps
    the library's contract (recovering from what was signed gives the address
    of the key) but has none of its cryptography.  It serves to run the
    signer on concrete inputs. *)
Module StandIn.

Definition SignableMessage : Type := Signer.FullMessage.

Definition encode_typed_data (m : Signer.FullMessage)
  : result SignableMessage := Ok m.

Definition scalar_of_key (private_key : string) : Z :=
  be_value (bytes_of_string private_key) mod 2 ^ 160.

Definition address_of_key (private_key : string) : address :=
  be_digits 20 (scalar_of_key private_key).

Definition sign_message (m : SignableMessage) (private_key : string)
  : result Signer.SignedMessage :=
  Ok (Signer.mkSigned (scalar_of_key private_key)
                      (1 + Signer.d_chainId (Signer.domain m)) 27).

Definition recover_vrs (m : SignableMessage) (vrs : Z * Z * Z)
  : result address :=
  let '(v, r, s) := vrs in
  if s =? 1 + Signer.d_chainId (Signer.domain m)
  then Ok (be_digits 20 r)
  else Err BadSignature.

End StandIn.

(** The two ticks [compute_optimal_range] rounds, [price_to_tick(price_lower)]
    and [price_to_tick(price_upper)], as functions of the price, the
    volatility computed with and the multiplier. *)
Module RangeSpec.
Section WithArith.

Variable A : Optimizer.Arith.

Definition lower_tick (current_price volatility k_multiplier : Optimizer.float A)
  : result Z :=
  e_lower <- Optimizer.math_exp A
               (Optimizer.mul A (Optimizer.neg A k_multiplier) volatility) ;;
  Optimizer.price_to_tick A (Optimizer.mul A current_price e_lower).

Definition upper_tick (current_price volatility k_multiplier : Optimizer.float A)
  : result Z :=
  e_upper <- Optimizer.math_exp A (Optimizer.mul A k_multiplier volatility) ;;
  Optimizer.price_to_tick A (Optimizer.mul A current_price e_upper).

(** The range made of two ticks [a] and [b]. *)
Definition range_of (a b tick_spacing : Z) : Z * Z :=
  let tick_lower := a / tick_spacing * tick_spacing in
  let tick_upper := b / tick_spacing * tick_spacing + tick_spacing in
  (tick_lower,
   if tick_lower >=? tick_upper then tick_lower + tick_spacing
   else tick_upper).

End WithArith.
End RangeSpec.

(* ================================================================== *)
(** * Python text primitives: hexadecimal text of bytes *)
(* ================================================================== *)

Module PyText.

(** The digits [bytes.hex] writes. *)
Definition hex_digit (n : N) : ascii :=
  match n with
  | 0 => "0" | 1 => "1" | 2 => "2" | 3 => "3"
  | 4 => "4" | 5 => "5" | 6 => "6" | 7 => "7"
  | 8 => "8" | 9 => "9" | 10 => "a" | 11 => "b"
  | 12 => "c" | 13 => "d" | 14 => "e" | _ => "f"
  end%N%char.

(** [b.hex()]: two lower-case digits per byte. *)
Fixpoint hex (b : bytes) : string :=
  match b with
  | [] => EmptyString
  | x :: b' =>
      String (hex_digit (Byte.to_N x / 16))
        (String (hex_digit (Byte.to_N x mod 16)) (hex b'))
  end.

(** The value of a hexadecimal digit, of either case. *)
Definition digit_value (c : ascii) : option N :=
  let n := N_of_ascii c in
  if ((48 <=? n) && (n <=? 57))%N then Some (n - 48)%N
  else if ((97 <=? n) && (n <=? 102))%N then Some (n - 87)%N
  else if ((65 <=? n) && (n <=? 70))%N then Some (n - 55)%N
  else None.

(** ASCII white space: space, tab, line feed, vertical tab, form feed,
    carriage return. *)
Definition is_space (c : ascii) : bool :=
  let n := N_of_ascii c in
  ((n =? 32) || ((9 <=? n) && (n <=? 13)))%N.

(** [bytes.fromhex(s)]: white space before a byte is skipped, then two
    hexadecimal digits follow each other; anything else is a ValueError. *)
Fixpoint fromhex (s : string) : result bytes :=
  match s with
  | EmptyString => Ok []
  | String c rest =>
      if is_space c then fromhex rest
      else
        match digit_value c, rest with
        | Some top, String d rest' =>
            match digit_value d with
            | Some bot =>
                tl <- fromhex rest' ;;
                Ok (match Byte.of_N (16 * top + bot) with
                    | Some x => x
                    | None => x00
                    end :: tl)
            | None => Err ValueError
            end
        | _, _ => Err ValueError
        end
  end.

(** [s] without the leading [p], when [s] starts with [p]. *)
Fixpoint strip_prefix (p s : string) : option string :=
  match p, s with
  | EmptyString, _ => Some s
  | String a p', String b s' =>
      if Ascii.eqb a b then strip_prefix p' s' else None
  | String _ _, EmptyString => None
  end.

(** [s.removeprefix(p)] *)
Definition removeprefix (s p : string) : string :=
  match strip_prefix p s with
  | Some rest => rest
  | None => s
  end.

(** [min(a, b)] and [max(a, b)] on strings: the first argument unless the
    second is strictly smaller (larger); strings compare by code point. *)
Definition str_min (a b : string) : string :=
  if String.ltb b a then b else a.

Definition str_max (a b : string) : string :=
  if String.ltb a b then b else a.

(** [[f(x) for x in l]] where [f] may raise. *)
Fixpoint comprehension {A B : Type} (f : A -> result B) (l : list A)
  : result (list B) :=
  match l with
  | [] => Ok []
  | x :: l' =>
      y <- f x ;;
      ys <- comprehension f l' ;;
      Ok (y :: ys)
  end.

(** [range(n)] and [range(1, n)] *)
Definition range (n : nat) : list Z := map Z.of_nat (seq 0 n).
Definition range_from1 (n : nat) : list Z := map Z.of_nat (seq 1 (n - 1)).

(** [l[-10:]] *)
Definition last10 {A : Type} (l : list A) : list A :=
  skipn (length l - 10) l.

End PyText.

(* ================================================================== *)
(** * agent/src/types.py : the API models *)
(* ================================================================== *)

Module Requests.

(** [LPIntentRequest]; the signature is hexadecimal text. *)
Record LPIntentRequest : Type := mkRequest {
  user : address;
  pool_currency0 : address;
  pool_currency1 : address;
  pool_fee : Z;
  pool_tick_spacing : Z;
  pool_hooks : address;
  tick_lower : Z;
  tick_upper : Z;
  amount : Z;
  nonce : Z;
  deadline : Z;
  signature : string
}.

(** [LPIntentRequest.to_lp_intent] *)
Definition to_lp_intent (self : LPIntentRequest) : LPIntent :=
  mkLPIntent (user self)
    (mkPoolKey (pool_currency0 self) (pool_currency1 self) (pool_fee self)
               (pool_tick_spacing self) (pool_hooks self))
    (tick_lower self) (tick_upper self) (amount self) (nonce self)
    (deadline self).

(** [BatchStatus] *)
Record BatchStatus : Type := mkStatus {
  st_pending_intents : Z;
  st_last_batch_root : option string;
  st_last_batch_tx : option string;
  st_batches_executed : Z
}.

End Requests.

(* ================================================================== *)
(** * agent/src/collector.py : the intent collector *)
(* ================================================================== *)

(** A method of [IntentCollector] is a function from the object before the
    call to the object after it and what the call returned or raised.  The
    clock read by [int(time.time())] is an argument of the call.  On address
    texts [x.lower() == y.lower()] is equality of the bytes they denote. *)
Module Collector.

(** The [detail] of the HTTP 400 errors [submit_intent] raises. *)
Inductive detail : Type :=
| DeadlinePassed
| SignatureMismatch (recovered expected : address)
| InvalidSignature (e : exn)
| DuplicateNonce.

(** What a call can end with besides a value: an [HTTPException], or an
    exception of the run time that no handler catches. *)
Inductive failure : Type :=
| HTTPException (status_code : Z) (d : detail)
| Uncaught (e : exn).

Inductive outcome (A : Type) : Type :=
| Returned (a : A)
| Failed (f : failure).
Arguments Returned {A} a.
Arguments Failed {A} f.

(** An entry of [batch_history]. *)
Record HistoryEntry : Type := mkEntry {
  h_root : string;
  h_tx_hash : string;
  h_intent_count : Z;
  h_timestamp : Z
}.

Record IntentCollector : Type := mkCollector {
  chain_id : Z;
  verifying_contract : address;
  pending_intents : list (LPIntent * bytes);
  batches_executed : Z;
  last_batch_root : option string;
  last_batch_tx : option string;
  batch_history : list HistoryEntry
}.

(** The dictionary [submit_intent] returns. *)
Record SubmitResponse : Type := mkResponse {
  status : string;
  pending_count : Z
}.

(** [IntentCollector.__init__] *)
Definition __init__ (chain_id : Z) (verifying_contract : address)
  : IntentCollector :=
  mkCollector chain_id verifying_contract [] 0 None None [].

(** The object with another pending list. *)
Definition with_pending (self : IntentCollector)
           (pending : list (LPIntent * bytes)) : IntentCollector :=
  mkCollector (chain_id self) (verifying_contract self) pending
              (batches_executed self) (last_batch_root self)
              (last_batch_tx self) (batch_history self).

(** The test of the duplicate-nonce loop on one pending entry. *)
Definition same_user_nonce (intent : LPIntent) (entry : LPIntent * bytes)
  : bool :=
  bytes_eqb (Types.user (fst entry)) (Types.user intent)
  && (Types.nonce (fst entry) =? Types.nonce intent).

Section WithAccount.

Variable SignableMessage : Type.
Variable encode_typed_data : Signer.FullMessage -> result SignableMessage.
Variable recover_vrs : SignableMessage -> Z * Z * Z -> result address.

(** [IntentCollector.submit_intent]; [now] is [int(time.time())]. *)
Definition submit_intent (now : Z) (self : IntentCollector)
           (request : Requests.LPIntentRequest)
  : IntentCollector * outcome SubmitResponse :=
  let intent := Requests.to_lp_intent request in
  match PyText.fromhex
          (PyText.removeprefix (Requests.signature request) "0x") with
  | Err e => (self, Failed (Uncaught e))
  | Ok signature =>
      if Types.deadline intent <? now then
        (self, Failed (HTTPException 400 DeadlinePassed))
      else
        match Signer.verify_intent_signature encode_typed_data recover_vrs
                intent signature (chain_id self) (verifying_contract self)
        with
        | Err e => (self, Failed (HTTPException 400 (InvalidSignature e)))
        | Ok recovered =>
            if negb (bytes_eqb recovered (Types.user intent)) then
              (self,
               Failed (HTTPException 400
                         (SignatureMismatch recovered (Types.user intent))))
            else if existsb (same_user_nonce intent) (pending_intents self)
            then (self, Failed (HTTPException 400 DuplicateNonce))
            else
              let pending := pending_intents self ++ [(intent, signature)] in
              (with_pending self pending,
               Returned (mkResponse "accepted" (Z.of_nat (length pending))))
        end
  end.

End WithAccount.

(** [IntentCollector.get_status] *)
Definition get_status (self : IntentCollector) : Requests.BatchStatus :=
  Requests.mkStatus (Z.of_nat (length (pending_intents self)))
                    (last_batch_root self) (last_batch_tx self)
                    (batches_executed self).

(** [IntentCollector.drain_pending] *)
Definition drain_pending (self : IntentCollector)
  : IntentCollector * list (LPIntent * bytes) :=
  let intents := pending_intents self in
  (with_pending self [], intents).

(** [self.pending_intents.extend(pending)], as [process_batch] does it. *)
Definition extend_pending (self : IntentCollector)
           (pending : list (LPIntent * bytes)) : IntentCollector :=
  with_pending self (pending_intents self ++ pending).

(** [IntentCollector.record_batch]; [now] is [int(time.time())]. *)
Definition record_batch (now : Z) (self : IntentCollector)
           (root tx_hash : string) (intent_count : Z) : IntentCollector :=
  mkCollector (chain_id self) (verifying_contract self)
              (pending_intents self)
              (batches_executed self + 1)
              (Some root) (Some tx_hash)
              (batch_history self ++ [mkEntry root tx_hash intent_count now]).

End Collector.

(* ================================================================== *)
(** * agent/src/executor.py : the batch submitter *)
(* ================================================================== *)

Module Executor.

(** The tuples handed to the contract call. *)
Record PoolTuple : Type := mkPoolTuple {
  p_currency0 : string;
  p_currency1 : string;
  p_fee : Z;
  p_tick_spacing : Z;
  p_hooks : string
}.

Record IntentTuple : Type := mkIntentTuple {
  i_user : string;
  i_pool : PoolTuple;
  i_tick_lower : Z;
  i_tick_upper : Z;
  i_amount : Z;
  i_nonce : Z;
  i_deadline : Z
}.

(** The dictionary given to [build_transaction]. *)
Record TxParams : Type := mkTxParams {
  tx_from : string;
  tx_nonce : Z;
  tx_gas : Z;
  tx_gasPrice : Z
}.

Section WithHash.

Variable keccak : bytes -> bytes.

(** [BatchSubmitter.get_batch_root] *)
Definition get_batch_root (intents : list LPIntent) : result string :=
  leaves <- PyText.comprehension (Merkle.compute_leaf keccak) intents ;;
  tree <- Merkle.__init__ keccak leaves ;;
  rt <- Merkle.root tree ;;
  Ok ("0x" ++ PyText.hex rt)%string.

Section WithWeb3.

(** web3: [Web3.to_checksum_address], the contract function
    [executeBatch] with its [build_transaction], the address of the agent
    account and the two reads of the chain. *)
Variable to_checksum_address : address -> result string.
Variable ContractFunction : Type.
Variable Transaction : Type.
Variable executeBatch :
  list IntentTuple -> list bytes -> list (list bytes) ->
  result ContractFunction.
Variable build_transaction :
  ContractFunction -> TxParams -> result Transaction.
Variable account_address : string.
Variable get_transaction_count : string -> result Z.
Variable gas_price : result Z.

(** One turn of the loop of [build_batch_tx] that converts the intents. *)
Definition intent_tuple (intent : LPIntent) : result IntentTuple :=
  c0 <- to_checksum_address (currency0 (pool intent)) ;;
  c1 <- to_checksum_address (currency1 (pool intent)) ;;
  hk <- to_checksum_address (hooks (pool intent)) ;;
  let pool_tuple :=
    mkPoolTuple c0 c1 (fee (pool intent)) (tick_spacing (pool intent)) hk in
  u <- to_checksum_address (user intent) ;;
  Ok (mkIntentTuple u pool_tuple (tick_lower intent) (tick_upper intent)
                    (amount intent) (nonce intent) (deadline intent)).

(** [BatchSubmitter.build_batch_tx] *)
Definition build_batch_tx (intents : list LPIntent) (signatures : list bytes)
  : result Transaction :=
  leaves <- PyText.comprehension (Merkle.compute_leaf keccak) intents ;;
  tree <- Merkle.__init__ keccak leaves ;;
  proofs <-
    PyText.comprehension (Merkle.get_proof tree)
      (PyText.range (length intents)) ;;
  intent_tuples <- PyText.comprehension intent_tuple intents ;;
  call <- executeBatch intent_tuples signatures proofs ;;
  nonce <- get_transaction_count account_address ;;
  price <- gas_price ;;
  build_transaction call (mkTxParams account_address nonce 3000000 price).

End WithWeb3.
End WithHash.
End Executor.

(* ================================================================== *)
(** * agent/src/optimizer.py : the price of a tick, in exact arithmetic *)
(* ================================================================== *)

(** [tick_to_price] read in exact arithmetic: a float is a real number and
    [x ** n] is the power.  On Python floats [1.0001**tick] rounds, and
    raises OverflowError from a tick of some 7.1 million on; nothing below
    is stated of the value of [tick_to_price]. *)
Module OptimizerExact.

(** [sum(l)] *)
Definition sum (l : list R) : R := fold_left Rplus l 0%R.

(** [tick_to_price]: [1.0001**tick] *)
Definition tick_to_price (tick : Z) : R := powerRZ 1.0001 tick.

End OptimizerExact.

(* ================================================================== *)
(** * agent/src/adaptive.py : the adaptive multiplier, in exact arithmetic *)
(* ================================================================== *)

(** The parameters and their update, read in exact arithmetic.  The
    results [process_batch] records carry no prices; on them
    [calculate_il_score] returns [0.0] at its first test, in Python as
    here, and [update_k] computes [k_multiplier + learning_rate * (0.0 -
    0.3)] clamped to [[min_k, max_k]], which Python rounds.  On a result
    with prices Python can differ from this reading: [tick_to_price] can
    raise OverflowError and the score can be a NaN.  The statements below
    are on histories of results without prices. *)
Module Adaptive.

(** [BatchResult] *)
Record BatchResult : Type := mkResult {
  batch_root : string;
  intent_count : Z;
  gas_used : Z;
  tick_lower : Z;
  tick_upper : Z;
  price_at_entry : R;
  price_at_check : R
}.

(** [AdaptiveParams] *)
Record AdaptiveParams : Type := mkParams {
  k_multiplier : R;
  min_k : R;
  max_k : R;
  learning_rate : R;
  history : list BatchResult
}.

(** [AdaptiveParams(k_multiplier=k)]: the other fields at their defaults. *)
Definition default_params (k : R) : AdaptiveParams :=
  mkParams k 1 5 0.1 [].

(** [BatchResult(...)] as [process_batch] builds it: both prices at their
    default 0.0. *)
Definition unpriced_result (root : string) (count gas lower upper : Z)
  : BatchResult :=
  mkResult root count gas lower upper 0 0.

(** [max(a, b)] and [min(a, b)] on floats. *)
Definition py_max (a b : R) : R := if Rlt_dec a b then b else a.
Definition py_min (a b : R) : R := if Rlt_dec b a then b else a.

(** [AdaptiveParams.record_batch] *)
Definition record_batch (self : AdaptiveParams) (result : BatchResult)
  : AdaptiveParams :=
  mkParams (k_multiplier self) (min_k self) (max_k self)
           (learning_rate self) (history self ++ [result]).

(** [AdaptiveParams.calculate_il_score] *)
Definition calculate_il_score (result : BatchResult) : R :=
  if Rle_dec (price_at_entry result) 0 then 0%R
  else if Rle_dec (price_at_check result) 0 then 0%R
  else
    let price_ratio := (price_at_check result / price_at_entry result)%R in
    let lower_price := OptimizerExact.tick_to_price (tick_lower result) in
    let upper_price := OptimizerExact.tick_to_price (tick_upper result) in
    let current_price := price_at_check result in
    if Rlt_dec current_price lower_price then 1%R
    else if Rlt_dec upper_price current_price then 1%R
    else
      let il :=
        (2 * Rpower price_ratio 0.5 / (1 + price_ratio) - 1)%R in
      Rabs il.

(** The average of the scores of the last ten results, as [update_k]
    computes it. *)
Definition recent_avg_il (self : AdaptiveParams) : R :=
  let recent := PyText.last10 (history self) in
  let il_scores := map calculate_il_score recent in
  match il_scores with
  | [] => 0%R
  | _ :: _ => (OptimizerExact.sum il_scores / INR (length il_scores))%R
  end.

(** [AdaptiveParams.update_k] *)
Definition update_k (self : AdaptiveParams) : AdaptiveParams :=
  if (length (history self) <? 2)%nat then self
  else
    let avg_il := recent_avg_il self in
    let target_il := 0.3%R in
    let error := (avg_il - target_il)%R in
    let adjustment := (learning_rate self * error)%R in
    mkParams
      (py_max (min_k self)
              (py_min (max_k self) (k_multiplier self + adjustment)))
      (min_k self) (max_k self) (learning_rate self) (history self).

End Adaptive.

(* ================================================================== *)
(** * agent/src/config.py and the configuration route of the API *)
(* ================================================================== *)

Module Config.

(** [Config]; the float [k_multiplier] is read in exact arithmetic. *)
Record Config : Type := mkConfig {
  rpc_url : string;
  hook_address : string;
  executor_address : string;
  commit_address : string;
  pool_manager_address : string;
  position_manager_address : string;
  token_a_address : string;
  token_b_address : string;
  agent_private_key : string;
  min_batch_size : Z;
  max_batch_wait_seconds : Z;
  batch_check_interval : Z;
  volatility_window : Z;
  k_multiplier : R;
  api_host : string;
  api_port : Z;
  chain_id : Z
}.

End Config.

Module App.

(** The [pool_key] entry of the dictionary of [get_config]. *)
Record PoolKeyView : Type := mkPoolKeyView {
  v_currency0 : string;
  v_currency1 : string;
  v_fee : Z;
  v_tickSpacing : Z;
  v_hooks : string
}.

(** The dictionary [get_config] returns when a configuration is there. *)
Record ConfigView : Type := mkConfigView {
  v_chain_id : Z;
  v_hook_address : string;
  v_executor_address : string;
  v_commit_address : string;
  v_pool_manager : string;
  v_position_manager : string;
  v_token_a : string;
  v_token_b : string;
  v_pool_key : PoolKeyView
}.

(** The truth value of a string: it is not empty. *)
Definition truthy (s : string) : bool :=
  match s with
  | EmptyString => false
  | String _ _ => true
  end.

(** [get_config] of [create_app]; [None] stands for the dictionary
    [{"error": "Config not available"}]. *)
Definition get_config (config : option Config.Config) : option ConfigView :=
  match config with
  | None => None
  | Some cfg =>
      let a := Config.token_a_address cfg in
      let b := Config.token_b_address cfg in
      Some
        (mkConfigView (Config.chain_id cfg) (Config.hook_address cfg)
           (Config.executor_address cfg) (Config.commit_address cfg)
           (Config.pool_manager_address cfg)
           (Config.position_manager_address cfg) a b
           (mkPoolKeyView
              (if truthy a && truthy b then PyText.str_min a b
               else EmptyString)
              (if truthy a && truthy b then PyText.str_max a b
               else EmptyString)
              3000 60 (Config.hook_address cfg)))
  end.

End App.

(* ================================================================== *)
(** * agent/src/main.py : one round of the batch loop *)
(* ================================================================== *)

(** [PrivBatchAgent.process_batch] on the two objects it changes, the
    collector and the adaptive parameters.  The submitter and the receipt
    lookup talk to the chain: they are variables, and since [process_batch]
    catches every exception they return [None] when they raise.  The call
    [self.adaptive.update_k()] is inside the same [try]: here it never
    raises, which is so in Python when the history holds only results
    without prices, the ones [process_batch] records.  The call is taken
    alone: no other thread touches the collector while it runs. *)
Module Agent.

Record PrivBatchAgent : Type := mkAgent {
  config : Config.Config;
  collector : Collector.IntentCollector;
  adaptive : Adaptive.AdaptiveParams
}.

Section WithChain.

Variable keccak : bytes -> bytes.

(** [self.submitter.submit_batch(intents, signatures)] and
    [self.w3.eth.get_transaction_receipt(tx_hash)["gasUsed"]] *)
Variable submit_batch : list LPIntent -> list bytes -> option string.
Variable receipt_gas_used : string -> option Z.

(** The agent after the intents taken from the queue were put back. *)
Definition put_back (self : PrivBatchAgent) (c : Collector.IntentCollector)
           (a : Adaptive.AdaptiveParams) (pending : list (LPIntent * bytes))
  : PrivBatchAgent :=
  mkAgent (config self) (Collector.extend_pending c pending) a.

(** [PrivBatchAgent.process_batch]; [now] is the clock [record_batch]
    reads. *)
Definition process_batch (now : Z) (self : PrivBatchAgent)
  : PrivBatchAgent * option string :=
  let (c1, pending) := Collector.drain_pending (collector self) in
  if Z.of_nat (length pending) <? Config.min_batch_size (config self) then
    (put_back self c1 (adaptive self) pending, None)
  else
    let intents := map fst pending in
    let signatures := map snd pending in
    match submit_batch intents signatures with
    | None => (put_back self c1 (adaptive self) pending, None)
    | Some tx_hash =>
        match Executor.get_batch_root keccak intents with
        | Err _ => (put_back self c1 (adaptive self) pending, None)
        | Ok batch_root =>
            let c2 :=
              Collector.record_batch now c1 batch_root tx_hash
                (Z.of_nat (length intents)) in
            match receipt_gas_used tx_hash with
            | None => (put_back self c2 (adaptive self) pending, None)
            | Some gas =>
                match index intents 0 with
                | Err _ => (put_back self c2 (adaptive self) pending, None)
                | Ok first =>
                    let result :=
                      Adaptive.unpriced_result batch_root
                        (Z.of_nat (length intents)) gas
                        (Types.tick_lower first) (Types.tick_upper first) in
                    let a1 := Adaptive.record_batch (adaptive self) result in
                    let a2 := Adaptive.update_k a1 in
                    (mkAgent (config self) c2 a2, Some tx_hash)
                end
            end
        end
    end.

End WithChain.
End Agent.

(* ================================================================== *)
(** * The states of the collector *)
(* ================================================================== *)

Module CollectorSpec.

(** What the duplicate check of [submit_intent] compares: the user and the
    nonce of a pending entry. *)
Definition key (entry : LPIntent * bytes) : address * Z :=
  (Types.user (fst entry), Types.nonce (fst entry)).

(** No two pending entries have the same user and nonce. *)
Definition distinct_keys (pending : list (LPIntent * bytes)) : Prop :=
  NoDup (map key pending).

(** The last entry of the history, if any. *)
Definition last_entry (history : list Collector.HistoryEntry)
  : option Collector.HistoryEntry :=
  last (map Some history) None.

Section WithAccount.

Variable SignableMessage : Type.
Variable encode_typed_data : Signer.FullMessage -> result SignableMessage.
Variable recover_vrs : SignableMessage -> Z * Z * Z -> result address.

(** The collectors that calls of the methods make from a new one;
    [extend_pending] is the [extend] of [process_batch]. *)
Inductive reachable : Collector.IntentCollector -> Prop :=
| reach_init : forall chain_id verifying_contract,
    reachable (Collector.__init__ chain_id verifying_contract)
| reach_submit : forall now c request,
    reachable c ->
    reachable
      (fst (Collector.submit_intent encode_typed_data recover_vrs now c
              request))
| reach_drain : forall c,
    reachable c -> reachable (fst (Collector.drain_pending c))
| reach_extend : forall c pending,
    reachable c -> reachable (Collector.extend_pending c pending)
| reach_record : forall now c root tx_hash intent_count,
    reachable c ->
    reachable (Collector.record_batch now c root tx_hash intent_count).

End WithAccount.

End CollectorSpec.

(** A request that the stand-in account signed, and a new collector. *)
Module Fixture.

Definition signature0 : bytes :=
  be_digits 32 1 ++ be_digits 32 2 ++ be_digits 1 27.

Definition request0 : Requests.LPIntentRequest :=
  Requests.mkRequest (Sample.addr x01) (Sample.addr x11) (Sample.addr x22)
    3000 60 (Sample.addr x00) (-887220) 887220 100000000000000000000 0
    99999999999 ("0x" ++ PyText.hex signature0).

Definition collector0 : Collector.IntentCollector :=
  Collector.__init__ 1 (Sample.addr x12).

Definition submit0 :=
  Collector.submit_intent StandIn.encode_typed_data StandIn.recover_vrs.

(** An agent that batches from one intent on, with an empty queue and with
    one pending intent, and a chain that accepts every batch. *)
Definition config0 : Config.Config :=
  Config.mkConfig "http://127.0.0.1:8545" "" "" "" "" "" "" "" "" 1 30 5 24 2
    "0.0.0.0" 8000 1.

Definition agent0 : Agent.PrivBatchAgent :=
  Agent.mkAgent config0 collector0 (Adaptive.default_params 2).

Definition agent1 : Agent.PrivBatchAgent :=
  Agent.mkAgent config0
    (Collector.with_pending collector0 [(Sample.intent0, signature0)])
    (Adaptive.default_params 2).

Definition submit_ok (intents : list LPIntent) (signatures : list bytes)
  : option string := Some "0xtx"%string.

Definition receipt_ok (tx_hash : string) : option Z := Some 21000.

(** The request of the same user with the next nonce. *)
Definition request1 : Requests.LPIntentRequest :=
  Requests.mkRequest (Sample.addr x01) (Sample.addr x11) (Sample.addr x22)
    3000 60 (Sample.addr x00) (-887220) 887220 100000000000000000000 1
    99999999999 ("0x" ++ PyText.hex signature0).

(** An agent with one pending intent that has recorded one batch, and a
    chain whose receipt lookup fails. *)
Definition agent2 : Agent.PrivBatchAgent :=
  Agent.mkAgent config0
    (Collector.with_pending collector0 [(Sample.intent0, signature0)])
    (Adaptive.mkParams 2 1 5 0.1
       [Adaptive.unpriced_result "0xaa" 1 21000 (-887220) 887220]).

Definition receipt_fails (tx_hash : string) : option Z := None.

End Fixture.

(* ================================================================== *)
(** * Lemmas on the Python primitives *)
(* ================================================================== *)

Lemma index_nat : forall (A : Type) (l : list A) (i : nat) (x : A),
  nth_error l i = Some x -> index l (Z.of_nat i) = Ok x.
Proof.
  intros A l i x H. unfold index.
  assert (Hlt : (i < length l)%nat) by (apply nth_error_Some; congruence).
  replace (Z.of_nat i <? 0) with false by (symmetry; apply Z.ltb_ge; lia).
  replace (0 <=? Z.of_nat i) with true by (symmetry; apply Z.leb_le; lia).
  replace (Z.of_nat i <? Z.of_nat (length l)) with true
    by (symmetry; apply Z.ltb_lt; lia).
  simpl. rewrite Nat2Z.id, H. reflexivity.
Qed.

Lemma index_nonneg_inv : forall (A : Type) (l : list A) (i : Z) (x : A),
  0 <= i -> index l i = Ok x -> nth_error l (Z.to_nat i) = Some x.
Proof.
  intros A l i x Hi. unfold index.
  replace (i <? 0) with false by (symmetry; apply Z.ltb_ge; lia).
  destruct ((0 <=? i) && (i <? Z.of_nat (length l)))%bool; [|discriminate].
  destruct (nth_error l (Z.to_nat i)); congruence.
Qed.

Lemma index_last : forall (A : Type) (l : list A) (d : A),
  l <> [] -> index l (-1) = Ok (last l d).
Proof.
  intros A l d Hne. unfold index.
  assert (Hlen : (0 < length l)%nat) by (destruct l; simpl; [congruence | lia]).
  replace (-1 <? 0) with true by reflexivity.
  replace (0 <=? Z.of_nat (length l) + -1) with true
    by (symmetry; apply Z.leb_le; lia).
  replace (Z.of_nat (length l) + -1 <? Z.of_nat (length l)) with true
    by (symmetry; apply Z.ltb_lt; lia).
  simpl.
  replace (Z.to_nat (Z.of_nat (length l) + -1)) with (length l - 1)%nat by lia.
  destruct (exists_last Hne) as [l' [a ->]].
  rewrite last_last, length_app. simpl.
  replace (length l' + 1 - 1)%nat with (length l' + 0)%nat by lia.
  rewrite nth_error_app2 by lia.
  replace (length l' + 0 - length l')%nat with 0%nat by lia.
  reflexivity.
Qed.

Lemma byte_to_N_inj : forall x y : byte, Byte.to_N x = Byte.to_N y -> x = y.
Proof.
  intros x y H.
  assert (E : Byte.of_N (Byte.to_N x) = Byte.of_N (Byte.to_N y)) by (rewrite H; reflexivity).
  rewrite !Byte.of_to_N in E. congruence.
Qed.

Lemma bytes_leb_total : forall a b,
  bytes_leb a b = false -> bytes_leb b a = true.
Proof.
  induction a as [|x a IH]; intros [|y b]; simpl; try congruence.
  destruct (Byte.to_N x <? Byte.to_N y)%N eqn:Hxy; [congruence|].
  destruct (Byte.to_N y <? Byte.to_N x)%N eqn:Hyx; [reflexivity|].
  apply IH.
Qed.

Lemma bytes_leb_antisym : forall a b,
  bytes_leb a b = true -> bytes_leb b a = true -> a = b.
Proof.
  induction a as [|x a IH]; intros [|y b]; simpl; try congruence.
  destruct (Byte.to_N x <? Byte.to_N y)%N eqn:Hxy;
    destruct (Byte.to_N y <? Byte.to_N x)%N eqn:Hyx; try congruence.
  - apply N.ltb_lt in Hxy. apply N.ltb_lt in Hyx. lia.
  - intros H1 H2. apply N.ltb_ge in Hxy. apply N.ltb_ge in Hyx.
    f_equal; [apply byte_to_N_inj; lia | apply IH; assumption].
Qed.

Lemma bytes_eqb_refl : forall a, bytes_eqb a a = true.
Proof.
  induction a as [|x a IH]; simpl; [reflexivity|].
  rewrite IH, andb_true_r. apply Byte.byte_dec_lb. reflexivity.
Qed.

(* ================================================================== *)
(** * The Merkle tree: construction *)
(* ================================================================== *)

Section MerkleFacts.

Variable keccak : bytes -> bytes.

Local Abbreviation hash_pair := (Merkle._hash_pair keccak).
Local Abbreviation pair_up := (MerkleSpec.pair_up keccak).
Local Abbreviation chain := (MerkleSpec.chain keccak).
Local Abbreviation next_layer := (Merkle.next_layer keccak).
Local Abbreviation build_step := (Merkle.build_step keccak).
Local Abbreviation build_loop := (Merkle.build_loop keccak).

Lemma hash_pair_comm : forall a b, hash_pair a b = hash_pair b a.
Proof.
  intros a b. unfold Merkle._hash_pair.
  destruct (bytes_leb a b) eqn:Hab; destruct (bytes_leb b a) eqn:Hba.
  - rewrite (bytes_leb_antisym _ _ Hab Hba). reflexivity.
  - reflexivity.
  - reflexivity.
  - apply bytes_leb_total in Hab. congruence.
Qed.

(** Induction on a list two elements at a time. *)
Lemma list_pair_ind : forall (A : Type) (P : list A -> Prop),
  P [] -> (forall a, P [a]) ->
  (forall a b l, P l -> P (a :: b :: l)) ->
  forall l, P l.
Proof.
  intros A P H0 H1 H2.
  assert (H : forall l, P l /\ forall a, P (a :: l)).
  { induction l as [|x l [IHa IHb]]; split; auto. }
  intro l. apply H.
Qed.

Lemma pair_up_length : forall l,
  length (pair_up l) = ((length l + 1) / 2)%nat.
Proof.
  induction l as [| a | a b l IH] using list_pair_ind; try reflexivity.
  cbn [MerkleSpec.pair_up length]. rewrite IH.
  replace (S (S (length l)) + 1)%nat with (length l + 1 + 1 * 2)%nat by lia.
  rewrite Nat.div_add by lia. lia.
Qed.

Lemma pair_up_nonempty : forall l, l <> [] -> pair_up l <> [].
Proof. intros [|a [|b l]] H; simpl; congruence. Qed.

(** Node [m] of the next layer, when both children exist. *)
Lemma pair_up_nth_pair : forall m l,
  (2 * m + 1 < length l)%nat ->
  exists a b,
    nth_error l (2 * m) = Some a /\
    nth_error l (2 * m + 1) = Some b /\
    nth_error (pair_up l) m = Some (hash_pair a b).
Proof.
  induction m as [|m IH]; intros [|a [|b l]] H; simpl in H; try lia.
  - exists a, b. repeat split.
  - destruct (IH l) as [a' [b' [Ha [Hb Hp]]]]; [lia|].
    exists a', b'.
    replace (2 * S m)%nat with (S (S (2 * m))) by lia.
    replace (S (S (2 * m)) + 1)%nat with (S (S (2 * m + 1))) by lia.
    simpl nth_error. auto.
Qed.

(** Node [m] of the next layer, when only the left child exists. *)
Lemma pair_up_nth_carry : forall m l,
  (2 * m + 1 = length l)%nat ->
  exists a,
    nth_error l (2 * m) = Some a /\
    nth_error (pair_up l) m = Some a.
Proof.
  induction m as [|m IH]; intros [|a [|b l]] H; simpl in H; try lia.
  - exists a. split; reflexivity.
  - destruct (IH l) as [a' [Ha Hp]]; [lia|].
    exists a'.
    replace (2 * S m)%nat with (S (S (2 * m))) by lia.
    simpl nth_error. auto.
Qed.

Lemma firstn_snoc : forall (A : Type) (l : list A) (n : nat) (x : A),
  nth_error l n = Some x -> firstn (S n) l = firstn n l ++ [x].
Proof.
  intros A l. induction l as [|y l IH]; intros [|n] x H; simpl in *;
    try congruence.
  f_equal. apply IH. exact H.
Qed.

(** The prefix of the inner loop of [_build] after [m] iterations. *)
Lemma next_layer_prefix : forall layer m,
  (m <= (length layer + 1) / 2)%nat ->
  fold_left (build_step layer)
    (map (fun k => 2 * Z.of_nat k) (seq 0 m)) (Ok [])
  = Ok (firstn m (pair_up layer)).
Proof.
  intros layer. induction m as [|m IH]; intro Hm; [reflexivity|].
  rewrite seq_S, map_app, fold_left_app, IH by lia.
  cbn [map fold_left Nat.add]. unfold Merkle.build_step. cbn [bind].
  assert (Hdiv : (2 * m < length layer)%nat).
  { pose proof (Nat.div_mod_eq (length layer + 1) 2) as E.
    pose proof (Nat.mod_upper_bound (length layer + 1) 2). lia. }
  destruct (Nat.lt_ge_cases (2 * m + 1) (length layer)) as [Hlt | Hge].
  - destruct (pair_up_nth_pair m layer Hlt) as [a [b [Ha [Hb Hp]]]].
    replace (2 * Z.of_nat m + 1 <? Z.of_nat (length layer)) with true
      by (symmetry; apply Z.ltb_lt; lia).
    replace (2 * Z.of_nat m) with (Z.of_nat (2 * m)) by lia.
    rewrite (index_nat _ _ Ha). cbn [bind].
    replace (Z.of_nat (2 * m) + 1) with (Z.of_nat (2 * m + 1)) by lia.
    rewrite (index_nat _ _ Hb). cbn [bind].
    rewrite (firstn_snoc _ _ Hp). reflexivity.
  - destruct (pair_up_nth_carry m layer) as [a [Ha Hp]]; [lia|].
    replace (2 * Z.of_nat m + 1 <? Z.of_nat (length layer)) with false
      by (symmetry; apply Z.ltb_ge; lia).
    replace (2 * Z.of_nat m) with (Z.of_nat (2 * m)) by lia.
    rewrite (index_nat _ _ Ha). cbn [bind].
    rewrite (firstn_snoc _ _ Hp). reflexivity.
Qed.

(** The inner loop of [_build] raises nothing and computes [pair_up]. *)
Lemma next_layer_pair_up : forall layer,
  next_layer layer = Ok (pair_up layer).
Proof.
  intro layer. unfold Merkle.next_layer, range_by2.
  replace (Z.to_nat ((Z.of_nat (length layer) + 1) / 2))
    with ((length layer + 1) / 2)%nat.
  - rewrite next_layer_prefix by lia.
    rewrite firstn_all2; [reflexivity|].
    rewrite pair_up_length. lia.
  - replace (Z.of_nat (length layer) + 1) with (Z.of_nat (length layer + 1))
      by lia.
    change 2 with (Z.of_nat 2).
    rewrite <- Nat2Z.inj_div, Nat2Z.id. reflexivity.
Qed.

Lemma half_le : forall n, (1 < n)%nat -> ((n + 1) / 2 <= n - 1)%nat.
Proof.
  intros n Hn.
  pose proof (Nat.div_mod_eq (n + 1) 2) as E.
  pose proof (Nat.mod_upper_bound (n + 1) 2). lia.
Qed.

(** The outer loop of [_build] never runs out of fuel when it starts with as
    much fuel as the layer is long. *)
Lemma build_loop_chain : forall fuel layer acc,
  (length layer <= fuel)%nat ->
  build_loop fuel layer acc = Ok (acc ++ chain fuel layer).
Proof.
  induction fuel as [|fuel IH]; intros layer acc Hlen.
  - simpl. destruct (1 <? length layer)%nat eqn:E.
    + apply Nat.ltb_lt in E. lia.
    + rewrite app_nil_r. reflexivity.
  - cbn [Merkle.build_loop MerkleSpec.chain].
    destruct (1 <? length layer)%nat eqn:E.
    + apply Nat.ltb_lt in E.
      rewrite next_layer_pair_up. cbn [bind].
      rewrite IH.
      * rewrite <- app_assoc. reflexivity.
      * rewrite pair_up_length. pose proof (half_le E). lia.
    + rewrite app_nil_r. reflexivity.
Qed.

Lemma init_layers : forall lvs,
  lvs <> [] ->
  Merkle.__init__ keccak lvs
  = Ok (Merkle.mkTree lvs (lvs :: chain (length lvs) lvs)).
Proof.
  intros [|a l] H; [congruence|].
  unfold Merkle.__init__, Merkle._build.
  rewrite build_loop_chain by lia. reflexivity.
Qed.

(** Two neighbouring layers: the lower one has more than one node and the
    upper one is its [pair_up]. *)
Lemma chain_adjacent : forall fuel l0 k cur nxt,
  nth_error (l0 :: chain fuel l0) k = Some cur ->
  nth_error (l0 :: chain fuel l0) (S k) = Some nxt ->
  (1 < length cur)%nat /\ nxt = pair_up cur.
Proof.
  induction fuel as [|fuel IH]; intros l0 k cur nxt Hc Hn.
  - simpl in Hn. destruct k; discriminate.
  - cbn [MerkleSpec.chain] in *.
    destruct (1 <? length l0)%nat eqn:E.
    + destruct k as [|k].
      * simpl in Hc, Hn. apply Nat.ltb_lt in E.
        inversion Hc; inversion Hn; subst. auto.
      * apply (IH (pair_up l0) k); assumption.
    + simpl in Hn. destruct k; discriminate.
Qed.

(** The top layer has exactly one node. *)
Lemma chain_top : forall fuel l0,
  (length l0 <= fuel)%nat -> l0 <> [] ->
  length (last (l0 :: chain fuel l0) []) = 1%nat.
Proof.
  induction fuel as [|fuel IH]; intros l0 Hlen Hne.
  - destruct l0; simpl in *; [congruence | lia].
  - cbn [MerkleSpec.chain].
    destruct (1 <? length l0)%nat eqn:E.
    + apply Nat.ltb_lt in E.
      change (last (l0 :: pair_up l0 :: chain fuel (pair_up l0)) [])
        with (last (pair_up l0 :: chain fuel (pair_up l0)) []).
      apply IH.
      * rewrite pair_up_length. pose proof (half_le E). lia.
      * apply pair_up_nonempty. exact Hne.
    + apply Nat.ltb_ge in E. simpl.
      destruct l0; simpl in *; [congruence | lia].
Qed.

End MerkleFacts.

(* ================================================================== *)
(** * The Merkle tree: proofs of inclusion *)
(* ================================================================== *)

Section MerkleProofs.

Variable keccak : bytes -> bytes.

Local Abbreviation hash_pair := (Merkle._hash_pair keccak).
Local Abbreviation pair_up := (MerkleSpec.pair_up keccak).
Local Abbreviation chain := (MerkleSpec.chain keccak).

Lemma even_or_odd : forall n : nat,
  (exists m, n = 2 * m)%nat \/ (exists m, n = 2 * m + 1)%nat.
Proof.
  intro n. pose proof (Nat.div_mod_eq n 2) as E.
  pose proof (Nat.mod_upper_bound n 2) as B.
  destruct (n mod 2)%nat as [|[|r]] eqn:R.
  - left. exists (n / 2)%nat. lia.
  - right. exists (n / 2)%nat. lia.
  - lia.
Qed.

(** One iteration of the loop of [get_proof] at a layer with more than one
    node: the sibling appended (if any) hashes with the current node to the
    node above it. *)
Lemma proof_step_up : forall layer idx x acc,
  nth_error layer idx = Some x ->
  exists sib y,
    Merkle.proof_step (Ok (acc, Z.of_nat idx)) layer
      = Ok (acc ++ sib, Z.of_nat (idx / 2)) /\
    nth_error (pair_up layer) (idx / 2) = Some y /\
    fold_left hash_pair sib x = y.
Proof.
  intros layer idx x acc Hx.
  assert (Hlt : (idx < length layer)%nat) by (apply nth_error_Some; congruence).
  unfold Merkle.proof_step. cbn [bind].
  replace (Z.of_nat idx / 2) with (Z.of_nat (idx / 2))
    by (rewrite Nat2Z.inj_div; reflexivity).
  destruct (even_or_odd idx) as [[m ->] | [m ->]].
  - (* even position *)
    replace (Z.of_nat (2 * m) mod 2 =? 0) with true
      by (symmetry; apply Z.eqb_eq; rewrite Nat2Z.inj_mul, Z.mul_comm;
          apply Z.mod_mul; lia).
    replace (2 * m / 2)%nat with m
      by (rewrite Nat.mul_comm, Nat.div_mul; lia).
    destruct (Nat.lt_ge_cases (2 * m + 1) (length layer)) as [Hs | Hs].
    + destruct (pair_up_nth_pair keccak m layer Hs) as [a [b [Ha [Hb Hp]]]].
      replace (Z.of_nat (2 * m) + 1 <? Z.of_nat (length layer)) with true
        by (symmetry; apply Z.ltb_lt; lia).
      replace (Z.of_nat (2 * m) + 1) with (Z.of_nat (2 * m + 1)) by lia.
      rewrite (index_nat _ _ Hb). cbn [bind].
      exists [b], (hash_pair a b). repeat split; [exact Hp|].
      simpl. congruence.
    + destruct (pair_up_nth_carry keccak m layer) as [a [Ha Hp]]; [lia|].
      replace (Z.of_nat (2 * m) + 1 <? Z.of_nat (length layer)) with false
        by (symmetry; apply Z.ltb_ge; lia).
      cbn [bind]. exists [], a. rewrite app_nil_r. repeat split; [exact Hp|].
      simpl. congruence.
  - (* odd position *)
    replace (Z.of_nat (2 * m + 1) mod 2 =? 0) with false
      by (symmetry; apply Z.eqb_neq;
          rewrite Nat2Z.inj_add, Nat2Z.inj_mul, Z.add_comm, Z.mul_comm,
            Z.mod_add; [discriminate | lia]).
    replace ((2 * m + 1) / 2)%nat with m
      by (rewrite Nat.add_comm, Nat.mul_comm, Nat.div_add; simpl; lia).
    destruct (pair_up_nth_pair keccak m layer Hlt) as [a [b [Ha [Hb Hp]]]].
    replace (Z.of_nat (2 * m + 1) - 1) with (Z.of_nat (2 * m)) by lia.
    rewrite (index_nat _ _ Ha). cbn [bind].
    exists [a], (hash_pair a b). repeat split; [exact Hp|].
    simpl. rewrite hash_pair_comm. congruence.
Qed.

(** The whole loop of [get_proof]: started at node [idx] of the bottom
    layer, it raises nothing, and folding the node through the siblings it
    collects gives the single node of the top layer. *)
Lemma proof_loop_root : forall fuel l0 idx x acc,
  (length l0 <= fuel)%nat ->
  nth_error l0 idx = Some x ->
  exists p idx',
    fold_left Merkle.proof_step
      (all_but_last (l0 :: chain fuel l0)) (Ok (acc, Z.of_nat idx))
      = Ok (acc ++ p, idx') /\
    nth_error (last (l0 :: chain fuel l0) []) 0
      = Some (fold_left hash_pair p x).
Proof.
  unfold all_but_last.
  induction fuel as [|fuel IH]; intros l0 idx x acc Hlen Hx.
  - assert (idx < length l0)%nat by (apply nth_error_Some; congruence). lia.
  - cbn [MerkleSpec.chain].
    destruct (1 <? length l0)%nat eqn:E.
    + apply Nat.ltb_lt in E.
      change (removelast (l0 :: pair_up l0 :: chain fuel (pair_up l0)))
        with (l0 :: removelast (pair_up l0 :: chain fuel (pair_up l0))).
      change (last (l0 :: pair_up l0 :: chain fuel (pair_up l0)) [])
        with (last (pair_up l0 :: chain fuel (pair_up l0)) []).
      cbn [fold_left].
      destruct (proof_step_up l0 idx acc Hx) as [sib [y [Hstep [Hy Hfold]]]].
      rewrite Hstep.
      destruct (IH (pair_up l0) (idx / 2)%nat y (acc ++ sib)) as [p [i' [Hp Hr]]].
      * rewrite pair_up_length. pose proof (half_le E). lia.
      * exact Hy.
      * exists (sib ++ p), i'. split.
        -- rewrite Hp, app_assoc. reflexivity.
        -- rewrite fold_left_app, Hfold. exact Hr.
    + apply Nat.ltb_ge in E.
      assert (Hi : (idx < length l0)%nat) by (apply nth_error_Some; congruence).
      assert (idx = 0)%nat by lia. subst idx.
      exists [], 0. simpl. rewrite app_nil_r. auto.
Qed.

(** The tree of a non-empty list builds, and the proof of a valid index
    folds its leaf to the root. *)
Lemma built_proof_folds : forall (lvs : list bytes) (i : Z),
  lvs <> [] ->
  0 <= i < Z.of_nat (length lvs) ->
  exists t leaf proof rt,
    Merkle.__init__ keccak lvs = Ok t /\
    index lvs i = Ok leaf /\
    Merkle.get_proof t i = Ok proof /\
    Merkle.root t = Ok rt /\
    fold_left hash_pair proof leaf = rt /\
    Merkle.verify keccak leaf proof rt = true.
Proof.
  intros lvs i Hne Hi.
  destruct (nth_error lvs (Z.to_nat i)) as [leaf|] eqn:Hleaf;
    [| apply nth_error_None in Hleaf; lia].
  destruct (@proof_loop_root (length lvs) lvs (Z.to_nat i) leaf []
              (le_n _) Hleaf) as [p [i' [Hloop Hroot]]].
  rewrite Z2Nat.id in Hloop by lia. cbn [app] in Hloop.
  exists (Merkle.mkTree lvs (lvs :: chain (length lvs) lvs)), leaf, p,
    (fold_left hash_pair p leaf).
  split; [apply init_layers; exact Hne|].
  split; [rewrite <- (Z2Nat.id i) by lia; apply index_nat; exact Hleaf|].
  split.
  { unfold Merkle.get_proof. cbn [Merkle.leaves Merkle.layers].
    replace (i <? 0) with false by (symmetry; apply Z.ltb_ge; lia).
    replace (i >=? Z.of_nat (length lvs)) with false
      by (symmetry; rewrite Z.geb_leb; apply Z.leb_gt; lia).
    cbn [orb]. rewrite Hloop. reflexivity. }
  split.
  { unfold Merkle.root. cbn [Merkle.layers].
    rewrite (index_last (l := lvs :: chain (length lvs) lvs) []) by discriminate.
    cbn [bind]. apply (index_nat _ 0%nat). exact Hroot. }
  split; [reflexivity|].
  unfold Merkle.verify. apply bytes_eqb_refl.
Qed.

(** ** C1 *)

(** C1. For every non-empty list of leaves and every index [i] in
    [0, leafCount): the tree builds, [get_proof i] returns a proof, and
    folding [leaves[i]] through that proof with [_hash_pair] gives the root,
    so [verify (leaves[i], get_proof(i), root)] is true. *)
Theorem merkle_proof_verifies : forall (lvs : list bytes) (i : Z),
  lvs <> [] ->
  0 <= i < Z.of_nat (length lvs) ->
  exists t leaf proof rt,
    Merkle.__init__ keccak lvs = Ok t /\
    index lvs i = Ok leaf /\
    Merkle.get_proof t i = Ok proof /\
    Merkle.root t = Ok rt /\
    fold_left hash_pair proof leaf = rt /\
    Merkle.verify keccak leaf proof rt = true.
Proof.
  intros lvs i Hne Hi. apply built_proof_folds; assumption.
Qed.

End MerkleProofs.

(* ================================================================== *)
(** * The Merkle tree: shape of the layers, errors, single leaf *)
(* ================================================================== *)

Section MerkleShape.

Variable keccak : bytes -> bytes.

Local Abbreviation hash_pair := (Merkle._hash_pair keccak).
Local Abbreviation pair_up := (MerkleSpec.pair_up keccak).
Local Abbreviation chain := (MerkleSpec.chain keccak).

(** [_hash_pair] hashes the two nodes concatenated smaller first. *)
Lemma hash_pair_sorted : forall a b,
  exists lo hi,
    ((lo = a /\ hi = b) \/ (lo = b /\ hi = a)) /\
    bytes_leb lo hi = true /\
    hash_pair a b = keccak (lo ++ hi).
Proof.
  intros a b. unfold Merkle._hash_pair.
  destruct (bytes_leb a b) eqn:E.
  - exists a, b. auto.
  - exists b, a. split; [auto|]. split; [|reflexivity].
    apply bytes_leb_total. exact E.
Qed.

(** ** C2 *)

(** C2. For every non-empty leaf list the tree builds; layer 0 is the leaf
    list; of two neighbouring layers the lower has more than one node and
    node [j] of the upper is [_hash_pair] of nodes [2j] and [2j+1] of the
    lower when both exist, and node [2j] itself, unhashed, when it is the
    last of an odd-length layer; the top layer is the one-node list holding
    the root; [_hash_pair a b] is keccak of the two nodes concatenated in
    byte-lexicographic order, hence symmetric. *)
Theorem build_layers_pairwise : forall lvs : list bytes,
  lvs <> [] ->
  exists t,
    Merkle.__init__ keccak lvs = Ok t /\
    index (Merkle.layers t) 0 = Ok lvs /\
    (forall k cur nxt,
        0 <= k ->
        index (Merkle.layers t) k = Ok cur ->
        index (Merkle.layers t) (k + 1) = Ok nxt ->
        (1 < length cur)%nat /\
        length nxt = ((length cur + 1) / 2)%nat /\
        (forall j, 0 <= j -> 2 * j + 1 < Z.of_nat (length cur) ->
           exists a b,
             index cur (2 * j) = Ok a /\
             index cur (2 * j + 1) = Ok b /\
             index nxt j = Ok (hash_pair a b)) /\
        (forall j, 0 <= j -> 2 * j + 1 = Z.of_nat (length cur) ->
           exists a,
             index cur (2 * j) = Ok a /\
             index nxt j = Ok a)) /\
    (exists rt,
        index (Merkle.layers t) (-1) = Ok [rt] /\
        Merkle.root t = Ok rt) /\
    (forall a b,
        hash_pair a b = hash_pair b a /\
        exists lo hi,
          ((lo = a /\ hi = b) \/ (lo = b /\ hi = a)) /\
          bytes_leb lo hi = true /\
          hash_pair a b = keccak (lo ++ hi)).
Proof.
  intros lvs Hne.
  exists (Merkle.mkTree lvs (lvs :: chain (length lvs) lvs)).
  cbn [Merkle.layers].
  split; [apply init_layers; exact Hne|].
  split; [reflexivity|].
  split.
  { intros k cur nxt Hk Hc Hn.
    apply index_nonneg_inv in Hc; [|lia].
    apply index_nonneg_inv in Hn; [|lia].
    replace (Z.to_nat (k + 1)) with (S (Z.to_nat k)) in Hn by lia.
    destruct (chain_adjacent _ _ _ _ Hc Hn) as [Hlen ->].
    split; [exact Hlen|].
    split; [apply pair_up_length|].
    split.
    - intros j Hj Hj2.
      destruct (pair_up_nth_pair keccak (Z.to_nat j) cur) as [a [b [Ha [Hb Hp]]]];
        [lia|].
      exists a, b.
      replace (2 * j) with (Z.of_nat (2 * Z.to_nat j)) by lia.
      replace (Z.of_nat (2 * Z.to_nat j) + 1)
        with (Z.of_nat (2 * Z.to_nat j + 1)) by lia.
      rewrite <- (Z2Nat.id j) at 3 by lia.
      auto using index_nat.
    - intros j Hj Hj2.
      destruct (pair_up_nth_carry keccak (Z.to_nat j) cur) as [a [Ha Hp]];
        [lia|].
      exists a.
      replace (2 * j) with (Z.of_nat (2 * Z.to_nat j)) by lia.
      rewrite <- (Z2Nat.id j) at 2 by lia.
      auto using index_nat. }
  split.
  { pose proof (chain_top keccak (le_n (length lvs)) Hne) as Htop.
    destruct (last (lvs :: chain (length lvs) lvs) []) as [|rt [|? ?]] eqn:E;
      try discriminate.
    exists rt. unfold Merkle.root. cbn [Merkle.layers].
    rewrite (index_last (l := lvs :: chain (length lvs) lvs) []) by discriminate.
    rewrite E. split; reflexivity. }
  intros a b. split; [apply hash_pair_comm | apply hash_pair_sorted].
Qed.

(** The two-leaf and four-leaf trees of the specification. *)
Example two_leaf_tree : forall L1 L2 : bytes,
  exists t,
    Merkle.__init__ keccak [L1; L2] = Ok t /\
    Merkle.root t = Ok (hash_pair L1 L2) /\
    Merkle.get_proof t 0 = Ok [L2] /\
    Merkle.get_proof t 1 = Ok [L1].
Proof.
  intros L1 L2. eexists. repeat split.
Qed.

Example four_leaf_tree : forall L0 L1 L2 L3 : bytes,
  exists t,
    Merkle.__init__ keccak [L0; L1; L2; L3] = Ok t /\
    Merkle.root t = Ok (hash_pair (hash_pair L0 L1) (hash_pair L2 L3)) /\
    Merkle.get_proof t 0 = Ok [L1; hash_pair L2 L3] /\
    Merkle.get_proof t 1 = Ok [L0; hash_pair L2 L3] /\
    Merkle.get_proof t 2 = Ok [L3; hash_pair L0 L1] /\
    Merkle.get_proof t 3 = Ok [L2; hash_pair L0 L1].
Proof.
  intros L0 L1 L2 L3. eexists. repeat split.
Qed.

(** Three leaves: the third is carried to layer 1 unhashed and its proof is
    the single node beside it there. *)
Example three_leaf_tree : forall L0 L1 L2 : bytes,
  exists t,
    Merkle.__init__ keccak [L0; L1; L2] = Ok t /\
    Merkle.layers t
      = [[L0; L1; L2]; [hash_pair L0 L1; L2];
         [hash_pair (hash_pair L0 L1) L2]] /\
    Merkle.get_proof t 2 = Ok [hash_pair L0 L1] /\
    Merkle.get_proof t 0 = Ok [L1; L2].
Proof.
  intros L0 L1 L2. eexists. repeat split.
Qed.

(** ** C9 *)

(** C9. For a single-leaf list [[L]] the root is [L], the proof of index 0
    is empty, and [verify (L, [], root)] is true. *)
Theorem single_leaf_tree : forall L : bytes,
  exists t,
    Merkle.__init__ keccak [L] = Ok t /\
    Merkle.root t = Ok L /\
    Merkle.get_proof t 0 = Ok [] /\
    Merkle.verify keccak L [] L = true.
Proof.
  intro L. exists (Merkle.mkTree [L] [[L]]).
  repeat split. unfold Merkle.verify. simpl. apply bytes_eqb_refl.
Qed.

(** ** C8 *)

(** C8. Construction raises (ValueError, the empty-batch error) exactly when
    the leaf list is empty and succeeds otherwise; on a built tree
    [get_proof i] raises (IndexError, the index-out-of-range error) exactly
    when [i] is outside [0, leafCount) and returns a proof otherwise; a call
    of [get_proof], failing or not, leaves the tree as it was. *)
Theorem merkle_errors : forall (lvs : list bytes) (i : Z),
  (Merkle.__init__ keccak lvs = Err ValueError <-> lvs = []) /\
  (lvs <> [] -> exists t, Merkle.__init__ keccak lvs = Ok t) /\
  (forall t,
      Merkle.__init__ keccak lvs = Ok t ->
      (Merkle.get_proof t i = Err IndexError
         <-> ~ (0 <= i < Z.of_nat (length lvs))) /\
      (0 <= i < Z.of_nat (length lvs) ->
         exists proof, Merkle.get_proof t i = Ok proof) /\
      fst (Merkle.call_get_proof t i) = t).
Proof.
  intros lvs i.
  split.
  { split.
    - intro H. destruct lvs as [|a l]; [reflexivity|].
      rewrite init_layers in H by discriminate. discriminate.
    - intros ->. reflexivity. }
  split.
  { intro Hne. eexists. apply init_layers. exact Hne. }
  intros t Ht.
  assert (Hne : lvs <> []) by (intros ->; discriminate).
  split; [|split; [|reflexivity]].
  - split.
    + intros Herr Hi.
      destruct (built_proof_folds keccak Hne Hi)
        as [t' [leaf [p [rt [Ht' [_ [Hp _]]]]]]].
      congruence.
    + intro Hi. rewrite init_layers in Ht by exact Hne.
      inversion Ht; subst t. unfold Merkle.get_proof. cbn [Merkle.leaves].
      destruct (i <? 0) eqn:E1; [reflexivity|].
      destruct (i >=? Z.of_nat (length lvs)) eqn:E2; [reflexivity|].
      apply Z.ltb_ge in E1. rewrite Z.geb_leb in E2. apply Z.leb_gt in E2.
      lia.
  - intro Hi.
    destruct (built_proof_folds keccak Hne Hi)
      as [t' [leaf [p [rt [Ht' [_ [Hp _]]]]]]].
    exists p. congruence.
Qed.

End MerkleShape.

Lemma merkle_proof_verifies_witness :
  [Sample.leafA; Sample.leafB; Sample.leafC] <> [] /\
  0 <= 2 < Z.of_nat (length [Sample.leafA; Sample.leafB; Sample.leafC]) /\
  exists t proof rt,
    Merkle.__init__ Keccak256.keccak256
      [Sample.leafA; Sample.leafB; Sample.leafC] = Ok t /\
    Merkle.get_proof t 2 = Ok proof /\
    Merkle.root t = Ok rt /\
    Merkle.verify Keccak256.keccak256 Sample.leafC proof rt = true.
Proof.
  assert (H1 : [Sample.leafA; Sample.leafB; Sample.leafC] <> [])
    by discriminate.
  assert (H2 : 0 <= 2
               < Z.of_nat (length [Sample.leafA; Sample.leafB; Sample.leafC]))
    by (simpl; lia).
  split; [exact H1|]. split; [exact H2|].
  destruct (merkle_proof_verifies Keccak256.keccak256 H1 H2)
    as (t & leaf & proof & rt & Ht & Hl & Hp & Hr & _ & Hv).
  exists t, proof, rt.
  assert (leaf = Sample.leafC) by (inversion Hl; reflexivity). subst leaf.
  auto.
Defined.

Lemma build_layers_pairwise_witness :
  [Sample.leafA; Sample.leafB; Sample.leafC] <> [] /\
  exists t,
    Merkle.__init__ Keccak256.keccak256
      [Sample.leafA; Sample.leafB; Sample.leafC] = Ok t /\
    index (Merkle.layers t) 0
      = Ok [Sample.leafA; Sample.leafB; Sample.leafC].
Proof.
  assert (H1 : [Sample.leafA; Sample.leafB; Sample.leafC] <> [])
    by discriminate.
  split; [exact H1|].
  destruct (build_layers_pairwise Keccak256.keccak256 H1)
    as (t & Ht & H0 & _).
  exists t. auto.
Defined.

Lemma merkle_errors_witness :
  Merkle.__init__ Keccak256.keccak256 [] = Err ValueError /\
  exists t,
    Merkle.__init__ Keccak256.keccak256 [Sample.leafA; Sample.leafB] = Ok t /\
    Merkle.get_proof t 2 = Err IndexError /\
    fst (Merkle.call_get_proof t 2) = t.
Proof.
  split.
  - apply (merkle_errors Keccak256.keccak256 [] 0). reflexivity.
  - destruct (merkle_errors Keccak256.keccak256
                [Sample.leafA; Sample.leafB] 2) as (_ & Hok & Hget).
    destruct Hok as [t Ht]; [discriminate|].
    exists t. split; [exact Ht|].
    destruct (Hget t Ht) as (Herr & _ & Hsame).
    split; [apply Herr; simpl; lia | exact Hsame].
Defined.

(* ================================================================== *)
(** * The Merkle tree: the root and the order of the leaves *)
(* ================================================================== *)

Section MerkleOrder.

Variable keccak : bytes -> bytes.

Local Abbreviation hash_pair := (Merkle._hash_pair keccak).
Local Abbreviation pair_up := (MerkleSpec.pair_up keccak).
Local Abbreviation chain := (MerkleSpec.chain keccak).
Local Abbreviation tree_root := (MerkleSpec.tree_root keccak).

Lemma sibling_swap_pair_up : forall l l',
  MerkleSpec.sibling_swap l l' -> pair_up l = pair_up l'.
Proof.
  induction 1 as [| a | a b l l' _ IH | a b l l' _ IH]; simpl;
    try reflexivity.
  - rewrite IH. reflexivity.
  - rewrite IH, (hash_pair_comm keccak a b). reflexivity.
Qed.

Lemma sibling_swap_length : forall l l',
  MerkleSpec.sibling_swap l l' -> length l = length l'.
Proof. induction 1; simpl; congruence. Qed.

(** Fuel beyond the length of the layer changes nothing. *)
Lemma chain_fuel_irrelevant : forall f f' l,
  (length l <= f)%nat -> (length l <= f')%nat ->
  chain f l = chain f' l.
Proof.
  induction f as [|f IH]; intros f' l Hf Hf'.
  - destruct f'; simpl; [reflexivity|].
    destruct (1 <? length l)%nat eqn:E; [|reflexivity].
    apply Nat.ltb_lt in E. lia.
  - destruct f' as [|f'].
    + simpl. destruct (1 <? length l)%nat eqn:E; [|reflexivity].
      apply Nat.ltb_lt in E. lia.
    + simpl. destruct (1 <? length l)%nat eqn:E; [|reflexivity].
      apply Nat.ltb_lt in E. f_equal.
      pose proof (half_le E). pose proof (pair_up_length keccak l).
      apply IH; lia.
Qed.

Lemma tree_root_top : forall l,
  l <> [] ->
  tree_root l = index (last (l :: chain (length l) l) []) 0.
Proof.
  intros l Hne. unfold MerkleSpec.tree_root.
  rewrite init_layers by exact Hne. cbn [bind].
  unfold Merkle.root. cbn [Merkle.layers].
  rewrite (index_last (l := l :: chain (length l) l) []) by discriminate.
  reflexivity.
Qed.

(** The root of a layer with more than one node is the root of the layer
    above it. *)
Lemma tree_root_up : forall l,
  (1 < length l)%nat -> tree_root l = tree_root (pair_up l).
Proof.
  intros l Hlen.
  assert (Hne : l <> []) by (intros ->; simpl in Hlen; lia).
  rewrite (tree_root_top Hne).
  rewrite (tree_root_top (pair_up_nonempty keccak Hne)).
  destruct (length l) as [|f] eqn:El; [lia|].
  cbn [MerkleSpec.chain]. rewrite El.
  replace (1 <? S f)%nat with true by (symmetry; apply Nat.ltb_lt; lia).
  change (last (l :: pair_up l :: chain f (pair_up l)) [])
    with (last (pair_up l :: chain f (pair_up l)) []).
  rewrite (@chain_fuel_irrelevant f (length (pair_up l)) (pair_up l)).
  - reflexivity.
  - rewrite pair_up_length, El.
    assert (H1 : (1 < S f)%nat) by lia. pose proof (half_le H1). lia.
  - lia.
Qed.

Lemma tree_root_swap : forall l l',
  MerkleSpec.sibling_swap l l' -> tree_root l = tree_root l'.
Proof.
  intros l l' H.
  destruct (Nat.lt_ge_cases 1 (length l)) as [Hlt | Hge].
  - rewrite (tree_root_up l Hlt).
    rewrite (tree_root_up l') by (rewrite <- (sibling_swap_length H); exact Hlt).
    rewrite (sibling_swap_pair_up H). reflexivity.
  - inversion H; subst; simpl in Hge; try reflexivity; lia.
Qed.

(** ** C4 *)

(** C4, as the code has it. Exchanging the two children of a node, two
    sibling leaves at positions [2j] and [2j+1] or two sibling nodes of a
    layer further up, leaves the root unchanged: such a change of the order
    of the leaves does not change the root. *)
Theorem sibling_exchange_keeps_root : forall l l',
  MerkleSpec.sibling_exchange keccak l l' -> tree_root l = tree_root l'.
Proof.
  induction 1 as [l l' Hs | l l' Hl Hl' _ IH].
  - apply tree_root_swap. exact Hs.
  - rewrite (tree_root_up l Hl), (tree_root_up l' Hl'). exact IH.
Qed.

End MerkleOrder.

Lemma bytes_eqb_neq : forall a b, bytes_eqb a b = false -> a <> b.
Proof.
  intros a b H E. subst b. rewrite bytes_eqb_refl in H. discriminate.
Qed.

(** C4, as stated, fails: the two distinct leaves [leafA], [leafB] in the two
    possible orders give the same root, keccak (leafA + leafB). *)
Lemma reorder_keeps_root :
  Sample.leafA <> Sample.leafB /\
  Permutation [Sample.leafA; Sample.leafB] [Sample.leafB; Sample.leafA] /\
  [Sample.leafA; Sample.leafB] <> [Sample.leafB; Sample.leafA] /\
  MerkleSpec.tree_root Keccak256.keccak256 [Sample.leafA; Sample.leafB]
    = Ok (Keccak256.keccak256 (Sample.leafA ++ Sample.leafB)) /\
  MerkleSpec.tree_root Keccak256.keccak256 [Sample.leafB; Sample.leafA]
    = Ok (Keccak256.keccak256 (Sample.leafA ++ Sample.leafB)).
Proof.
  split; [apply bytes_eqb_neq; reflexivity|].
  split; [apply perm_swap|].
  split; [intro H; inversion H|].
  split; reflexivity.
Qed.

(** A reordering that is not an exchange of siblings: with Keccak-256 the
    batches [A, B, C] and [A, C, B] have different roots. *)
Example reorder_changes_root :
  MerkleSpec.tree_root Keccak256.keccak256
    [Sample.leafA; Sample.leafB; Sample.leafC]
  <> MerkleSpec.tree_root Keccak256.keccak256
    [Sample.leafA; Sample.leafC; Sample.leafB].
Proof.
  intro H. vm_compute in H. discriminate H.
Qed.

(** The exchange of [leafA] and [leafB] in a three-leaf batch. *)
Lemma sibling_exchange_keeps_root_witness :
  MerkleSpec.sibling_exchange Keccak256.keccak256
    [Sample.leafA; Sample.leafB; Sample.leafC]
    [Sample.leafB; Sample.leafA; Sample.leafC] /\
  MerkleSpec.tree_root Keccak256.keccak256
    [Sample.leafA; Sample.leafB; Sample.leafC]
  = MerkleSpec.tree_root Keccak256.keccak256
    [Sample.leafB; Sample.leafA; Sample.leafC].
Proof.
  assert (H : MerkleSpec.sibling_exchange Keccak256.keccak256
                [Sample.leafA; Sample.leafB; Sample.leafC]
                [Sample.leafB; Sample.leafA; Sample.leafC]).
  { apply MerkleSpec.exch_leaves. apply MerkleSpec.swap_pair.
    apply MerkleSpec.swap_one. }
  split; [exact H|].
  apply (sibling_exchange_keeps_root H).
Defined.

(* ================================================================== *)
(** * The leaf of an intent *)
(* ================================================================== *)

Lemma be_digits_length : forall len n, length (be_digits len n) = len.
Proof.
  induction len as [|len IH]; intro n; simpl; [reflexivity|].
  rewrite length_app, IH. simpl. lia.
Qed.

Lemma encode_bytes32 : forall b,
  length b = 32%nat -> Abi.encode_single Abi.bytes32 (Abi.v_bytes b) = Ok b.
Proof.
  intros b H. cbn [Abi.encode_single]. rewrite H. cbn.
  rewrite app_nil_r. reflexivity.
Qed.

Lemma encode_address : forall a,
  LeafSpec.is_address a ->
  Abi.encode_single Abi.t_address (Abi.v_address a)
  = Ok (LeafSpec.address_word a).
Proof.
  intros a H. unfold LeafSpec.is_address in H. cbn [Abi.encode_single].
  rewrite H. reflexivity.
Qed.

Lemma encode_uint : forall bits n,
  LeafSpec.is_uint bits n ->
  Abi.encode_single (Abi.uint bits) (Abi.v_int n) = Ok (LeafSpec.uint_word n).
Proof.
  intros bits n [H1 H2]. cbn [Abi.encode_single].
  replace (0 <=? n) with true by (symmetry; apply Z.leb_le; exact H1).
  replace (n <? 2 ^ bits) with true by (symmetry; apply Z.ltb_lt; exact H2).
  reflexivity.
Qed.

Lemma encode_int : forall bits n,
  LeafSpec.is_int bits n ->
  Abi.encode_single (Abi.int bits) (Abi.v_int n) = Ok (LeafSpec.int_word n).
Proof.
  intros bits n [H1 H2]. cbn [Abi.encode_single].
  replace (- 2 ^ (bits - 1) <=? n) with true
    by (symmetry; apply Z.leb_le; exact H1).
  replace (n <? 2 ^ (bits - 1)) with true
    by (symmetry; apply Z.ltb_lt; exact H2).
  reflexivity.
Qed.

Lemma address_word_length : forall a,
  LeafSpec.is_address a -> length (LeafSpec.address_word a) = 32%nat.
Proof.
  intros a H. unfold LeafSpec.address_word, LeafSpec.is_address in *.
  rewrite length_app, H. reflexivity.
Qed.

Section LeafEncoding.

Variable keccak : bytes -> bytes.
Hypothesis keccak_length : forall b, length (keccak b) = 32%nat.

Import LeafSpec.

(** [_hash_pool_key] on a pool key whose fields fit their types. *)
Lemma hash_pool_key_encoding : forall p : PoolKey,
  pool_fits p ->
  Merkle._hash_pool_key keccak p
  = Ok (keccak (keccak (bytes_of_string Merkle.PoolKey_signature)
                ++ address_word (currency0 p)
                ++ address_word (currency1 p)
                ++ uint_word (fee p)
                ++ int_word (tick_spacing p)
                ++ address_word (hooks p))).
Proof.
  intros p (H0 & H1 & Hf & Ht & Hh).
  unfold Merkle._hash_pool_key. cbn [Abi.encode].
  rewrite (encode_bytes32 _ (keccak_length _)).
  rewrite !(encode_address) by assumption.
  rewrite (encode_uint Hf), (encode_int Ht).
  cbn [bind]. rewrite app_nil_r. reflexivity.
Qed.

(** ** C3 *)

(** C3. For every intent whose fields fit their Solidity types,
    [compute_leaf] returns keccak of eight 32-byte words: the type hash
    (keccak of the LPIntent signature string followed by the PoolKey
    signature string), the user address left-padded, the struct hash of the
    pool key, tickLower and tickUpper sign-extended, and amount, nonce and
    deadline big-endian.  The third word is not the pool's fields: it is
    what [_hash_pool_key] returns, keccak of the six words made of the
    PoolKey type hash, the two currencies left-padded, the fee, the tick
    spacing sign-extended and the hooks address left-padded. *)
Theorem compute_leaf_encoding : forall intent : LPIntent,
  intent_fits intent ->
  exists type_hash pool_hash,
    type_hash
      = keccak (bytes_of_string
                  (LPIntent_signature ++ Merkle.PoolKey_signature)) /\
    pool_hash
      = keccak (keccak (bytes_of_string Merkle.PoolKey_signature)
                ++ address_word (currency0 (pool intent))
                ++ address_word (currency1 (pool intent))
                ++ uint_word (fee (pool intent))
                ++ int_word (tick_spacing (pool intent))
                ++ address_word (hooks (pool intent))) /\
    Merkle._hash_pool_key keccak (pool intent) = Ok pool_hash /\
    Merkle.compute_leaf keccak intent
      = Ok (keccak (type_hash
                    ++ address_word (user intent)
                    ++ pool_hash
                    ++ int_word (tick_lower intent)
                    ++ int_word (tick_upper intent)
                    ++ uint_word (amount intent)
                    ++ uint_word (nonce intent)
                    ++ uint_word (deadline intent))) /\
    Forall (fun w => length w = 32%nat)
      [type_hash; address_word (user intent); pool_hash;
       int_word (tick_lower intent); int_word (tick_upper intent);
       uint_word (amount intent); uint_word (nonce intent);
       uint_word (deadline intent)] /\
    Forall (fun w => length w = 32%nat)
      [keccak (bytes_of_string Merkle.PoolKey_signature);
       address_word (currency0 (pool intent));
       address_word (currency1 (pool intent));
       uint_word (fee (pool intent));
       int_word (tick_spacing (pool intent));
       address_word (hooks (pool intent))].
Proof.
  intros intent (Hu & Hp & Hl & Hup & Ha & Hn & Hd).
  eexists. eexists.
  split; [reflexivity|].
  split; [reflexivity|].
  split; [apply hash_pool_key_encoding; exact Hp|].
  split; [|split].
  - unfold Merkle.compute_leaf.
    rewrite (hash_pool_key_encoding Hp). cbn [bind Abi.encode].
    rewrite !(encode_bytes32 _ (keccak_length _)).
    rewrite (encode_address Hu), (encode_int Hl), (encode_int Hup).
    rewrite (encode_uint Ha), (encode_uint Hn), (encode_uint Hd).
    cbn [bind]. rewrite app_nil_r. reflexivity.
  - repeat constructor;
      solve [ apply keccak_length
            | apply address_word_length; assumption
            | apply be_digits_length ].
  - destruct Hp as (H0 & H1 & _ & _ & Hh).
    repeat constructor;
      solve [ apply keccak_length
            | apply address_word_length; assumption
            | apply be_digits_length ].
Qed.

End LeafEncoding.

Lemma keccak256_length : forall b,
  length (Keccak256.keccak256 b) = 32%nat.
Proof.
  intro b. unfold Keccak256.keccak256.
  generalize (Keccak256.absorb (length (Keccak256.pad b)) (repeat 0%N 25)
                (Keccak256.pad b)).
  intro st. cbn [flat_map]. rewrite !length_app.
  unfold Keccak256.le_bytes8. rewrite !length_map. reflexivity.
Qed.

(** Keccak-256 of the empty string, as published. *)
Example keccak256_empty :
  map Byte.to_N (Keccak256.keccak256 [])
  = [197; 210; 70; 1; 134; 247; 35; 60; 146; 126; 125; 178; 220; 199; 3;
     192; 229; 0; 182; 83; 202; 130; 39; 59; 123; 250; 216; 4; 93; 133;
     164; 112]%N.
Proof. vm_compute. reflexivity. Qed.

(** The tick -887220 as an int24 word: 29 bytes 0xff, then 0xf2764c. *)
Example int_word_negative :
  LeafSpec.int_word (-887220) = repeat xff 29 ++ [xf2; x76; x4c].
Proof. vm_compute. reflexivity. Qed.

Lemma compute_leaf_encoding_witness :
  LeafSpec.intent_fits Sample.intent0 /\
  exists leaf,
    Merkle.compute_leaf Keccak256.keccak256 Sample.intent0 = Ok leaf.
Proof.
  assert (H : LeafSpec.intent_fits Sample.intent0).
  { unfold LeafSpec.intent_fits, LeafSpec.pool_fits, LeafSpec.is_address,
      LeafSpec.is_uint, LeafSpec.is_int. simpl. repeat split; lia. }
  split; [exact H|].
  destruct (compute_leaf_encoding Keccak256.keccak256 keccak256_length H)
    as (th & ph & _ & _ & _ & Hleaf & _).
  eexists. exact Hleaf.
Defined.

(* ================================================================== *)
(** * The packed signature *)
(* ================================================================== *)

Lemma be_value_snoc : forall (b : bytes) (x : byte),
  be_value (b ++ [x]) = be_value b * 256 + Z.of_N (Byte.to_N x).
Proof.
  intros b x. unfold be_value. rewrite fold_left_app. reflexivity.
Qed.

Lemma byte_of_digit : forall d,
  0 <= d < 256 ->
  Z.of_N (Byte.to_N (match Byte.of_N (Z.to_N d) with
                     | Some b => b
                     | None => x00
                     end)) = d.
Proof.
  intros d Hd.
  destruct (Byte.of_N (Z.to_N d)) as [b|] eqn:E.
  - apply Byte.to_of_N in E. rewrite E. lia.
  - apply Byte.of_N_None_iff in E. lia.
Qed.

(** Reading back the big-endian digits of a number that fits. *)
Lemma be_value_digits : forall len n,
  0 <= n < 256 ^ Z.of_nat len -> be_value (be_digits len n) = n.
Proof.
  induction len as [|len IH]; intros n Hn.
  - simpl in Hn. unfold be_value. simpl. lia.
  - cbn [be_digits]. rewrite be_value_snoc.
    rewrite Nat2Z.inj_succ, Z.pow_succ_r in Hn by lia.
    rewrite IH.
    + rewrite byte_of_digit by (apply Z.mod_pos_bound; lia).
      pose proof (Z.div_mod n 256). lia.
    + split.
      * apply Z.div_pos; lia.
      * apply Z.div_lt_upper_bound; lia.
Qed.

Lemma to_bytes_inv : forall n len b,
  to_bytes n len = Ok b ->
  b = be_digits len n /\ 0 <= n < 256 ^ Z.of_nat len.
Proof.
  intros n len b. unfold to_bytes.
  destruct ((0 <=? n) && (n <? 256 ^ Z.of_nat len))%bool eqn:E;
    [|discriminate].
  apply andb_true_iff in E. destruct E as [E1 E2].
  apply Z.leb_le in E1. apply Z.ltb_lt in E2.
  intro H. inversion H. auto.
Qed.

(** The three slices a 65-byte signature is read by. *)
Lemma packed_slices : forall rb sb vb : bytes,
  length rb = 32%nat -> length sb = 32%nat ->
  firstn 32 (rb ++ sb ++ vb) = rb /\
  firstn 32 (skipn 32 (rb ++ sb ++ vb)) = sb /\
  skipn 64 (rb ++ sb ++ vb) = vb.
Proof.
  intros rb sb vb Hr Hs.
  assert (H1 : firstn 32 (rb ++ sb ++ vb) = rb).
  { rewrite <- Hr at 1. rewrite firstn_app, Nat.sub_diag, firstn_all.
    simpl. apply app_nil_r. }
  assert (H2 : skipn 32 (rb ++ sb ++ vb) = sb ++ vb).
  { rewrite <- Hr at 1. rewrite skipn_app, Nat.sub_diag, skipn_all.
    reflexivity. }
  split; [exact H1|]. split.
  - rewrite H2. rewrite <- Hs at 1.
    rewrite firstn_app, Nat.sub_diag, firstn_all. simpl. apply app_nil_r.
  - change 64%nat with (32 + 32)%nat. rewrite <- skipn_skipn, H2.
    rewrite <- Hs at 1. rewrite skipn_app, Nat.sub_diag, skipn_all.
    reflexivity.
Qed.

Section SignerFacts.

Variable SignableMessage : Type.
Variable encode_typed_data : Signer.FullMessage -> result SignableMessage.
Variable sign_message :
  SignableMessage -> string -> result Signer.SignedMessage.

Local Abbreviation sign_intent :=
  (Signer.sign_intent encode_typed_data sign_message).

(** What a successful [sign_intent] went through and what it returns. *)
Lemma sign_intent_inv : forall intent key chain_id contract sig,
  sign_intent intent key chain_id contract = Ok sig ->
  exists signable signed,
    encode_typed_data (Signer.build_eip712_message intent chain_id contract)
      = Ok signable /\
    sign_message signable key = Ok signed /\
    sig = be_digits 32 (Signer.r signed) ++ be_digits 32 (Signer.s signed)
          ++ be_digits 1 (Signer.v signed) /\
    0 <= Signer.r signed < 256 ^ 32 /\
    0 <= Signer.s signed < 256 ^ 32 /\
    0 <= Signer.v signed < 256.
Proof.
  intros intent key chain_id contract sig. unfold Signer.sign_intent.
  destruct (encode_typed_data _) as [signable|] eqn:Em; [|discriminate].
  cbn [bind].
  destruct (sign_message signable key) as [signed|] eqn:Es; [|discriminate].
  cbn [bind].
  destruct (to_bytes (Signer.r signed) 32) as [rb|] eqn:Er; [|discriminate].
  destruct (to_bytes (Signer.s signed) 32) as [sb|] eqn:Ess; [|discriminate].
  destruct (to_bytes (Signer.v signed) 1) as [vb|] eqn:Ev; [|discriminate].
  cbn [bind]. intro H. inversion H; subst sig.
  apply to_bytes_inv in Er, Ess, Ev.
  destruct Er as [-> Hr], Ess as [-> Hs], Ev as [-> Hv].
  exists signable, signed. repeat split; try tauto; try lia.
Qed.

(** ** C7 *)

(** C7. A signature returned by [sign_intent] is exactly 65 bytes: the 32
    bytes of [r] big-endian, then the 32 bytes of [s] big-endian, then the
    one byte of [v], where [(r, s, v)] is what the library signed; the three
    slices read back as [r], [s] and [v]. *)
Theorem signature_is_r_s_v : forall intent key chain_id contract sig,
  sign_intent intent key chain_id contract = Ok sig ->
  exists signable signed,
    encode_typed_data (Signer.build_eip712_message intent chain_id contract)
      = Ok signable /\
    sign_message signable key = Ok signed /\
    sig = be_digits 32 (Signer.r signed) ++ be_digits 32 (Signer.s signed)
          ++ be_digits 1 (Signer.v signed) /\
    length sig = 65%nat /\
    be_value (firstn 32 sig) = Signer.r signed /\
    be_value (firstn 32 (skipn 32 sig)) = Signer.s signed /\
    be_value (skipn 64 sig) = Signer.v signed.
Proof.
  intros intent key chain_id contract sig H.
  destruct (sign_intent_inv _ _ _ _ H)
    as (signable & signed & Hm & Hs & -> & Hr & Hss & Hv).
  exists signable, signed.
  destruct (packed_slices (be_digits 32 (Signer.r signed))
              (be_digits 32 (Signer.s signed))
              (be_digits 1 (Signer.v signed))
              (be_digits_length _ _) (be_digits_length _ _))
    as (E1 & E2 & E3).
  rewrite E1, E2, E3.
  split; [exact Hm|]. split; [exact Hs|]. split; [reflexivity|].
  split; [rewrite !length_app, !be_digits_length; reflexivity|].
  split; [apply be_value_digits; exact Hr|].
  split; apply be_value_digits; assumption.
Qed.

(** The contract of the library: recovering from a message and the
    [(v, r, s)] the library signed it with gives the address of the key. *)
Variable recover_vrs : SignableMessage -> Z * Z * Z -> result address.
Variable address_of_key : string -> address.

Local Abbreviation verify_intent_signature :=
  (Signer.verify_intent_signature encode_typed_data recover_vrs).
Hypothesis recover_signed : forall signable key signed,
  sign_message signable key = Ok signed ->
  recover_vrs signable (Signer.v signed, Signer.r signed, Signer.s signed)
  = Ok (address_of_key key).

(** ** C6 *)

(** C6. For every key, intent, chain id and verifying contract: if
    [sign_intent] returns a signature, [verify_intent_signature] on the same
    intent, chain id and contract and that signature returns the address of
    the key. *)
Theorem sign_then_recover : forall intent key chain_id contract sig,
  sign_intent intent key chain_id contract = Ok sig ->
  verify_intent_signature intent sig chain_id contract
  = Ok (address_of_key key).
Proof.
  intros intent key chain_id contract sig H.
  destruct (sign_intent_inv _ _ _ _ H)
    as (signable & signed & Hm & Hs & -> & Hr & Hss & Hv).
  unfold Signer.verify_intent_signature. rewrite Hm. cbn [bind].
  unfold Signer.recover_message.
  replace (length (be_digits 32 (Signer.r signed)
                   ++ be_digits 32 (Signer.s signed)
                   ++ be_digits 1 (Signer.v signed)) =? 65)%nat with true
    by (rewrite !length_app, !be_digits_length; reflexivity).
  destruct (packed_slices (be_digits 32 (Signer.r signed))
              (be_digits 32 (Signer.s signed))
              (be_digits 1 (Signer.v signed))
              (be_digits_length _ _) (be_digits_length _ _))
    as (E1 & E2 & E3).
  rewrite E1, E2, E3, !be_value_digits by assumption.
  apply recover_signed. exact Hs.
Qed.

End SignerFacts.

Lemma standin_recover_signed : forall signable key signed,
  StandIn.sign_message signable key = Ok signed ->
  StandIn.recover_vrs signable
    (Signer.v signed, Signer.r signed, Signer.s signed)
  = Ok (StandIn.address_of_key key).
Proof.
  intros signable key signed H. unfold StandIn.sign_message in H.
  inversion H; subst signed. cbn [Signer.v Signer.r Signer.s].
  unfold StandIn.recover_vrs. rewrite Z.eqb_refl. reflexivity.
Qed.

Lemma signature_is_r_s_v_witness :
  exists sig,
    Signer.sign_intent StandIn.encode_typed_data StandIn.sign_message
      Sample.intent0 "key" 31337 (Sample.addr x12) = Ok sig /\
    length sig = 65%nat.
Proof.
  destruct (Signer.sign_intent StandIn.encode_typed_data StandIn.sign_message
              Sample.intent0 "key" 31337 (Sample.addr x12)) as [sig|e] eqn:E;
    [|vm_compute in E; discriminate E].
  exists sig. split; [reflexivity|].
  destruct (@signature_is_r_s_v _ _ _ _ _ _ _ _ E)
    as (signable & signed & _ & _ & _ & Hlen & _).
  exact Hlen.
Defined.

Lemma sign_then_recover_witness :
  exists sig,
    Signer.sign_intent StandIn.encode_typed_data StandIn.sign_message
      Sample.intent0 "key" 31337 (Sample.addr x12) = Ok sig /\
    Signer.verify_intent_signature StandIn.encode_typed_data
      StandIn.recover_vrs Sample.intent0 sig 31337 (Sample.addr x12)
    = Ok (StandIn.address_of_key "key").
Proof.
  destruct (Signer.sign_intent StandIn.encode_typed_data StandIn.sign_message
              Sample.intent0 "key" 31337 (Sample.addr x12)) as [sig|e] eqn:E;
    [|vm_compute in E; discriminate E].
  exists sig. split; [reflexivity|].
  exact (@sign_then_recover _ _ _ _ _ standin_recover_signed _ _ _ _ _ E).
Defined.

(* ================================================================== *)
(** * Binary64 arithmetic keeps the order *)
(* ================================================================== *)

(** The operations of primitive floats are specified by [SpecFloat]:
    an exact result is shifted to the right to 53 digits, with a round bit
    and a sticky bit, and rounded to nearest, ties to even.  What follows
    shows from that specification that multiplying by a float at or above
    0, dividing by a float above 0 and taking the integer part keep the
    order of floats. *)

Unset Implicit Arguments.

Section IEEEFacts.

Import IEEE.

Ltac divmod := Z.to_euclidean_division_equations; nia.
Ltac fin :=
  repeat match goal with
         | |- context [?a =? ?b] => destruct (Z.eqb_spec a b)
         end; lia.

(** ** Digits *)

Lemma digits2_pos_bounds : forall m : positive,
  2 ^ (Zpos (digits2_pos m) - 1) <= Zpos m < 2 ^ Zpos (digits2_pos m).
Proof.
  induction m as [m IH | m IH |]; cbn [digits2_pos].
  - rewrite Pos2Z.inj_succ.
    replace (Z.succ (Zpos (digits2_pos m)) - 1)
      with (Z.succ (Zpos (digits2_pos m) - 1)) by lia.
    rewrite !Z.pow_succ_r by lia. lia.
  - rewrite Pos2Z.inj_succ.
    replace (Z.succ (Zpos (digits2_pos m)) - 1)
      with (Z.succ (Zpos (digits2_pos m) - 1)) by lia.
    rewrite !Z.pow_succ_r by lia. lia.
  - cbn. lia.
Qed.

Lemma Zdigits2_bounds : forall m : Z,
  0 < m -> 2 ^ (Zdigits2 m - 1) <= m < 2 ^ Zdigits2 m.
Proof.
  intros [|m|m] H; try lia. apply digits2_pos_bounds.
Qed.

Lemma Zdigits2_nonneg : forall m : Z, 0 <= Zdigits2 m.
Proof. intros [|m|m]; cbn; lia. Qed.

Lemma Zdigits2_pos : forall m : Z, 0 < m -> 0 < Zdigits2 m.
Proof. intros [|m|m] H; cbn; lia. Qed.

(** The number of digits from bounds. *)
Lemma Zdigits2_unique : forall m d : Z,
  2 ^ (d - 1) <= m < 2 ^ d -> 0 < d -> Zdigits2 m = d.
Proof.
  intros m d [H1 H2] Hd.
  assert (Hm : 0 < m) by (pose proof (Z.pow_pos_nonneg 2 (d - 1)); lia).
  pose proof (Zdigits2_bounds m Hm) as [B1 B2].
  pose proof (Zdigits2_pos m Hm) as Hp.
  destruct (Z.lt_trichotomy (Zdigits2 m) d) as [Hlt | [Heq | Hgt]];
    [|exact Heq|].
  - exfalso. assert (2 ^ Zdigits2 m <= 2 ^ (d - 1))
      by (apply Z.pow_le_mono_r; lia). lia.
  - exfalso. assert (2 ^ d <= 2 ^ (Zdigits2 m - 1))
      by (apply Z.pow_le_mono_r; lia). lia.
Qed.

(** ** Keys: a mantissa with its round and sticky bits *)



Lemma kappa_range : forall N D, 0 <= N -> 0 < D ->
  4 * (N / D) <= kappa N D <= 4 * (N / D) + 3.
Proof.
  intros N D HN HD. unfold kappa.
  destruct (N mod D =? 0); [lia|].
  destruct (2 * (N mod D) ?= D); lia.
Qed.

Lemma kappa_mono : forall N1 D1 N2 D2,
  0 <= N1 -> 0 < D1 -> 0 < D2 ->
  N1 * D2 <= N2 * D1 -> kappa N1 D1 <= kappa N2 D2.
Proof.
  intros N1 D1 N2 D2 HN1 HD1 HD2 H.
  assert (HN2 : 0 <= N2) by nia.
  pose proof (Z.div_mod N1 D1 ltac:(lia)) as E1.
  pose proof (Z.div_mod N2 D2 ltac:(lia)) as E2.
  pose proof (Z.mod_pos_bound N1 D1 HD1) as B1.
  pose proof (Z.mod_pos_bound N2 D2 HD2) as B2.
  pose proof (Z.div_pos N1 D1 HN1 HD1) as Q1.
  pose proof (Z.div_pos N2 D2 HN2 HD2) as Q2.
  unfold kappa.
  set (q1 := N1 / D1) in *. set (q2 := N2 / D2) in *.
  set (r1 := N1 mod D1) in *. set (r2 := N2 mod D2) in *.
  assert (Hq : q1 <= q2).
  { destruct (Z_le_gt_dec q1 q2) as [|Hgt]; [assumption|]. exfalso.
    assert (q2 + 1 <= q1) by lia.
    assert (N2 * D1 < (q2 + 1) * D2 * D1) by nia.
    assert ((q2 + 1) * D2 * D1 <= q1 * D1 * D2) by nia.
    nia. }
  destruct (Z.eq_dec q1 q2) as [Heq | Hne].
  - assert (Hr : r1 * D2 <= r2 * D1) by nia.
    destruct (Z.eqb_spec r1 0) as [Z1 | Z1];
      destruct (Z.eqb_spec r2 0) as [Z2 | Z2].
    + lia.
    + destruct (2 * r2 ?= D2); lia.
    + exfalso. nia.
    + destruct (Z.compare_spec (2 * r1) D1) as [C1 | C1 | C1];
        destruct (Z.compare_spec (2 * r2) D2) as [C2 | C2 | C2];
        try lia; exfalso; nia.
  - assert (q1 + 1 <= q2) by lia.
    destruct (r1 =? 0); destruct (r2 =? 0);
      try destruct (2 * r1 ?= D1); try destruct (2 * r2 ?= D2); lia.
Qed.

(** One shift to the right halves the quotient. *)
Lemma shr_1_kappa : forall (r : shr_record) N D,
  0 <= shr_m r -> 0 <= N -> 0 < D ->
  rkey r = kappa N D ->
  rkey (shr_1 r) = kappa N (2 * D) /\ 0 <= shr_m (shr_1 r).
Proof.
  intros [m rb sb] N D Hm HN HD. unfold rkey. cbn [shr_m shr_r shr_s].
  intro E.
  assert (Hk : kappa N (2 * D)
               = 2 * (kappa N D / 4) + (if kappa N D mod 4 =? 0 then 0 else 1)).
  { unfold kappa.
    pose proof (Z.div_mod N D ltac:(lia)) as E1.
    pose proof (Z.mod_pos_bound N D HD) as B1.
    pose proof (Z.div_pos N D HN HD) as Q1.
    pose proof (Z.div_mod N (2 * D) ltac:(lia)) as E2.
    pose proof (Z.mod_pos_bound N (2 * D) ltac:(lia)) as B2.
    pose proof (Z.div_pos N (2 * D) HN ltac:(lia)) as Q2.
    remember (N / D) as q eqn:Dq. remember (N mod D) as r eqn:Dr.
    remember (N / (2 * D)) as q' eqn:Dq'.
    remember (N mod (2 * D)) as r' eqn:Dr'.
    clear Dq Dr Dq' Dr'.
    assert (Hq : q = 2 * q' + (if r' <? D then 0 else 1)).
    { destruct (Z.ltb_spec r' D); nia. }
    assert (Hr : r' = r + (if r' <? D then 0 else D)).
    { destruct (Z.ltb_spec r' D); nia. }
    destruct (Z.ltb_spec r' D) as [L | L].
    - (* q even *)
      assert (r = r') by lia. subst r.
      destruct (Z.eqb_spec r' 0) as [Z0 | Z0].
      + replace ((4 * q + 0) / 4) with q by divmod.
        replace ((4 * q + 0) mod 4) with 0 by divmod.
        fin.
      + assert (C : (2 * r' ?= 2 * D) = Lt) by (apply Z.compare_lt_iff; lia).
        rewrite C.
        destruct (2 * r' ?= D).
        * replace ((4 * q + 2) / 4) with q by divmod.
          replace ((4 * q + 2) mod 4) with 2 by divmod. fin.
        * replace ((4 * q + 1) / 4) with q by divmod.
          replace ((4 * q + 1) mod 4) with 1 by divmod. fin.
        * replace ((4 * q + 3) / 4) with q by divmod.
          replace ((4 * q + 3) mod 4) with 3 by divmod. fin.
    - (* q odd *)
      assert (Hr' : r' = r + D) by lia.
      assert (Z' : (r' =? 0) = false) by (apply Z.eqb_neq; lia).
      rewrite Z'.
      destruct (Z.eqb_spec r 0) as [Z0 | Z0].
      + assert (C : (2 * r' ?= 2 * D) = Eq) by (apply Z.compare_eq_iff; lia).
        rewrite C.
        replace ((4 * q + 0) / 4) with q by divmod.
        replace ((4 * q + 0) mod 4) with 0 by divmod.
        fin.
      + assert (C : (2 * r' ?= 2 * D) = Gt) by (apply Z.compare_gt_iff; lia).
        rewrite C.
        destruct (2 * r ?= D).
        * replace ((4 * q + 2) / 4) with q by divmod.
          replace ((4 * q + 2) mod 4) with 2 by divmod. fin.
        * replace ((4 * q + 1) / 4) with q by divmod.
          replace ((4 * q + 1) mod 4) with 1 by divmod. fin.
        * replace ((4 * q + 3) / 4) with q by divmod.
          replace ((4 * q + 3) mod 4) with 3 by divmod. fin. }
  rewrite Hk, <- E. clear Hk E. cbn [shr_m] in Hm.
  destruct m as [|p|p]; [| |lia].
  - destruct rb, sb; cbn; split; reflexivity || lia.
  - destruct p as [p|p|]; destruct rb, sb; cbn [shr_1 orb shr_m shr_r shr_s];
      split; try lia.
    all: try (replace (Z.pos p~1) with (2 * Z.pos p + 1) by lia).
    all: try (replace (Z.pos p~0) with (2 * Z.pos p) by lia).
    all: match goal with
         | |- _ = 2 * (?K / 4) + (if ?K mod 4 =? 0 then _ else _) =>
             let q := fresh "q" in let r := fresh "r" in
             assert (exists q r, q = K / 4 /\ r = K mod 4) as (q & r & Hq & Hr)
               by (eexists; eexists; split; reflexivity);
             rewrite <- Hq, <- Hr;
             destruct (Z.eqb_spec r 0); divmod
         end.
Qed.

(** ** Shifting keeps the quotient *)

Lemma pow2_xO : forall n : positive,
  2 ^ Zpos n~0 = 2 ^ Zpos n * 2 ^ Zpos n.
Proof.
  intro n. rewrite <- Z.pow_add_r by lia. f_equal. lia.
Qed.

Lemma pow2_xI : forall n : positive,
  2 ^ Zpos n~1 = 2 * (2 ^ Zpos n * 2 ^ Zpos n).
Proof.
  intro n. rewrite <- Z.pow_add_r by lia.
  replace (Zpos n~1) with (Z.succ (Zpos n + Zpos n)) by lia.
  rewrite Z.pow_succ_r by lia. reflexivity.
Qed.

Lemma iter_shr_kappa : forall (n : positive) (r : shr_record) N D,
  0 <= shr_m r -> 0 <= N -> 0 < D ->
  rkey r = kappa N D ->
  rkey (SpecFloat.iter_pos shr_1 n r) = kappa N (D * 2 ^ Zpos n) /\
  0 <= shr_m (SpecFloat.iter_pos shr_1 n r).
Proof.
  induction n as [n IH | n IH |]; intros r N D Hm HN HD E;
    cbn [SpecFloat.iter_pos].
  - destruct (shr_1_kappa r N D Hm HN HD E) as [E1 M1].
    assert (P1 : 0 < 2 ^ Zpos n) by (apply Z.pow_pos_nonneg; lia).
    destruct (IH _ N (2 * D) M1 HN ltac:(lia) E1) as [E2 M2].
    destruct (IH _ N (2 * D * 2 ^ Zpos n) M2 HN ltac:(nia) E2) as [E3 M3].
    split; [|exact M3]. rewrite E3, pow2_xI.
    replace (2 * D * 2 ^ Z.pos n * 2 ^ Z.pos n)
      with (D * (2 * (2 ^ Z.pos n * 2 ^ Z.pos n))) by ring.
    reflexivity.
  - assert (P1 : 0 < 2 ^ Zpos n) by (apply Z.pow_pos_nonneg; lia).
    destruct (IH _ N D Hm HN HD E) as [E2 M2].
    destruct (IH _ N (D * 2 ^ Zpos n) M2 HN ltac:(nia) E2) as [E3 M3].
    split; [|exact M3]. rewrite E3, pow2_xO.
    replace (D * 2 ^ Z.pos n * 2 ^ Z.pos n)
      with (D * (2 ^ Z.pos n * 2 ^ Z.pos n)) by ring.
    reflexivity.
  - destruct (shr_1_kappa r N D Hm HN HD E) as [E1 M1].
    split; [|exact M1]. rewrite E1. change (2 ^ 1) with 2.
    replace (D * 2) with (2 * D) by ring. reflexivity.
Qed.

Lemma shr_kappa : forall (r : shr_record) (e n : Z) N D,
  0 <= shr_m r -> 0 <= N -> 0 < D -> 0 <= n ->
  rkey r = kappa N D ->
  rkey (fst (shr r e n)) = kappa N (D * 2 ^ n) /\
  0 <= shr_m (fst (shr r e n)) /\
  snd (shr r e n) = e + n.
Proof.
  intros r e n N D Hm HN HD Hn E. destruct n as [|p|p]; [| |lia];
    cbn [shr fst snd].
  - rewrite Z.mul_1_r, Z.add_0_r. auto.
  - destruct (iter_shr_kappa p r N D Hm HN HD E) as [E1 M1]. auto.
Qed.

Lemma shr_nonpos : forall (r : shr_record) (e n : Z),
  n <= 0 -> shr r e n = (r, e).
Proof. intros r e [|p|p] H; [reflexivity | lia | reflexivity]. Qed.

(** ** Rounding to nearest, ties to even, on keys *)


Lemma rkey_mantissa : forall r : shr_record, shr_m r = rkey r / 4.
Proof.
  intros [m rb sb]. unfold rkey. cbn [shr_m shr_r shr_s].
  destruct rb, sb; divmod.
Qed.

Lemma rne_rkey : forall r : shr_record,
  round_nearest_even (shr_m r) (loc_of_shr_record r) = rne_key (rkey r).
Proof.
  intros [m rb sb]. unfold rkey, rne_key. cbn [shr_m shr_r shr_s].
  destruct rb, sb; cbn [loc_of_shr_record round_nearest_even].
  - replace ((4 * m + 2 + 1) / 4) with m by divmod.
    replace ((4 * m + 2 + 1) mod 4) with 3 by divmod. reflexivity.
  - replace ((4 * m + 2 + 0) / 4) with m by divmod.
    replace ((4 * m + 2 + 0) mod 4) with 2 by divmod. reflexivity.
  - replace ((4 * m + 0 + 1) / 4) with m by divmod.
    replace ((4 * m + 0 + 1) mod 4) with 1 by divmod. reflexivity.
  - replace ((4 * m + 0 + 0) / 4) with m by divmod.
    replace ((4 * m + 0 + 0) mod 4) with 0 by divmod. reflexivity.
Qed.

Lemma rne_key_bounds : forall K, K / 4 <= rne_key K <= K / 4 + 1.
Proof.
  intro K. unfold rne_key.
  destruct (K mod 4) as [|[[|?|]|[|?|]|]|?]; try destruct (Z.even _); lia.
Qed.

Lemma rne_key_mono : forall K1 K2, K1 <= K2 -> rne_key K1 <= rne_key K2.
Proof.
  intros K1 K2 H. unfold rne_key.
  pose proof (Z.div_mod K1 4 ltac:(lia)) as E1.
  pose proof (Z.div_mod K2 4 ltac:(lia)) as E2.
  pose proof (Z.mod_pos_bound K1 4 ltac:(lia)) as B1.
  pose proof (Z.mod_pos_bound K2 4 ltac:(lia)) as B2.
  remember (K1 / 4) as q1. remember (K2 / 4) as q2.
  remember (K1 mod 4) as r1. remember (K2 mod 4) as r2.
  assert (C1 : r1 = 0 \/ r1 = 1 \/ r1 = 2 \/ r1 = 3) by lia.
  assert (C2 : r2 = 0 \/ r2 = 1 \/ r2 = 2 \/ r2 = 3) by lia.
  destruct C1 as [-> | [-> | [-> | ->]]];
    destruct C2 as [-> | [-> | [-> | ->]]];
    cbv beta iota; try destruct (Z.even q1) eqn:V1;
    try destruct (Z.even q2) eqn:V2;
    first [ lia
          | assert (q1 = q2) by lia; subst q2; congruence
          | assert (q1 <> q2) by congruence; lia ].
Qed.

Lemma rkey_of_loc_exact : forall m,
  rkey (shr_record_of_loc m loc_Exact) = 4 * m.
Proof. intro m. unfold rkey. cbn. lia. Qed.

(** ** What [binary_round_aux] returns *)

Local Abbreviation fexp64 := (fexp 53 1024).

Lemma fexp64_eq : forall e, fexp64 e = Z.max (e - 53) (-1074).
Proof. reflexivity. Qed.


Lemma kappa_div : forall N D, 0 <= N -> 0 < D -> kappa N D / 4 = N / D.
Proof.
  intros N D HN HD. pose proof (kappa_range N D HN HD).
  remember (kappa N D) as K. remember (N / D) as q. clear HeqK Heqq.
  divmod.
Qed.

Lemma binary_round_aux_spec : forall s mx ex lx N D,
  0 <= mx -> 0 <= N -> 0 < D ->
  rkey (shr_record_of_loc mx lx) = kappa N D ->
  ex <= fexp64 (Zdigits2 mx + ex) ->
  binary_round_aux 53 1024 s mx ex lx
  = final s (fexp64 (Zdigits2 mx + ex))
      (kappa N (D * 2 ^ (fexp64 (Zdigits2 mx + ex) - ex))).
Proof.
  intros s mx ex lx N D Hmx HN HD EK Hn.
  set (t := fexp64 (Zdigits2 mx + ex)) in *.
  assert (Ht : -1074 <= t /\ Zdigits2 mx + ex - 53 <= t)
    by (unfold t; rewrite fexp64_eq; lia).
  unfold binary_round_aux, shr_fexp. fold t.
  assert (Hrec : 0 <= shr_m (shr_record_of_loc mx lx))
    by (destruct lx as [|[]]; exact Hmx).
  destruct (shr_kappa (shr_record_of_loc mx lx) ex (t - ex) N D
              Hrec HN HD ltac:(lia) EK) as (E1 & M1 & X1).
  destruct (shr (shr_record_of_loc mx lx) ex (t - ex)) as [r1 e1].
  cbn [fst snd] in E1, M1, X1. replace (ex + (t - ex)) with t in X1 by lia.
  subst e1. rewrite rne_rkey, E1.
  set (K := kappa N (D * 2 ^ (t - ex))) in *.
  set (r := rne_key K).
  assert (P2 : 0 < 2 ^ (t - ex)) by (apply Z.pow_pos_nonneg; lia).
  (* the shifted mantissa has 53 digits at most *)
  assert (HmxN : mx = N / D).
  { rewrite <- (kappa_div N D HN HD), <- EK, <- rkey_mantissa.
    destruct lx as [|[]]; reflexivity. }
  assert (Hms : 0 <= K / 4 < 2 ^ 53).
  { unfold K. rewrite kappa_div by nia.
    rewrite <- Z.div_div by lia. rewrite <- HmxN. split.
    - apply Z.div_pos; lia.
    - apply Z.div_lt_upper_bound; [lia|].
      destruct (Z.eq_dec mx 0) as [-> | Hnz]; [nia|].
      pose proof (Zdigits2_bounds mx ltac:(lia)) as [_ B].
      rewrite <- Z.pow_add_r by lia.
      assert (2 ^ Zdigits2 mx <= 2 ^ (t - ex + 53))
        by (apply Z.pow_le_mono_r; lia).
      lia. }
  pose proof (rne_key_bounds K) as Hr. fold r in Hr.
  unfold final. fold r. cbv zeta.
  destruct (Z.eqb_spec r (2 ^ 53)) as [Hc | Hc].
  - (* the carry *)
    rewrite Hc.
    replace (fexp64 (Zdigits2 (2 ^ 53) + t) - t) with 1
      by (change (Zdigits2 (2 ^ 53)) with 54; rewrite fexp64_eq; lia).
    cbn [shr]. change (SpecFloat.iter_pos shr_1 1 (shr_record_of_loc (2 ^ 53) loc_Exact))
      with (Build_shr_record (2 ^ 52) false false).
    cbn [shr_m]. reflexivity.
  - assert (Hr53 : 0 <= r < 2 ^ 53) by lia.
    rewrite shr_nonpos.
    + cbn [shr_record_of_loc shr_m]. reflexivity.
    + rewrite fexp64_eq.
      destruct (Z.eq_dec r 0) as [-> | Hnz]; [cbn [Zdigits2]; lia|].
      pose proof (Zdigits2_bounds r ltac:(lia)) as [B _].
      assert (Zdigits2 r - 1 < 53).
      { apply (Z.pow_lt_mono_r_iff 2); lia. }
      lia.
Qed.

(** ** The order of rounded values *)

Lemma pow2_52 : 2 ^ 52 = 4503599627370496.
Proof. reflexivity. Qed.

Lemma pow2_53 : 2 ^ 53 = 9007199254740992.
Proof. reflexivity. Qed.

Lemma pos_compare_cont_le : forall m1 m2 : positive,
  Zpos m1 <= Zpos m2 -> Pos.compare_cont Eq m1 m2 <> Gt.
Proof.
  intros m1 m2 H. change (Pos.compare_cont Eq m1 m2) with (Pos.compare m1 m2).
  rewrite Pos.compare_gt_iff. lia.
Qed.

Lemma SFleb_finite_pos : forall m1 e1 m2 e2,
  e1 < e2 \/ (e1 = e2 /\ Zpos m1 <= Zpos m2) ->
  SFleb (S754_finite false m1 e1) (S754_finite false m2 e2) = true.
Proof.
  intros m1 e1 m2 e2 H. unfold SFleb, SFcompare.
  destruct H as [H | [-> H]].
  - rewrite (proj2 (Z.compare_lt_iff e1 e2) H). reflexivity.
  - rewrite Z.compare_refl.
    pose proof (pos_compare_cont_le m1 m2 H).
    destruct (Pos.compare_cont Eq m1 m2); congruence.
Qed.

(** Rounded at the same exponent. *)
Lemma final_le_same : forall t K1 K2,
  0 <= K1 -> K1 <= K2 -> K2 / 4 < 2 ^ 53 ->
  SFleb (final false t K1) (final false t K2) = true.
Proof.
  intros t K1 K2 H1 H12 H2.
  pose proof (rne_key_mono K1 K2 H12) as Hr.
  pose proof (rne_key_bounds K1) as B1.
  pose proof (rne_key_bounds K2) as B2.
  assert (0 <= K1 / 4) by (apply Z.div_pos; lia).
  unfold final. cbv zeta.
  set (r1 := rne_key K1) in *. set (r2 := rne_key K2) in *.
  rewrite pow2_52 in *. rewrite pow2_53 in *.
  destruct (Z.eqb_spec r1 9007199254740992) as [C1 | C1];
    destruct (Z.eqb_spec r2 9007199254740992) as [C2 | C2]; try lia.
  - destruct (t + 1 <=? 971); [apply SFleb_finite_pos; lia | reflexivity].
  - destruct r1 as [|m1|m1]; [| |lia].
    + destruct (t + 1 <=? 971); reflexivity.
    + destruct (Z.leb_spec (t + 1) 971); destruct (Z.leb_spec t 971);
        try lia; try reflexivity.
      apply SFleb_finite_pos. lia.
  - destruct r1 as [|m1|m1]; [| |lia]; destruct r2 as [|m2|m2]; try lia.
    + reflexivity.
    + destruct (t <=? 971); reflexivity.
    + destruct (t <=? 971); [apply SFleb_finite_pos; lia | reflexivity].
Qed.

(** Rounded at a lower exponent than a mantissa of 53 digits. *)
Lemma final_le_next : forall t1 t2 K1 K2,
  t1 < t2 -> 0 <= K1 -> K1 / 4 < 2 ^ 53 ->
  2 ^ 52 <= K2 / 4 < 2 ^ 53 ->
  SFleb (final false t1 K1) (final false t2 K2) = true.
Proof.
  intros t1 t2 K1 K2 Ht H1 B1 B2.
  pose proof (rne_key_bounds K1) as R1.
  pose proof (rne_key_bounds K2) as R2.
  assert (0 <= K1 / 4) by (apply Z.div_pos; lia).
  unfold final. cbv zeta.
  set (r1 := rne_key K1) in *. set (r2 := rne_key K2) in *.
  rewrite pow2_52 in *. rewrite pow2_53 in *.
  destruct (Z.eqb_spec r1 9007199254740992) as [C1 | C1];
    destruct (Z.eqb_spec r2 9007199254740992) as [C2 | C2].
  - destruct (Z.leb_spec (t1 + 1) 971); destruct (Z.leb_spec (t2 + 1) 971);
      try lia; try reflexivity.
    apply SFleb_finite_pos. lia.
  - destruct r2 as [|m2|m2]; try lia.
    destruct (Z.leb_spec (t1 + 1) 971); destruct (Z.leb_spec t2 971);
      try lia; try reflexivity.
    apply SFleb_finite_pos. lia.
  - destruct r1 as [|m1|m1]; [| |lia].
    + destruct (t2 + 1 <=? 971); reflexivity.
    + destruct (Z.leb_spec t1 971); destruct (Z.leb_spec (t2 + 1) 971);
        try lia; try reflexivity.
      apply SFleb_finite_pos. lia.
  - destruct r2 as [|m2|m2]; try lia.
    destruct r1 as [|m1|m1]; [| |lia].
    + destruct (t2 <=? 971); reflexivity.
    + destruct (Z.leb_spec t1 971); destruct (Z.leb_spec t2 971);
        try lia; try reflexivity.
      apply SFleb_finite_pos. lia.
Qed.

(** The mantissa shifted to its exponent has 53 digits at most. *)
Lemma shifted_mantissa_bound : forall mx ex N D,
  0 <= mx -> 0 <= N -> 0 < D -> mx = N / D ->
  ex <= fexp64 (Zdigits2 mx + ex) ->
  0 <= kappa N (D * 2 ^ (fexp64 (Zdigits2 mx + ex) - ex)) / 4 < 2 ^ 53.
Proof.
  intros mx ex N D Hmx HN HD HmxN Hn.
  set (t := fexp64 (Zdigits2 mx + ex)) in *.
  assert (Ht : -1074 <= t /\ Zdigits2 mx + ex - 53 <= t)
    by (unfold t; rewrite fexp64_eq; lia).
  assert (P2 : 0 < 2 ^ (t - ex)) by (apply Z.pow_pos_nonneg; lia).
  rewrite kappa_div by nia.
  rewrite <- Z.div_div by lia. rewrite <- HmxN. split.
  - apply Z.div_pos; lia.
  - apply Z.div_lt_upper_bound; [lia|].
    destruct (Z.eq_dec mx 0) as [-> | Hnz]; [nia|].
    pose proof (Zdigits2_bounds mx ltac:(lia)) as [_ B].
    rewrite <- Z.pow_add_r by lia.
    assert (2 ^ Zdigits2 mx <= 2 ^ (t - ex + 53))
      by (apply Z.pow_le_mono_r; lia).
    lia.
Qed.

(** With an exponent above the least one, it has exactly 53 digits. *)
Lemma shifted_mantissa_normal : forall mx ex N D,
  0 <= mx -> 0 <= N -> 0 < D -> mx = N / D ->
  ex <= fexp64 (Zdigits2 mx + ex) ->
  -1074 < fexp64 (Zdigits2 mx + ex) ->
  2 ^ 52 <= kappa N (D * 2 ^ (fexp64 (Zdigits2 mx + ex) - ex)) / 4.
Proof.
  intros mx ex N D Hmx HN HD HmxN Hn Hnorm.
  assert (Hpos : 0 < mx).
  { destruct (Z.eq_dec mx 0) as [E | E]; [|lia]. exfalso.
    rewrite E in Hnorm, Hn. cbn [Zdigits2] in Hnorm, Hn.
    rewrite fexp64_eq in Hnorm, Hn. lia. }
  set (t := fexp64 (Zdigits2 mx + ex)) in *.
  assert (Ht : t = Zdigits2 mx + ex - 53)
    by (unfold t in *; rewrite fexp64_eq in *; lia).
  assert (P2 : 0 < 2 ^ (t - ex)) by (apply Z.pow_pos_nonneg; lia).
  rewrite kappa_div by nia.
  rewrite <- Z.div_div by lia. rewrite <- HmxN.
  pose proof (Zdigits2_bounds mx Hpos) as [B _].
  apply Z.div_le_lower_bound; [lia|].
  rewrite <- Z.pow_add_r by lia.
  replace (t - ex + 52) with (Zdigits2 mx - 1) by lia. exact B.
Qed.

(** The number of digits follows the value. *)
Lemma magnitude_le : forall m1 e1 N1 D1 m2 e2 N2 D2 e0,
  0 <= N1 -> 0 < D1 -> 0 <= N2 -> 0 < D2 ->
  m1 = N1 / D1 -> m2 = N2 / D2 -> 0 < m1 ->
  e0 <= e1 -> e0 <= e2 ->
  N1 * D2 * 2 ^ (e1 - e0) <= N2 * D1 * 2 ^ (e2 - e0) ->
  Zdigits2 m1 + e1 <= Zdigits2 m2 + e2.
Proof.
  intros m1 e1 N1 D1 m2 e2 N2 D2 e0 HN1 HD1 HN2 HD2 E1 E2 Hm1 L1 L2 H.
  pose proof (Zdigits2_bounds m1 Hm1) as [B1 _].
  pose proof (Zdigits2_pos m1 Hm1) as P1.
  pose proof (Zdigits2_nonneg m2) as P2.
  assert (A1 : 0 < 2 ^ (e1 - e0)) by (apply Z.pow_pos_nonneg; lia).
  assert (A2 : 0 < 2 ^ (e2 - e0)) by (apply Z.pow_pos_nonneg; lia).
  assert (Hm2 : m2 < 2 ^ Zdigits2 m2).
  { destruct (Z_le_gt_dec m2 0) as [Hle | Hgt].
    - assert (0 < 2 ^ Zdigits2 m2) by (apply Z.pow_pos_nonneg; lia). lia.
    - apply Zdigits2_bounds. lia. }
  assert (HQ1 : m1 * D1 <= N1).
  { rewrite E1, Z.mul_comm. apply Z.mul_div_le. lia. }
  assert (HQ2 : N2 < (m2 + 1) * D2).
  { rewrite E2. pose proof (Z.mul_succ_div_gt N2 D2 HD2). lia. }
  (* 2^(d1-1) D1 2^a1 D2 <= N1 D2 2^a1 <= N2 D1 2^a2 < 2^d2 D2 D1 2^a2 *)
  assert (S3 : 2 ^ (Zdigits2 m1 - 1) * 2 ^ (e1 - e0)
               < 2 ^ Zdigits2 m2 * 2 ^ (e2 - e0)).
  { assert (X2 : 0 < 2 ^ Zdigits2 m2) by (apply Z.pow_pos_nonneg; lia).
    assert (X1 : 0 < 2 ^ (Zdigits2 m1 - 1)) by (apply Z.pow_pos_nonneg; lia).
    remember (2 ^ (Zdigits2 m1 - 1)) as x1.
    remember (2 ^ Zdigits2 m2) as x2.
    remember (2 ^ (e1 - e0)) as a1. remember (2 ^ (e2 - e0)) as a2.
    assert (T1 : x1 * D1 <= N1) by nia.
    assert (T2 : N2 + 1 <= x2 * D2) by nia.
    assert (S1 : x1 * a1 * (D1 * D2) <= N1 * D2 * a1).
    { replace (x1 * a1 * (D1 * D2)) with (x1 * D1 * (D2 * a1)) by ring.
      replace (N1 * D2 * a1) with (N1 * (D2 * a1)) by ring.
      apply Z.mul_le_mono_nonneg_r; nia. }
    assert (S2 : N2 * D1 * a2 < x2 * a2 * (D1 * D2)).
    { replace (x2 * a2 * (D1 * D2)) with (x2 * D2 * (D1 * a2)) by ring.
      replace (N2 * D1 * a2) with (N2 * (D1 * a2)) by ring.
      apply Z.mul_lt_mono_pos_r; nia. }
    assert (S4 : x1 * a1 * (D1 * D2) < x2 * a2 * (D1 * D2)) by lia.
    apply Z.mul_lt_mono_pos_r in S4; nia. }
  rewrite <- !Z.pow_add_r in S3 by lia.
  apply Z.pow_lt_mono_r_iff in S3; lia.
Qed.

(** Rounding keeps the order of the values it rounds. *)
Lemma round_monotone : forall m1 e1 l1 N1 D1 m2 e2 l2 N2 D2 e0,
  0 <= m1 -> 0 <= N1 -> 0 < D1 ->
  rkey (shr_record_of_loc m1 l1) = kappa N1 D1 ->
  e1 <= fexp64 (Zdigits2 m1 + e1) ->
  0 <= m2 -> 0 <= N2 -> 0 < D2 ->
  rkey (shr_record_of_loc m2 l2) = kappa N2 D2 ->
  e2 <= fexp64 (Zdigits2 m2 + e2) ->
  e0 <= e1 -> e0 <= e2 ->
  N1 * D2 * 2 ^ (e1 - e0) <= N2 * D1 * 2 ^ (e2 - e0) ->
  SFleb (binary_round_aux 53 1024 false m1 e1 l1)
        (binary_round_aux 53 1024 false m2 e2 l2) = true.
Proof.
  intros m1 e1 l1 N1 D1 m2 e2 l2 N2 D2 e0
         Hm1 HN1 HD1 K1 G1 Hm2 HN2 HD2 K2 G2 L1 L2 H.
  rewrite (binary_round_aux_spec false m1 e1 l1 N1 D1 Hm1 HN1 HD1 K1 G1).
  rewrite (binary_round_aux_spec false m2 e2 l2 N2 D2 Hm2 HN2 HD2 K2 G2).
  assert (E1 : m1 = N1 / D1).
  { rewrite <- (kappa_div N1 D1 HN1 HD1), <- K1, <- rkey_mantissa.
    destruct l1 as [|[]]; reflexivity. }
  assert (E2 : m2 = N2 / D2).
  { rewrite <- (kappa_div N2 D2 HN2 HD2), <- K2, <- rkey_mantissa.
    destruct l2 as [|[]]; reflexivity. }
  pose proof (shifted_mantissa_bound m1 e1 N1 D1 Hm1 HN1 HD1 E1 G1) as B1.
  pose proof (shifted_mantissa_bound m2 e2 N2 D2 Hm2 HN2 HD2 E2 G2) as B2.
  pose proof (fun Hn => shifted_mantissa_normal m2 e2 N2 D2
                          Hm2 HN2 HD2 E2 G2 Hn) as Nm2.
  set (t1 := fexp64 (Zdigits2 m1 + e1)) in *.
  set (t2 := fexp64 (Zdigits2 m2 + e2)) in *.
  assert (T1 : -1074 <= t1) by (unfold t1; rewrite fexp64_eq; lia).
  assert (T2 : -1074 <= t2) by (unfold t2; rewrite fexp64_eq; lia).
  assert (Ht : t1 <= t2).
  { destruct (Z.eq_dec m1 0) as [Z1 | Z1].
    - assert (t1 = -1074); [|lia].
      unfold t1 in G1 |- *. rewrite Z1 in G1 |- *.
      cbn [Zdigits2] in G1 |- *. rewrite fexp64_eq in G1 |- *. lia.
    - pose proof (magnitude_le m1 e1 N1 D1 m2 e2 N2 D2 e0
                    HN1 HD1 HN2 HD2 E1 E2 ltac:(lia) L1 L2 H).
      unfold t1, t2. rewrite !fexp64_eq. lia. }
  assert (HK1 : 0 <= kappa N1 (D1 * 2 ^ (t1 - e1))).
  { assert (0 < 2 ^ (t1 - e1)) by (apply Z.pow_pos_nonneg; lia).
    pose proof (kappa_range N1 (D1 * 2 ^ (t1 - e1)) HN1 ltac:(nia)).
    assert (0 <= N1 / (D1 * 2 ^ (t1 - e1))) by (apply Z.div_pos; nia).
    lia. }
  destruct (Z.eq_dec t1 t2) as [Heq | Hne].
  - rewrite <- Heq in *. apply final_le_same; [exact HK1 | | lia].
    assert (P1 : 0 < 2 ^ (t1 - e1)) by (apply Z.pow_pos_nonneg; lia).
    assert (P2 : 0 < 2 ^ (t1 - e2)) by (apply Z.pow_pos_nonneg; lia).
    assert (A1 : 0 < 2 ^ (e1 - e0)) by (apply Z.pow_pos_nonneg; lia).
    assert (A2 : 0 < 2 ^ (e2 - e0)) by (apply Z.pow_pos_nonneg; lia).
    apply kappa_mono; try nia.
    assert (W : 2 ^ (e1 - e0) * 2 ^ (t1 - e1) = 2 ^ (e2 - e0) * 2 ^ (t1 - e2)).
    { rewrite <- !Z.pow_add_r by lia. f_equal. lia. }
    (* N1 D2 Q <= N2 D1 P, from N1 D2 A <= N2 D1 B and A P = B Q *)
    apply (Z.mul_le_mono_pos_r _ _ (2 ^ (e1 - e0) * 2 ^ (t1 - e1)));
      [nia|].
    replace (N1 * (D2 * 2 ^ (t1 - e2)) * (2 ^ (e1 - e0) * 2 ^ (t1 - e1)))
      with (N1 * D2 * 2 ^ (e1 - e0) * (2 ^ (t1 - e2) * 2 ^ (t1 - e1)))
      by ring.
    rewrite W at 1.
    replace (N2 * (D1 * 2 ^ (t1 - e1)) * (2 ^ (e2 - e0) * 2 ^ (t1 - e2)))
      with (N2 * D1 * 2 ^ (e2 - e0) * (2 ^ (t1 - e2) * 2 ^ (t1 - e1)))
      by ring.
    apply Z.mul_le_mono_nonneg_r; [nia | exact H].
  - apply final_le_next; [lia | exact HK1 | lia |].
    split; [apply Nm2; lia | lia].
Qed.

(** ** Valid floats and their order *)

Local Abbreviation valid := (SpecFloat.valid_binary 53 1024).

Lemma valid_finite : forall s m e,
  valid (S754_finite s m e) = true ->
  -1074 <= e <= 971 /\
  Zpos (digits2_pos m) <= 53 /\
  (-1074 < e -> Zpos (digits2_pos m) = 53).
Proof.
  intros s m e H. cbn [valid_binary] in H. unfold bounded in H.
  apply andb_true_iff in H. destruct H as [H1 H2].
  unfold canonical_mantissa in H1. apply Z.eqb_eq in H1.
  apply Z.leb_le in H2. rewrite fexp64_eq in H1.
  change (1024 - 53) with 971 in H2. lia.
Qed.

Lemma valid_mantissa : forall s m e,
  valid (S754_finite s m e) = true ->
  Zpos m < 2 ^ 53 /\ (-1074 < e -> 2 ^ 52 <= Zpos m).
Proof.
  intros s m e H. destruct (valid_finite s m e H) as (He & Hd & Hn).
  pose proof (digits2_pos_bounds m) as [B1 B2]. split.
  - assert (2 ^ Zpos (digits2_pos m) <= 2 ^ 53)
      by (apply Z.pow_le_mono_r; lia). lia.
  - intro Hlt. rewrite (Hn Hlt) in B1. exact B1.
Qed.

(** The order of two positive floats is that of their values. *)
Lemma SFleb_pos_value : forall m1 e1 m2 e2 e0,
  valid (S754_finite false m1 e1) = true ->
  valid (S754_finite false m2 e2) = true ->
  SFleb (S754_finite false m1 e1) (S754_finite false m2 e2) = true ->
  e0 <= e1 -> e0 <= e2 ->
  Zpos m1 * 2 ^ (e1 - e0) <= Zpos m2 * 2 ^ (e2 - e0).
Proof.
  intros m1 e1 m2 e2 e0 V1 V2 H L1 L2.
  destruct (valid_mantissa _ _ _ V1) as [U1 _].
  destruct (valid_mantissa _ _ _ V2) as [_ W2].
  destruct (valid_finite _ _ _ V1) as (R1 & _).
  unfold SFleb, SFcompare in H.
  destruct (Z.compare_spec e1 e2) as [E | E | E].
  - subst e2. assert (Zpos m1 <= Zpos m2).
    { change (Pos.compare_cont Eq m1 m2) with (Pos.compare m1 m2) in H.
      destruct (Pos.compare_spec m1 m2); first [lia | discriminate H]. }
    apply Z.mul_le_mono_nonneg_r; [|assumption].
    apply Z.pow_nonneg. lia.
  - specialize (W2 ltac:(lia)).
    assert (P1 : 0 < 2 ^ (e1 - e0)) by (apply Z.pow_pos_nonneg; lia).
    assert (P2 : 2 * 2 ^ (e1 - e0) <= 2 ^ (e2 - e0)).
    { rewrite <- Z.pow_succ_r by lia. apply Z.pow_le_mono_r; lia. }
    rewrite pow2_52 in W2. rewrite pow2_53 in U1. nia.
  - discriminate H.
Qed.

(** ** The sign of a rounded value *)


Lemma final_signed : forall s t K, 0 <= K -> has_sign s (final s t K).
Proof.
  intros s t K HK. unfold final. cbv zeta.
  pose proof (rne_key_bounds K) as B.
  assert (0 <= K / 4) by (apply Z.div_pos; lia).
  destruct (Z.eqb_spec (rne_key K) (2 ^ 53)).
  - rewrite pow2_52. destruct (t + 1 <=? 971); reflexivity.
  - destruct (rne_key K) as [|m|m]; [reflexivity | | lia].
    destruct (t <=? 971); reflexivity.
Qed.

Lemma final_opp : forall s t K,
  0 <= K -> final (negb s) t K = SFopp (final s t K).
Proof.
  intros s t K HK. unfold final. cbv zeta.
  pose proof (rne_key_bounds K) as B.
  assert (0 <= K / 4) by (apply Z.div_pos; lia).
  destruct (Z.eqb_spec (rne_key K) (2 ^ 53)).
  - rewrite pow2_52. destruct (t + 1 <=? 971); reflexivity.
  - destruct (rne_key K) as [|m|m]; [reflexivity | | lia].
    destruct (t <=? 971); reflexivity.
Qed.

Lemma signed_opposite : forall a b,
  has_sign true a -> has_sign false b -> SFleb a b = true.
Proof.
  intros [sa|sa| |sa ma ea] [sb|sb| |sb mb eb]; cbn; intros Ha Hb;
    subst; try contradiction; reflexivity.
Qed.

Lemma SFleb_opp : forall a b, SFleb (SFopp a) (SFopp b) = SFleb b a.
Proof.
  intros [sa|sa| |sa ma ea] [sb|sb| |sb mb eb];
    try destruct sa; try destruct sb; try reflexivity.
  all: cbn; rewrite (Z.compare_antisym ea eb);
    change (Pos.compare_cont Eq ma mb) with (Pos.compare ma mb);
    change (Pos.compare_cont Eq mb ma) with (Pos.compare mb ma);
    rewrite (Pos.compare_antisym ma mb);
    destruct (ea ?= eb); cbn; try reflexivity;
    destruct (ma ?= mb)%positive; reflexivity.
Qed.

Lemma SFopp_involutive : forall a, SFopp (SFopp a) = a.
Proof. intros [s|s| |s m e]; cbn; rewrite ?negb_involutive; reflexivity. Qed.

Lemma SFleb_zero_signed : forall s a,
  has_sign false a -> SFleb (S754_zero s) a = true.
Proof.
  intros s [sa|sa| |sa ma ea]; cbn; intro H; subst; try contradiction;
    reflexivity.
Qed.

Lemma SFleb_signed_infinity : forall a,
  has_sign false a -> SFleb a (S754_infinity false) = true.
Proof.
  intros [sa|sa| |sa ma ea]; cbn; intro H; subst; try contradiction;
    reflexivity.
Qed.

(** ** Multiplication *)

Local Abbreviation mul64 := (SFmul 53 1024).

Lemma kappa_1 : forall N, kappa N 1 = 4 * N.
Proof.
  intro N. unfold kappa. rewrite Z.div_1_r, Z.mod_1_r. cbn. lia.
Qed.

Lemma digits2_mul : forall m1 m2 : positive,
  Zpos (digits2_pos m1) + Zpos (digits2_pos m2) - 1
  <= Zpos (digits2_pos (m1 * m2)).
Proof.
  intros m1 m2.
  pose proof (digits2_pos_bounds m1) as [A1 _].
  pose proof (digits2_pos_bounds m2) as [A2 _].
  pose proof (digits2_pos_bounds (m1 * m2)) as [_ B].
  assert (H : 2 ^ (Zpos (digits2_pos m1) - 1 + (Zpos (digits2_pos m2) - 1))
              < 2 ^ Zpos (digits2_pos (m1 * m2))).
  { rewrite Z.pow_add_r by lia. rewrite Pos2Z.inj_mul in B.
    assert (0 < 2 ^ (Zpos (digits2_pos m1) - 1))
      by (apply Z.pow_pos_nonneg; lia).
    assert (0 < 2 ^ (Zpos (digits2_pos m2) - 1))
      by (apply Z.pow_pos_nonneg; lia).
    nia. }
  apply Z.pow_lt_mono_r_iff in H; lia.
Qed.

Lemma mul_enough_bits : forall s1 m1 e1 s2 m2 e2,
  valid (S754_finite s1 m1 e1) = true ->
  valid (S754_finite s2 m2 e2) = true ->
  e1 + e2 <= fexp64 (Zdigits2 (Zpos (m1 * m2)) + (e1 + e2)).
Proof.
  intros s1 m1 e1 s2 m2 e2 V1 V2.
  destruct (valid_finite _ _ _ V1) as (R1 & D1 & N1).
  destruct (valid_finite _ _ _ V2) as (R2 & D2 & N2).
  pose proof (digits2_mul m1 m2).
  cbn [Zdigits2]. rewrite fexp64_eq.
  assert (0 < Zpos (digits2_pos m1)) by lia.
  assert (0 < Zpos (digits2_pos m2)) by lia.
  lia.
Qed.

Lemma mul_finite : forall s1 m1 e1 s2 m2 e2,
  valid (S754_finite s1 m1 e1) = true ->
  valid (S754_finite s2 m2 e2) = true ->
  mul64 (S754_finite s1 m1 e1) (S754_finite s2 m2 e2)
  = final (xorb s1 s2)
      (fexp64 (Zdigits2 (Zpos (m1 * m2)) + (e1 + e2)))
      (kappa (Zpos (m1 * m2))
         (1 * 2 ^ (fexp64 (Zdigits2 (Zpos (m1 * m2)) + (e1 + e2))
                   - (e1 + e2)))).
Proof.
  intros s1 m1 e1 s2 m2 e2 V1 V2. cbn [SFmul].
  apply binary_round_aux_spec; try lia.
  - rewrite rkey_of_loc_exact, kappa_1. reflexivity.
  - exact (mul_enough_bits s1 m1 e1 s2 m2 e2 V1 V2).
Qed.

(** The product of a positive float with two positive floats. *)
Lemma mul_pos_monotone : forall mc ec m1 e1 m2 e2,
  valid (S754_finite false mc ec) = true ->
  valid (S754_finite false m1 e1) = true ->
  valid (S754_finite false m2 e2) = true ->
  SFleb (S754_finite false m1 e1) (S754_finite false m2 e2) = true ->
  SFleb (mul64 (S754_finite false mc ec) (S754_finite false m1 e1))
        (mul64 (S754_finite false mc ec) (S754_finite false m2 e2)) = true.
Proof.
  intros mc ec m1 e1 m2 e2 Vc V1 V2 H. cbn [SFmul xorb].
  pose proof (SFleb_pos_value m1 e1 m2 e2 (Z.min e1 e2) V1 V2 H
                ltac:(lia) ltac:(lia)) as Hv.
  apply (round_monotone _ _ _ (Zpos (mc * m1)) 1 _ _ _ (Zpos (mc * m2)) 1
           (ec + Z.min e1 e2)); try lia.
  - rewrite rkey_of_loc_exact, kappa_1. reflexivity.
  - exact (mul_enough_bits _ _ _ _ _ _ Vc V1).
  - rewrite rkey_of_loc_exact, kappa_1. reflexivity.
  - exact (mul_enough_bits _ _ _ _ _ _ Vc V2).
  - rewrite !Z.mul_1_r, !Pos2Z.inj_mul.
    replace (ec + e1 - (ec + Z.min e1 e2)) with (e1 - Z.min e1 e2) by lia.
    replace (ec + e2 - (ec + Z.min e1 e2)) with (e2 - Z.min e1 e2) by lia.
    rewrite <- !Z.mul_assoc. apply Z.mul_le_mono_nonneg_l; lia.
Qed.

Lemma mul_opp_r : forall c x, mul64 c (SFopp x) = SFopp (mul64 c x).
Proof.
  intros [sc|sc| |sc mc ec] [sx|sx| |sx mx ex]; cbn [SFmul SFopp];
    try reflexivity;
    try (destruct sc, sx; reflexivity).
  unfold binary_round_aux.
  destruct (shr_fexp 53 1024 (Z.pos (mc * mx)) (ec + ex) loc_Exact)
    as [r1 t1].
  destruct (shr_fexp 53 1024 _ t1 loc_Exact) as [r2 t2].
  destruct (shr_m r2); [| |reflexivity];
    try destruct (t2 <=? 1024 - 53); destruct sc, sx; reflexivity.
Qed.

Lemma mul_signed : forall c x sx,
  has_sign false c -> has_sign sx x ->
  valid c = true -> valid x = true ->
  mul64 c x = S754_nan \/ has_sign sx (mul64 c x).
Proof.
  intros [sc|sc| |sc mc ec] [s|s| |s mx ex] sx Hc Hx Vc Vx;
    cbn in Hc, Hx; subst; try contradiction; cbn [SFmul xorb];
    try (right; reflexivity); try (left; reflexivity).
  right. rewrite <- (Bool.xorb_false_l sx) at 2.
  change (binary_round_aux 53 1024 (xorb false sx) (Z.pos (mc * mx))
            (ec + ex) loc_Exact)
    with (mul64 (S754_finite false mc ec) (S754_finite sx mx ex)).
  rewrite (mul_finite _ _ _ _ _ _ Vc Vx). apply final_signed.
  assert (0 < 2 ^ (fexp64 (Zdigits2 (Z.pos (mc * mx)) + (ec + ex))
                   - (ec + ex))).
  { apply Z.pow_pos_nonneg; [lia|].
    pose proof (mul_enough_bits _ _ _ _ _ _ Vc Vx). lia. }
  pose proof (kappa_range (Zpos (mc * mx))
                (1 * 2 ^ (fexp64 (Zdigits2 (Z.pos (mc * mx)) + (ec + ex))
                          - (ec + ex))) ltac:(lia) ltac:(lia)).
  assert (0 <= Zpos (mc * mx)
               / (1 * 2 ^ (fexp64 (Zdigits2 (Z.pos (mc * mx)) + (ec + ex))
                           - (ec + ex)))) by (apply Z.div_pos; lia).
  lia.
Qed.

Lemma SFleb_neg_infinity : forall a,
  a <> S754_nan -> SFleb (S754_infinity true) a = true.
Proof.
  intros [sa|sa| |sa ma ea] H; try destruct sa; try reflexivity.
  congruence.
Qed.

Lemma SFleb_pos_infinity : forall a,
  a <> S754_nan -> SFleb a (S754_infinity false) = true.
Proof.
  intros [sa|sa| |sa ma ea] H; try destruct sa; try reflexivity.
  congruence.
Qed.

Lemma SFleb_signed_zero : forall s a,
  has_sign true a -> SFleb a (S754_zero s) = true.
Proof.
  intros s [sa|sa| |sa ma ea]; cbn; intro H; subst; try contradiction;
    reflexivity.
Qed.

Lemma signed_not_nan : forall s a, has_sign s a -> a <> S754_nan.
Proof. intros s a H E. subst a. exact H. Qed.

Lemma mul_comm : forall x y, mul64 x y = mul64 y x.
Proof.
  intros [sx|sx| |sx mx ex] [sy|sy| |sy my ey]; cbn [SFmul];
    rewrite ?(xorb_comm sx sy); try reflexivity.
  rewrite (Pos.mul_comm mx my), (Z.add_comm ex ey). reflexivity.
Qed.

Lemma mul_opp_l : forall c x, mul64 (SFopp c) x = SFopp (mul64 c x).
Proof.
  intros c x. rewrite mul_comm, mul_opp_r, mul_comm. reflexivity.
Qed.

(** Multiplying by a float at or above 0 keeps the order. *)
Lemma mul_nonneg_monotone : forall c x y,
  valid c = true -> valid x = true -> valid y = true ->
  SFleb (S754_zero false) c = true ->
  SFleb x y = true ->
  mul64 c x <> S754_nan -> mul64 c y <> S754_nan ->
  SFleb (mul64 c x) (mul64 c y) = true.
Proof.
  intros c x y Vc Vx Vy Hc Hxy Nx Ny.
  destruct c as [sc|sc| |sc mc ec]; try discriminate Hc.
  - (* c is a zero *)
    destruct x as [sx|sx| |sx mx ex]; destruct y as [sy|sy| |sy my ey];
      cbn [SFmul] in *; try congruence; reflexivity.
  - (* c is the infinity *)
    destruct sc; [discriminate Hc|].
    destruct x as [sx|sx| |sx mx ex]; destruct y as [sy|sy| |sy my ey];
      cbn [SFmul xorb] in *; try congruence;
      destruct sx, sy; try reflexivity; discriminate Hxy.
  - (* c is a positive number *)
    destruct sc; [discriminate Hc|].
    set (c := S754_finite false mc ec) in *.
    assert (Sc : has_sign false c) by reflexivity.
    assert (Hs : forall s m e, valid (S754_finite s m e) = true ->
                 has_sign s (mul64 c (S754_finite s m e))).
    { intros s m e V.
      destruct (mul_signed c (S754_finite s m e) s Sc eq_refl Vc V)
        as [E | S]; [|exact S].
      exfalso. unfold c in E. rewrite (mul_finite _ _ _ _ _ _ Vc V) in E.
      refine (signed_not_nan _ _ (final_signed _ _ _ _) E).
      assert (0 < 2 ^ (fexp64 (Zdigits2 (Z.pos (mc * m)) + (ec + e))
                       - (ec + e))).
      { apply Z.pow_pos_nonneg; [lia|].
        pose proof (mul_enough_bits _ _ _ _ _ _ Vc V). lia. }
      pose proof (kappa_range (Zpos (mc * m))
                    (1 * 2 ^ (fexp64 (Zdigits2 (Z.pos (mc * m)) + (ec + e))
                              - (ec + e))) ltac:(lia) ltac:(lia)).
      assert (0 <= Zpos (mc * m)
                   / (1 * 2 ^ (fexp64 (Zdigits2 (Z.pos (mc * m)) + (ec + e))
                               - (ec + e)))) by (apply Z.div_pos; lia).
      lia. }
    destruct x as [sx|sx| |sx mx ex]; destruct y as [sy|sy| |sy my ey];
      try discriminate Hxy.
    + reflexivity.
    + destruct sy; [destruct sx; discriminate Hxy|]. cbn [SFmul xorb].
      unfold c. cbn [SFmul xorb]. reflexivity.
    + destruct sy; [destruct sx; discriminate Hxy|].
      change (mul64 c (S754_zero sx)) with (S754_zero sx).
      apply SFleb_zero_signed. apply Hs. exact Vy.
    + destruct sx; [|destruct sy; discriminate Hxy]. reflexivity.
    + destruct sx, sy; try discriminate Hxy; reflexivity.
    + destruct sx; [|destruct sy; discriminate Hxy].
      change (mul64 c (S754_infinity true)) with (S754_infinity true).
      apply SFleb_neg_infinity. exact Ny.
    + destruct sx; [|destruct sy; discriminate Hxy].
      change (mul64 c (S754_zero sy)) with (S754_zero sy).
      apply SFleb_signed_zero. apply (Hs true). exact Vx.
    + destruct sy; [destruct sx; discriminate Hxy|].
      change (mul64 c (S754_infinity false)) with (S754_infinity false).
      apply SFleb_pos_infinity. exact Nx.
    + destruct sx, sy.
      * change (S754_finite true mx ex)
          with (SFopp (S754_finite false mx ex)) in *.
        change (S754_finite true my ey)
          with (SFopp (S754_finite false my ey)) in *.
        rewrite !mul_opp_r, SFleb_opp. rewrite SFleb_opp in Hxy.
        apply mul_pos_monotone; assumption.
      * apply signed_opposite; [apply (Hs true) | apply (Hs false)];
          assumption.
      * discriminate Hxy.
      * apply mul_pos_monotone; assumption.
Qed.

(** ** Division *)

Local Abbreviation div64 := (SFdiv 53 1024).


Lemma div_exponent_le : forall m1 e1 m2 e2,
  div_exponent m1 e1 m2 e2 <= e1 - e2.
Proof. intros. unfold div_exponent. lia. Qed.

Lemma div_numerator_pos : forall m1 e1 m2 e2,
  0 < div_numerator m1 e1 m2 e2.
Proof.
  intros. unfold div_numerator.
  pose proof (div_exponent_le m1 e1 m2 e2).
  assert (0 < 2 ^ (e1 - e2 - div_exponent m1 e1 m2 e2))
    by (apply Z.pow_pos_nonneg; lia).
  lia.
Qed.

Lemma new_location_key : forall D r q,
  0 < D -> 0 <= r < D ->
  rkey (shr_record_of_loc q (new_location D r))
  = 4 * q + (if r =? 0 then 0
             else match 2 * r ?= D with Lt => 1 | Eq => 2 | Gt => 3 end).
Proof.
  intros D r q HD Hr. unfold new_location, new_location_even,
    new_location_odd.
  destruct (Z.even D) eqn:Ev.
  - destruct (Z.eqb_spec r 0) as [-> | Hnz]; [unfold rkey; cbn; lia|].
    destruct (2 * r ?= D); unfold rkey; cbn; lia.
  - destruct (Z.eqb_spec r 0) as [-> | Hnz]; [unfold rkey; cbn; lia|].
    assert (Hodd : Z.odd D = true) by (rewrite <- Z.negb_even, Ev; reflexivity).
    apply Z.odd_spec in Hodd. destruct Hodd as [k Hk].
    destruct (Z.compare_spec (2 * r + 1) D) as [C | C | C];
      destruct (Z.compare_spec (2 * r) D) as [C' | C' | C'];
      try lia; unfold rkey; cbn; lia.
Qed.

Lemma div_core_spec : forall m1 e1 m2 e2,
  exists l,
    SFdiv_core_binary 53 1024 (Zpos m1) e1 (Zpos m2) e2
    = (div_numerator m1 e1 m2 e2 / Zpos m2, div_exponent m1 e1 m2 e2, l) /\
    rkey (shr_record_of_loc (div_numerator m1 e1 m2 e2 / Zpos m2) l)
    = kappa (div_numerator m1 e1 m2 e2) (Zpos m2).
Proof.
  intros m1 e1 m2 e2. unfold SFdiv_core_binary. cbn [Zdigits2].
  fold (div_exponent m1 e1 m2 e2).
  pose proof (div_exponent_le m1 e1 m2 e2) as Hs.
  set (e' := div_exponent m1 e1 m2 e2) in *.
  set (m' := match e1 - e2 - e' with
             | 0 => Zpos m1
             | Zpos _ => Z.shiftl (Zpos m1) (e1 - e2 - e')
             | Zneg _ => 0
             end).
  assert (Hm' : m' = div_numerator m1 e1 m2 e2).
  { unfold m', div_numerator. fold e'.
    destruct (e1 - e2 - e') as [|p|p] eqn:E; [cbn; lia | | lia].
    rewrite Z.shiftl_mul_pow2 by lia. reflexivity. }
  rewrite Hm'. set (N := div_numerator m1 e1 m2 e2).
  pose proof (Z.mod_pos_bound N (Zpos m2) ltac:(lia)) as Hr.
  destruct (Z.div_eucl N (Zpos m2)) as [q r] eqn:E.
  assert (Hq : q = N / Zpos m2) by (unfold Z.div; rewrite E; reflexivity).
  assert (Hrm : r = N mod Zpos m2)
    by (unfold Z.modulo; rewrite E; reflexivity).
  exists (new_location (Zpos m2) r). rewrite <- Hq. split; [reflexivity|].
  rewrite new_location_key by lia.
  unfold kappa. rewrite <- Hq, <- Hrm. reflexivity.
Qed.

Lemma div_enough_bits : forall s1 m1 e1 s2 m2 e2,
  valid (S754_finite s1 m1 e1) = true ->
  valid (S754_finite s2 m2 e2) = true ->
  div_exponent m1 e1 m2 e2
  <= fexp64 (Zdigits2 (div_numerator m1 e1 m2 e2 / Zpos m2)
             + div_exponent m1 e1 m2 e2).
Proof.
  intros s1 m1 e1 s2 m2 e2 V1 V2.
  destruct (valid_finite _ _ _ V1) as (R1 & D1 & _).
  destruct (valid_finite _ _ _ V2) as (R2 & D2 & _).
  pose proof (digits2_pos_bounds m1) as [A1 _].
  pose proof (digits2_pos_bounds m2) as [_ A2].
  set (d1 := Zpos (digits2_pos m1)) in *.
  set (d2 := Zpos (digits2_pos m2)) in *.
  assert (0 < d1) by (unfold d1; lia). assert (0 < d2) by (unfold d2; lia).
  unfold div_numerator.
  set (e' := div_exponent m1 e1 m2 e2).
  assert (He' : e' = Z.min (fexp64 (d1 + e1 - (d2 + e2))) (e1 - e2))
    by reflexivity.
  rewrite fexp64_eq in He'. rewrite fexp64_eq.
  destruct (Z_le_gt_dec e' (-1074)) as [Hlow | Hhigh]; [lia|].
  (* the exponent is that of a quotient of 53 digits *)
  assert (E : e' = d1 + e1 - (d2 + e2) - 53) by lia.
  assert (Hsh : e1 - e2 - e' = d2 - d1 + 53) by lia.
  rewrite Hsh.
  set (q := Zpos m1 * 2 ^ (d2 - d1 + 53) / Zpos m2).
  assert (Hq : 2 ^ 52 <= q).
  { unfold q. apply Z.div_le_lower_bound; [lia|].
    assert (X : 2 ^ 52 * 2 ^ d2 <= Zpos m1 * 2 ^ (d2 - d1 + 53)).
    { replace (2 ^ 52 * 2 ^ d2) with (2 ^ (d1 - 1) * 2 ^ (d2 - d1 + 53)).
      - apply Z.mul_le_mono_nonneg_r; [apply Z.pow_nonneg; lia | exact A1].
      - rewrite <- !Z.pow_add_r by lia. f_equal. lia. }
    assert (0 < 2 ^ 52) by reflexivity. nia. }
  assert (Hd : 53 <= Zdigits2 q).
  { pose proof (Zdigits2_bounds q ltac:(rewrite pow2_52 in Hq; lia)) as [_ B].
    assert (2 ^ 52 < 2 ^ Zdigits2 q) by lia.
    apply Z.pow_lt_mono_r_iff in H1; [lia | lia | apply Zdigits2_nonneg]. }
  lia.
Qed.

Lemma div_finite : forall s1 m1 e1 s2 m2 e2,
  valid (S754_finite s1 m1 e1) = true ->
  valid (S754_finite s2 m2 e2) = true ->
  div64 (S754_finite s1 m1 e1) (S754_finite s2 m2 e2)
  = final (xorb s1 s2)
      (fexp64 (Zdigits2 (div_numerator m1 e1 m2 e2 / Zpos m2)
               + div_exponent m1 e1 m2 e2))
      (kappa (div_numerator m1 e1 m2 e2)
         (Zpos m2
          * 2 ^ (fexp64 (Zdigits2 (div_numerator m1 e1 m2 e2 / Zpos m2)
                         + div_exponent m1 e1 m2 e2)
                 - div_exponent m1 e1 m2 e2))).
Proof.
  intros s1 m1 e1 s2 m2 e2 V1 V2. cbn [SFdiv].
  destruct (div_core_spec m1 e1 m2 e2) as (l & -> & K).
  pose proof (div_numerator_pos m1 e1 m2 e2).
  apply (binary_round_aux_spec _ _ _ _ (div_numerator m1 e1 m2 e2) (Zpos m2)).
  - apply Z.div_pos; lia.
  - lia.
  - lia.
  - exact K.
  - exact (div_enough_bits s1 m1 e1 s2 m2 e2 V1 V2).
Qed.

(** The quotients of two positive floats by a positive float. *)
Lemma div_pos_monotone : forall mc ec m1 e1 m2 e2,
  valid (S754_finite false mc ec) = true ->
  valid (S754_finite false m1 e1) = true ->
  valid (S754_finite false m2 e2) = true ->
  SFleb (S754_finite false m1 e1) (S754_finite false m2 e2) = true ->
  SFleb (div64 (S754_finite false m1 e1) (S754_finite false mc ec))
        (div64 (S754_finite false m2 e2) (S754_finite false mc ec)) = true.
Proof.
  intros mc ec m1 e1 m2 e2 Vc V1 V2 H. cbn [SFdiv xorb].
  destruct (div_core_spec m1 e1 mc ec) as (l1 & -> & K1).
  destruct (div_core_spec m2 e2 mc ec) as (l2 & -> & K2).
  pose proof (div_numerator_pos m1 e1 mc ec) as P1.
  pose proof (div_numerator_pos m2 e2 mc ec) as P2.
  pose proof (div_exponent_le m1 e1 mc ec) as L1.
  pose proof (div_exponent_le m2 e2 mc ec) as L2.
  set (e0 := Z.min (div_exponent m1 e1 mc ec) (div_exponent m2 e2 mc ec)).
  pose proof (SFleb_pos_value m1 e1 m2 e2 (ec + e0) V1 V2 H
                ltac:(lia) ltac:(lia)) as Hv.
  apply (round_monotone _ _ _ (div_numerator m1 e1 mc ec) (Zpos mc)
           _ _ _ (div_numerator m2 e2 mc ec) (Zpos mc) e0);
    [ apply Z.div_pos; lia | lia | lia | exact K1
    | exact (div_enough_bits _ _ _ _ _ _ V1 Vc)
    | apply Z.div_pos; lia | lia | lia | exact K2
    | exact (div_enough_bits _ _ _ _ _ _ V2 Vc)
    | unfold e0; lia | unfold e0; lia | ].
  - unfold div_numerator.
    replace (Zpos m1 * 2 ^ (e1 - ec - div_exponent m1 e1 mc ec) * Zpos mc
             * 2 ^ (div_exponent m1 e1 mc ec - e0))
      with (Zpos m1 * 2 ^ (e1 - (ec + e0)) * Zpos mc).
    + replace (Zpos m2 * 2 ^ (e2 - ec - div_exponent m2 e2 mc ec) * Zpos mc
               * 2 ^ (div_exponent m2 e2 mc ec - e0))
        with (Zpos m2 * 2 ^ (e2 - (ec + e0)) * Zpos mc).
      * apply Z.mul_le_mono_nonneg_r; lia.
      * replace (e2 - (ec + e0))
          with ((e2 - ec - div_exponent m2 e2 mc ec)
                + (div_exponent m2 e2 mc ec - e0)) by lia.
        rewrite Z.pow_add_r by lia. ring.
    + replace (e1 - (ec + e0))
        with ((e1 - ec - div_exponent m1 e1 mc ec)
              + (div_exponent m1 e1 mc ec - e0)) by lia.
      rewrite Z.pow_add_r by lia. ring.
Qed.

Lemma div_opp_l : forall x c, div64 (SFopp x) c = SFopp (div64 x c).
Proof.
  intros [sx|sx| |sx mx ex] [sc|sc| |sc mc ec]; cbn [SFdiv SFopp];
    try reflexivity;
    try (destruct sc, sx; reflexivity).
  destruct (SFdiv_core_binary 53 1024 (Z.pos mx) ex (Z.pos mc) ec)
    as [[mz ez] lz].
  unfold binary_round_aux.
  destruct (shr_fexp 53 1024 mz ez lz) as [r1 t1].
  destruct (shr_fexp 53 1024 _ t1 loc_Exact) as [r2 t2].
  destruct (shr_m r2); [| |reflexivity];
    try destruct (t2 <=? 1024 - 53); destruct sc, sx; reflexivity.
Qed.

Lemma div_finite_signed : forall s m e mc ec,
  valid (S754_finite s m e) = true ->
  valid (S754_finite false mc ec) = true ->
  has_sign s (div64 (S754_finite s m e) (S754_finite false mc ec)).
Proof.
  intros s m e mc ec V Vc. rewrite (div_finite _ _ _ _ _ _ V Vc).
  rewrite Bool.xorb_false_r. apply final_signed.
  pose proof (div_numerator_pos m e mc ec).
  pose proof (div_enough_bits _ _ _ _ _ _ V Vc).
  set (t := fexp64 _) in *.
  assert (0 < 2 ^ (t - div_exponent m e mc ec))
    by (apply Z.pow_pos_nonneg; lia).
  pose proof (kappa_range (div_numerator m e mc ec)
                (Zpos mc * 2 ^ (t - div_exponent m e mc ec))
                ltac:(lia) ltac:(lia)).
  assert (0 <= div_numerator m e mc ec
               / (Zpos mc * 2 ^ (t - div_exponent m e mc ec)))
    by (apply Z.div_pos; lia).
  lia.
Qed.

(** Dividing by a float above 0 keeps the order. *)
Lemma div_pos_monotone_all : forall c x y,
  valid c = true -> valid x = true -> valid y = true ->
  SFleb (S754_zero false) c = true ->
  SFeqb c (S754_zero false) = false ->
  SFleb x y = true ->
  div64 x c <> S754_nan -> div64 y c <> S754_nan ->
  SFleb (div64 x c) (div64 y c) = true.
Proof.
  intros c x y Vc Vx Vy Hc Hnz Hxy Nx Ny.
  destruct c as [sc|sc| |sc mc ec]; try discriminate Hc;
    try discriminate Hnz.
  - (* c is the infinity *)
    destruct sc; [discriminate Hc|].
    destruct x as [sx|sx| |sx mx ex]; destruct y as [sy|sy| |sy my ey];
      cbn [SFdiv xorb] in *; try congruence; reflexivity.
  - (* c is a positive number *)
    destruct sc; [discriminate Hc|].
    set (c := S754_finite false mc ec) in *.
    pose proof (fun s m e V => div_finite_signed s m e mc ec V Vc) as Hs.
    fold c in Hs.
    destruct x as [sx|sx| |sx mx ex]; destruct y as [sy|sy| |sy my ey];
      try discriminate Hxy.
    + reflexivity.
    + destruct sy; [destruct sx; discriminate Hxy|].
      unfold c. cbn [SFdiv xorb]. destruct sx; reflexivity.
    + destruct sy; [destruct sx; discriminate Hxy|].
      change (div64 (S754_zero sx) c) with (S754_zero (xorb sx false)).
      apply SFleb_zero_signed. apply Hs. exact Vy.
    + destruct sx; [|destruct sy; discriminate Hxy]. 
      unfold c. cbn [SFdiv xorb]. destruct sy; reflexivity.
    + destruct sx, sy; try discriminate Hxy; reflexivity.
    + destruct sx; [|destruct sy; discriminate Hxy].
      change (div64 (S754_infinity true) c) with (S754_infinity true).
      apply SFleb_neg_infinity. exact Ny.
    + destruct sx; [|destruct sy; discriminate Hxy].
      change (div64 (S754_zero sy) c) with (S754_zero (xorb sy false)).
      apply SFleb_signed_zero. apply (Hs true). exact Vx.
    + destruct sy; [destruct sx; discriminate Hxy|].
      change (div64 (S754_infinity false) c) with (S754_infinity false).
      apply SFleb_pos_infinity. exact Nx.
    + destruct sx, sy.
      * change (S754_finite true mx ex)
          with (SFopp (S754_finite false mx ex)) in *.
        change (S754_finite true my ey)
          with (SFopp (S754_finite false my ey)) in *.
        rewrite !div_opp_l, SFleb_opp. rewrite SFleb_opp in Hxy.
        apply div_pos_monotone; assumption.
      * apply signed_opposite; [apply (Hs true) | apply (Hs false)];
          assumption.
      * discriminate Hxy.
      * apply div_pos_monotone; assumption.
Qed.

(** ** The order *)

Lemma SFleb_refl : forall a, a <> S754_nan -> SFleb a a = true.
Proof.
  intros [s|s| |s m e] H; try destruct s; try reflexivity; try congruence.
  all: cbn; rewrite Z.compare_refl;
    change (Pos.compare_cont Eq m m) with (Pos.compare m m);
    rewrite Pos.compare_refl; reflexivity.
Qed.

Lemma SFleb_not_nan : forall a b,
  SFleb a b = true -> a <> S754_nan /\ b <> S754_nan.
Proof.
  intros [sa|sa| |sa ma ea] [sb|sb| |sb mb eb] H; try discriminate H;
    split; discriminate.
Qed.

Ltac compare_cases :=
  repeat match goal with
         | H : context [Pos.compare_cont Eq ?a ?b] |- _ =>
             change (Pos.compare_cont Eq a b) with (Pos.compare a b) in H
         | |- context [Pos.compare_cont Eq ?a ?b] =>
             change (Pos.compare_cont Eq a b) with (Pos.compare a b)
         end;
  repeat match goal with
         | H : context [Z.compare ?a ?b] |- _ =>
             destruct (Z.compare_spec a b)
         | |- context [Z.compare ?a ?b] =>
             destruct (Z.compare_spec a b)
         | H : context [Pos.compare ?a ?b] |- _ =>
             destruct (Pos.compare_spec a b)
         | |- context [Pos.compare ?a ?b] =>
             destruct (Pos.compare_spec a b)
         end;
  cbn in *; try reflexivity; try discriminate; try lia.

Lemma SFleb_total : forall a b,
  a <> S754_nan -> b <> S754_nan -> SFleb a b = true \/ SFleb b a = true.
Proof.
  intros [sa|sa| |sa ma ea] [sb|sb| |sb mb eb] Ha Hb; try congruence;
    try destruct sa; try destruct sb; cbn;
    try (left; reflexivity); try (right; reflexivity).
  all: unfold SFleb, SFcompare;
    change (Pos.compare_cont Eq ma mb) with (Pos.compare ma mb);
    change (Pos.compare_cont Eq mb ma) with (Pos.compare mb ma);
    rewrite (Z.compare_antisym ea eb), (Pos.compare_antisym ma mb);
    destruct (ea ?= eb); cbn; auto;
    destruct (ma ?= mb)%positive; cbn; auto.
Qed.

Lemma SFleb_trans : forall a b c,
  SFleb a b = true -> SFleb b c = true -> SFleb a c = true.
Proof.
  intros [sa|sa| |sa ma ea] [sb|sb| |sb mb eb] [sc|sc| |sc mc ec];
    try destruct sa; try destruct sb; try destruct sc;
    intros H1 H2; try discriminate H1; try discriminate H2;
    try reflexivity.
  all: unfold SFleb, SFcompare in *; compare_cases.
Qed.

Lemma SFleb_zero_sign : forall s a,
  SFleb (S754_zero s) a = SFleb (S754_zero false) a.
Proof. intros s [sa|sa| |sa ma ea]; reflexivity. Qed.

Lemma SFleb_sign_zero : forall s a,
  SFleb a (S754_zero s) = SFleb a (S754_zero false).
Proof. intros s [sa|sa| |sa ma ea]; reflexivity. Qed.

Lemma opp_nonneg : forall a,
  SFleb (S754_zero false) a = true -> SFleb (SFopp a) (S754_zero false) = true.
Proof.
  intros a H.
  change (S754_zero false) with (SFopp (S754_zero true)) at 1.
  rewrite SFleb_opp. rewrite SFleb_zero_sign. exact H.
Qed.

Lemma opp_nonpos : forall a,
  SFleb a (S754_zero false) = true -> SFleb (S754_zero false) (SFopp a) = true.
Proof.
  intros a H.
  change (S754_zero false) with (SFopp (S754_zero true)) at 1.
  rewrite SFleb_opp. rewrite SFleb_sign_zero. exact H.
Qed.

Lemma mul_not_nan : forall a b,
  mul64 a b <> S754_nan -> a <> S754_nan /\ b <> S754_nan.
Proof.
  intros [sa|sa| |sa ma ea] [sb|sb| |sb mb eb] H; cbn [SFmul] in H;
    split; congruence.
Qed.

Lemma div_not_nan : forall a b, div64 a b <> S754_nan -> a <> S754_nan.
Proof.
  intros [sa|sa| |sa ma ea] [sb|sb| |sb mb eb] H; cbn [SFdiv] in H;
    congruence.
Qed.

(** ** The integer part *)


Lemma floor_finite : forall (s : bool) m e e0,
  e0 <= e -> e0 <= 0 ->
  PyFloat.floor_spec (S754_finite s m e)
  = ((if s then Z.neg m else Z.pos m) * 2 ^ (e - e0)) / 2 ^ (- e0).
Proof.
  intros s m e e0 H1 H2. cbn [PyFloat.floor_spec]. cbv zeta.
  set (n := if s then Z.neg m else Z.pos m).
  assert (P0 : 0 < 2 ^ (- e0)) by (apply Z.pow_pos_nonneg; lia).
  destruct (Z.leb_spec 0 e).
  - replace (e - e0) with (e + - e0) by lia.
    rewrite Z.pow_add_r by lia. rewrite Z.mul_assoc.
    rewrite Z.div_mul by lia. reflexivity.
  - replace (- e0) with ((- e) + (e - e0)) by lia.
    rewrite Z.pow_add_r by lia.
    assert (0 < 2 ^ (e - e0)) by (apply Z.pow_pos_nonneg; lia).
    assert (0 < 2 ^ (- e)) by (apply Z.pow_pos_nonneg; lia).
    rewrite Z.div_mul_cancel_r by lia. reflexivity.
Qed.

Lemma floor_monotone : forall a b,
  valid a = true -> valid b = true ->
  SFleb a b = true ->
  match a with S754_infinity _ => False | _ => True end ->
  match b with S754_infinity _ => False | _ => True end ->
  PyFloat.floor_spec a <= PyFloat.floor_spec b.
Proof.
  intros a b Va Vb H Fa Fb.
  assert (Hpos : forall m e, 0 <= PyFloat.floor_spec (S754_finite false m e)).
  { intros m e. cbn [PyFloat.floor_spec]. cbv zeta.
    destruct (Z.leb_spec 0 e).
    - assert (0 <= 2 ^ e) by (apply Z.pow_nonneg; lia). lia.
    - apply Z.div_pos; [lia|]. apply Z.pow_pos_nonneg; lia. }
  assert (Hneg : forall m e, PyFloat.floor_spec (S754_finite true m e) <= 0).
  { intros m e. cbn [PyFloat.floor_spec]. cbv zeta.
    destruct (Z.leb_spec 0 e).
    - assert (0 <= 2 ^ e) by (apply Z.pow_nonneg; lia). lia.
    - assert (0 < 2 ^ (- e)) by (apply Z.pow_pos_nonneg; lia).
      apply Z.div_le_upper_bound; lia. }
  destruct a as [sa|sa| |sa ma ea]; destruct b as [sb|sb| |sb mb eb];
    try contradiction; try discriminate H.
  - reflexivity.
  - destruct sb; [destruct sa; discriminate H|]. apply Hpos.
  - destruct sa; [|destruct sb; discriminate H]. apply Hneg.
  - destruct sa, sb.
    + change (S754_finite true ma ea)
        with (SFopp (S754_finite false ma ea)) in H.
      change (S754_finite true mb eb)
        with (SFopp (S754_finite false mb eb)) in H.
      rewrite SFleb_opp in H.
      pose proof (SFleb_pos_value mb eb ma ea (Z.min (Z.min ea eb) 0)
                    Vb Va H ltac:(lia) ltac:(lia)) as Hv.
      rewrite (floor_finite true ma ea (Z.min (Z.min ea eb) 0)) by lia.
      rewrite (floor_finite true mb eb (Z.min (Z.min ea eb) 0)) by lia.
      apply Z.div_le_mono; [apply Z.pow_pos_nonneg; lia|].
      rewrite <- !Pos2Z.opp_pos. lia.
    + transitivity 0; [apply Hneg | apply Hpos].
    + discriminate H.
    + pose proof (SFleb_pos_value ma ea mb eb (Z.min (Z.min ea eb) 0)
                    Va Vb H ltac:(lia) ltac:(lia)) as Hv.
      rewrite (floor_finite false ma ea (Z.min (Z.min ea eb) 0)) by lia.
      rewrite (floor_finite false mb eb (Z.min (Z.min ea eb) 0)) by lia.
      apply Z.div_le_mono; [apply Z.pow_pos_nonneg; lia|]. exact Hv.
Qed.

(** ** The sign of a product, and the product by 1 *)

Lemma nonneg_cases : forall a,
  SFleb (S754_zero false) a = true ->
  (exists s, a = S754_zero s) \/ has_sign false a.
Proof.
  intros [s|s| |s m e] H; try discriminate H.
  - left. exists s. reflexivity.
  - destruct s; [discriminate H | right; reflexivity].
  - destruct s; [discriminate H | right; reflexivity].
Qed.

Lemma nonpos_cases : forall a,
  SFleb a (S754_zero false) = true ->
  (exists s, a = S754_zero s) \/ has_sign true a.
Proof.
  intros [s|s| |s m e] H; try discriminate H.
  - left. exists s. reflexivity.
  - destruct s; [right; reflexivity | discriminate H].
  - destruct s; [right; reflexivity | discriminate H].
Qed.

Lemma mul_zero_l : forall s x,
  mul64 (S754_zero s) x <> S754_nan -> exists s', mul64 (S754_zero s) x = S754_zero s'.
Proof.
  intros s [sx|sx| |sx mx ex] H; cbn [SFmul] in *; try congruence;
    eexists; reflexivity.
Qed.

(** A product of two floats at or above 0 is at or above 0. *)
Lemma mul_sign_nonneg : forall x y,
  valid x = true -> valid y = true ->
  SFleb (S754_zero false) x = true -> SFleb (S754_zero false) y = true ->
  mul64 x y <> S754_nan ->
  SFleb (S754_zero false) (mul64 x y) = true.
Proof.
  intros x y Vx Vy Hx Hy N.
  destruct (nonneg_cases x Hx) as [[s ->] | Sx].
  { destruct (mul_zero_l s y N) as [s' ->]. reflexivity. }
  destruct (nonneg_cases y Hy) as [[s ->] | Sy].
  { rewrite mul_comm in N |- *.
    destruct (mul_zero_l s x N) as [s' ->]. reflexivity. }
  destruct (mul_signed x y false Sx Sy Vx Vy) as [E | S]; [contradiction|].
  apply SFleb_zero_signed. exact S.
Qed.

(** A product of a float at or below 0 by one at or above 0 is at or
    below 0. *)
Lemma mul_sign_nonpos : forall x y,
  valid x = true -> valid y = true ->
  SFleb x (S754_zero false) = true -> SFleb (S754_zero false) y = true ->
  mul64 x y <> S754_nan ->
  SFleb (mul64 x y) (S754_zero false) = true.
Proof.
  intros x y Vx Vy Hx Hy N.
  destruct (nonpos_cases x Hx) as [[s ->] | Sx].
  { destruct (mul_zero_l s y N) as [s' ->]. reflexivity. }
  destruct (nonneg_cases y Hy) as [[s ->] | Sy].
  { rewrite mul_comm in N |- *.
    destruct (mul_zero_l s x N) as [s' ->]. reflexivity. }
  rewrite mul_comm in N |- *.
  destruct (mul_signed y x true Sy Sx Vy Vx) as [E | S]; [contradiction|].
  apply SFleb_signed_zero. exact S.
Qed.

Lemma digits2_shift : forall (m : positive) (n : Z),
  0 <= n -> Zdigits2 (Zpos m * 2 ^ n) = Zpos (digits2_pos m) + n.
Proof.
  intros m n Hn. pose proof (digits2_pos_bounds m) as [B1 B2].
  assert (P : 0 < 2 ^ n) by (apply Z.pow_pos_nonneg; lia).
  apply Zdigits2_unique; [|lia].
  replace (Zpos (digits2_pos m) + n - 1)
    with (Zpos (digits2_pos m) - 1 + n) by ring.
  rewrite !Z.pow_add_r by lia. nia.
Qed.

Lemma kappa_exact : forall q D, 0 < D -> kappa (q * D) D = 4 * q.
Proof.
  intros q D HD. unfold kappa.
  rewrite Z.div_mul, Z.mod_mul by lia. cbn. lia.
Qed.

Lemma rne_key_exact : forall q, rne_key (4 * q) = q.
Proof.
  intro q. unfold rne_key.
  replace (4 * q / 4) with q by divmod.
  replace ((4 * q) mod 4) with 0 by divmod. reflexivity.
Qed.

(** Multiplying by 1 does not round. *)
Lemma mul_one_r : forall x, valid x = true -> mul64 x one = x.
Proof.
  intros [s|s| |s m e] V; unfold one; cbn [SFmul];
    rewrite ?xorb_false_r; try reflexivity.
  change (binary_round_aux 53 1024 s (Z.pos (m * 4503599627370496))
            (e + -52) loc_Exact)
    with (binary_round_aux 53 1024 s (Z.pos (m * 4503599627370496))
            (e - 52) loc_Exact).
  destruct (valid_finite _ _ _ V) as (R & Dg & Nm).
  destruct (valid_mantissa _ _ _ V) as (M1 & M2).
  assert (ED : Zdigits2 (Z.pos (m * 4503599627370496))
               = Zpos (digits2_pos m) + 52).
  { rewrite Pos2Z.inj_mul. rewrite <- pow2_52.
    apply digits2_shift. lia. }
  assert (Et : fexp64 (Zdigits2 (Z.pos (m * 4503599627370496)) + (e - 52)) = e).
  { rewrite ED, fexp64_eq. lia. }
  rewrite (binary_round_aux_spec s (Z.pos (m * 4503599627370496)) (e - 52)
             loc_Exact (Z.pos (m * 4503599627370496)) 1);
    [ | lia | lia | lia
      | rewrite rkey_of_loc_exact, kappa_1; reflexivity
      | rewrite Et; lia ].
  rewrite Et. replace (e - (e - 52)) with 52 by ring.
  rewrite Z.mul_1_l, Pos2Z.inj_mul, <- pow2_52.
  rewrite kappa_exact by (rewrite pow2_52; lia).
  unfold final. cbv zeta. rewrite rne_key_exact.
  destruct (Z.eqb_spec (Z.pos m) (2 ^ 53)) as [E | _]; [lia|].
  destruct (Z.leb_spec e 971); [reflexivity | lia].
Qed.

End IEEEFacts.

(* ================================================================== *)
(** * Python's floats *)
(* ================================================================== *)

Section PythonFloats.

Local Abbreviation valid := (SpecFloat.valid_binary 53 1024).

Lemma Prim2SF_zero : Prim2SF 0%float = S754_zero false.
Proof. reflexivity. Qed.

Lemma SFeqb_refl : forall a, SFeqb a a = true <-> a <> S754_nan.
Proof.
  intros [s|s| |s m e]; unfold SFeqb; cbn.
  - split; [discriminate | reflexivity].
  - destruct s; (split; [discriminate | reflexivity]).
  - split; [discriminate | congruence].
  - rewrite Z.compare_refl.
    change (Pos.compare_cont Eq m m) with (Pos.compare m m).
    rewrite Pos.compare_refl.
    destruct s; (split; [discriminate | reflexivity]).
Qed.

Lemma is_nan_SF : forall x,
  PrimFloat.is_nan x = true <-> Prim2SF x = S754_nan.
Proof.
  intro x. unfold PrimFloat.is_nan. rewrite FloatAxioms.eqb_spec.
  pose proof (SFeqb_refl (Prim2SF x)) as H.
  destruct (SFeqb (Prim2SF x) (Prim2SF x)); cbn; split; intro E.
  - discriminate E.
  - exfalso. apply (proj1 H); [reflexivity | exact E].
  - destruct (Prim2SF x) as [s|s| |s m e]; try reflexivity;
      exfalso; (assert (false = true) by (apply H; discriminate));
      discriminate.
  - reflexivity.
Qed.

Lemma number_SF : forall x,
  PrimFloat.leb x x = true <-> Prim2SF x <> S754_nan.
Proof.
  intro x. rewrite FloatAxioms.leb_spec. split.
  - intro H. exact (proj1 (SFleb_not_nan _ _ H)).
  - apply SFleb_refl.
Qed.

Lemma is_infinity_SF : forall x,
  PrimFloat.is_infinity x = true <-> exists s, Prim2SF x = S754_infinity s.
Proof.
  intro x. unfold PrimFloat.is_infinity.
  rewrite FloatAxioms.eqb_spec, FloatAxioms.abs_spec.
  change (Prim2SF PrimFloat.infinity) with (S754_infinity false).
  destruct (Prim2SF x) as [s|s| |s m e]; cbn; split; intro H;
    try discriminate H; try reflexivity;
    try (exists s; reflexivity);
    destruct H as [s' H]; discriminate H.
Qed.

Variable libm_exp : PrimFloat.float -> PrimFloat.float.
Variable libm_log : PrimFloat.float -> PrimFloat.float.
Hypothesis libm : Libm.Monotone libm_exp libm_log.

Local Abbreviation A := (PyFloat.arith libm_exp libm_log).

Lemma truediv_inv : forall x y q,
  PyFloat.truediv x y = Ok q ->
  SFeqb (Prim2SF y) (S754_zero false) = false /\ q = PrimFloat.div x y.
Proof.
  intros x y q. unfold PyFloat.truediv.
  rewrite FloatAxioms.eqb_spec, Prim2SF_zero.
  destruct (SFeqb (Prim2SF y) (S754_zero false)); [discriminate|].
  intro H. injection H as <-. split; reflexivity.
Qed.

Lemma math_exp_inv : forall x e,
  PyFloat.math_exp libm_exp x = Ok e -> e = libm_exp x.
Proof.
  intros x e. unfold PyFloat.math_exp.
  destruct (_ && _); [discriminate|].
  destruct (_ && _); [discriminate|].
  intro H. injection H as <-. reflexivity.
Qed.

(** [math.log] returns on a NaN, on the infinity and on a finite float
    above 0 whose logarithm the library gives as a finite float. *)
Lemma math_log_inv : forall x l,
  PyFloat.math_log libm_log x = Ok l ->
  (PrimFloat.is_nan x = true /\ l = x) \/
  (Prim2SF x = S754_infinity false /\ l = x) \/
  (PrimFloat.is_finite x = true /\ PrimFloat.ltb 0 x = true /\
   l = libm_log x /\ PrimFloat.is_nan l = false).
Proof.
  intros x l. unfold PyFloat.math_log, PyFloat.m_log.
  destruct (PrimFloat.is_finite x) eqn:Ef.
  - assert (Hn : PrimFloat.is_nan x = false).
    { unfold PrimFloat.is_finite in Ef.
      destruct (PrimFloat.is_nan x); [discriminate Ef | reflexivity]. }
    rewrite Hn. cbn [negb]. rewrite !andb_true_r.
    destruct (PrimFloat.ltb 0 x) eqn:Epos.
    + destruct (PrimFloat.is_nan (libm_log x)) eqn:En; [discriminate|].
      destruct (PrimFloat.is_infinity (libm_log x)); [discriminate|].
      intro H. injection H as <-. right. right. auto.
    + destruct (PrimFloat.eqb x 0).
      * change (PrimFloat.is_nan PrimFloat.neg_infinity) with false.
        change (PrimFloat.is_infinity PrimFloat.neg_infinity) with true.
        discriminate.
      * change (PrimFloat.is_nan PrimFloat.nan) with true. discriminate.
  - rewrite !andb_false_r.
    destruct (PrimFloat.is_nan x) eqn:En.
    + rewrite En. cbn. intro H. injection H as <-. left. auto.
    + destruct (PrimFloat.ltb 0 x) eqn:Epos.
      * rewrite En. cbn. intro H. injection H as <-. right. left.
        split; [|reflexivity].
        unfold PrimFloat.is_finite in Ef. rewrite En in Ef. cbn in Ef.
        apply negb_false_iff in Ef. apply is_infinity_SF in Ef.
        destruct Ef as [s Es]. rewrite FloatAxioms.ltb_spec in Epos.
        rewrite Es, Prim2SF_zero in Epos. destruct s; [discriminate Epos|].
        exact Es.
      * change (PrimFloat.is_nan PrimFloat.nan) with true. discriminate.
Qed.

Lemma math_floor_inv : forall x n,
  PyFloat.math_floor x = Ok n ->
  Prim2SF x <> S754_nan /\
  match Prim2SF x with S754_infinity _ => False | _ => True end /\
  n = PyFloat.floor_spec (Prim2SF x).
Proof.
  intros x n. unfold PyFloat.math_floor.
  destruct (PrimFloat.is_nan x) eqn:En; [discriminate|].
  destruct (PrimFloat.is_infinity x) eqn:Ei; [discriminate|].
  intro H. injection H as <-. split; [|split; [|reflexivity]].
  - intro E. apply is_nan_SF in E. congruence.
  - destruct (Prim2SF x) as [s|s| |s m e] eqn:E; try exact I.
    assert (PrimFloat.is_infinity x = true)
      by (apply is_infinity_SF; exists s; exact E).
    congruence.
Qed.

(** The arithmetic of Python keeps the order, whatever the C library, as
    long as its [exp] and [log] do. *)
Lemma pyfloat_monotone : FloatLaws.Monotone A.
Proof.
  constructor; unfold FloatLaws.number, FloatLaws.leq;
    cbn [Optimizer.le Optimizer.lit_0 Optimizer.lit_0_01 Optimizer.neg
         Optimizer.mul Optimizer.truediv Optimizer.math_exp
         Optimizer.math_log Optimizer.math_floor Optimizer.lit_1_0001
         Optimizer.float PyFloat.arith].
  - (* le_numbers *)
    intros x y. rewrite !FloatAxioms.leb_spec. intro H.
    destruct (SFleb_not_nan _ _ H). split; apply SFleb_refl; assumption.
  - (* le_total *)
    intros x y. rewrite !FloatAxioms.leb_spec. intros Hx Hy.
    apply SFleb_total;
      [exact (proj1 (SFleb_not_nan _ _ Hx))
      | exact (proj1 (SFleb_not_nan _ _ Hy))].
  - (* le_trans *)
    intros x y z. rewrite !FloatAxioms.leb_spec. apply SFleb_trans.
  - (* zero_le_small *)
    reflexivity.
  - (* neg_nonneg *)
    intros x. rewrite !FloatAxioms.leb_spec, FloatAxioms.opp_spec, Prim2SF_zero.
    apply opp_nonneg.
  - (* neg_nonpos *)
    intros x. rewrite !FloatAxioms.leb_spec, FloatAxioms.opp_spec, Prim2SF_zero.
    apply opp_nonpos.
  - (* neg_antitone *)
    intros x y. rewrite !FloatAxioms.leb_spec, !FloatAxioms.opp_spec.
    rewrite SFleb_opp. exact (fun H => H).
  - (* mul_number *)
    intros x y. rewrite !number_SF, FloatAxioms.mul_spec.
    apply mul_not_nan.
  - (* mul_mono_nonneg_l *)
    intros c x y. rewrite !number_SF, !FloatAxioms.leb_spec.
    rewrite !FloatAxioms.mul_spec, Prim2SF_zero.
    intros Hc Hxy Nx Ny.
    apply mul_nonneg_monotone; try assumption;
      apply FloatAxioms.Prim2SF_valid.
  - (* mul_mono_nonpos_l *)
    intros c x y. rewrite !number_SF, !FloatAxioms.leb_spec.
    rewrite !FloatAxioms.mul_spec, Prim2SF_zero.
    intros Hc Hxy Nx Ny.
    assert (Vc : valid (SFopp (Prim2SF c)) = true).
    { pose proof (FloatAxioms.Prim2SF_valid c) as V.
      destruct (Prim2SF c); exact V. }
    assert (E : forall z, SF64mul (Prim2SF c) (Prim2SF z)
                          = SFopp (SFmul 53 1024 (SFopp (Prim2SF c)) (Prim2SF z))).
    { intro z. rewrite mul_opp_l, SFopp_involutive. reflexivity. }
    rewrite !E in *. rewrite SFleb_opp.
    apply mul_nonneg_monotone; try assumption;
      try apply FloatAxioms.Prim2SF_valid.
    + apply opp_nonpos. exact Hc.
    + intro E'. apply Nx. rewrite E'. reflexivity.
    + intro E'. apply Ny. rewrite E'. reflexivity.
  - (* mul_mono_nonneg_r *)
    intros c x y. rewrite !number_SF, !FloatAxioms.leb_spec.
    rewrite !FloatAxioms.mul_spec, Prim2SF_zero.
    intros Hc Hxy Nx Ny.
    rewrite (mul_comm (Prim2SF x)), (mul_comm (Prim2SF y)) in *.
    apply mul_nonneg_monotone; try assumption;
      apply FloatAxioms.Prim2SF_valid.
  - (* div_number *)
    intros x y q Hq. destruct (truediv_inv _ _ _ Hq) as [_ ->].
    rewrite !number_SF, FloatAxioms.div_spec. apply div_not_nan.
  - (* div_mono *)
    intros c x y qx qy Hx Hy.
    destruct (truediv_inv _ _ _ Hx) as [Hnz ->].
    destruct (truediv_inv _ _ _ Hy) as [_ ->].
    rewrite !number_SF, !FloatAxioms.leb_spec.
    rewrite !FloatAxioms.div_spec, Prim2SF_zero.
    intros Hc Hxy Nx Ny.
    apply div_pos_monotone_all; try assumption;
      apply FloatAxioms.Prim2SF_valid.
  - (* exp_number *)
    intros x e He. rewrite (math_exp_inv _ _ He). rewrite !number_SF.
    intros Hn Hx. apply Hn. apply is_nan_SF.
    apply (@Libm.exp_nan _ _ libm). apply is_nan_SF. exact Hx.
  - (* exp_mono *)
    intros x y ex ey Hx Hy.
    rewrite (math_exp_inv _ _ Hx), (math_exp_inv _ _ Hy).
    apply (@Libm.exp_monotone _ _ libm).
  - (* log_number *)
    intros x l Hl. rewrite !number_SF. intros Hn Hx. apply Hn.
    destruct (math_log_inv _ _ Hl) as [[_ ->] | [[_ ->] | (Hf & _)]].
    + exact Hx.
    + exact Hx.
    + exfalso. apply is_nan_SF in Hx. unfold PrimFloat.is_finite in Hf.
      rewrite Hx in Hf. discriminate Hf.
  - (* log_mono *)
    intros x y lx ly Hx Hy Hxy.
    assert (Nxy := Hxy). rewrite FloatAxioms.leb_spec in Nxy.
    apply SFleb_not_nan in Nxy. destruct Nxy as [Nx Ny].
    destruct (math_log_inv _ _ Hx)
      as [[Ex _] | [[Ex ->] | (Fx & Px & -> & Lx)]].
    { apply is_nan_SF in Ex. contradiction. }
    { (* x is the infinity: so is y *)
      destruct (math_log_inv _ _ Hy)
        as [[Ey _] | [[Ey ->] | (Fy & Py & -> & Ly)]].
      - apply is_nan_SF in Ey. contradiction.
      - exact Hxy.
      - exfalso. rewrite FloatAxioms.leb_spec, Ex in Hxy.
        unfold PrimFloat.is_finite in Fy.
        apply negb_true_iff, orb_false_iff in Fy. destruct Fy as [_ Fy].
        destruct (Prim2SF y) as [s|s| |s m e] eqn:E; try discriminate Hxy.
        destruct s; [discriminate Hxy|].
        assert (PrimFloat.is_infinity y = true)
          by (apply is_infinity_SF; exists false; exact E).
        congruence. }
    destruct (math_log_inv _ _ Hy)
      as [[Ey _] | [[Ey ->] | (Fy & Py & -> & Ly)]].
    + apply is_nan_SF in Ey. contradiction.
    + rewrite FloatAxioms.leb_spec, Ey. apply SFleb_pos_infinity.
      intro E. apply is_nan_SF in E. congruence.
    + exact (@Libm.log_monotone _ _ libm x y Fx Fy Px Hxy).
  - (* log_base_nonneg *)
    intros l Hl.
    destruct (math_log_inv _ _ Hl) as [[E _] | [[E _] | (_ & _ & -> & _)]].
    + discriminate E.
    + discriminate E.
    + exact (@Libm.log_base _ _ libm).
  - (* floor_number *)
    intros x n Hn. apply number_SF.
    exact (proj1 (math_floor_inv _ _ Hn)).
  - (* floor_mono *)
    intros x y m n Hm Hn. rewrite FloatAxioms.leb_spec. intro Hxy.
    destruct (math_floor_inv _ _ Hm) as (_ & Fx & ->).
    destruct (math_floor_inv _ _ Hn) as (_ & Fy & ->).
    apply floor_monotone; try assumption;
      apply FloatAxioms.Prim2SF_valid.
Qed.

Lemma Prim2SF_one : Prim2SF 1%float = IEEE.one.
Proof. reflexivity. Qed.

(** It moves a price the way the exponential says, when besides the C
    library's [exp] is 1 at 0. *)
Lemma pyfloat_expanding :
  libm_exp 0%float = 1%float -> FloatLaws.Expanding A.
Proof.
  intro exp_0.
  constructor; unfold FloatLaws.number, FloatLaws.leq;
    cbn [Optimizer.le Optimizer.lit_0 Optimizer.mul Optimizer.math_exp
         Optimizer.float PyFloat.arith].
  - (* mul_nonneg *)
    intros x y. rewrite number_SF, !FloatAxioms.leb_spec.
    rewrite FloatAxioms.mul_spec, Prim2SF_zero.
    intros Hx Hy N.
    apply mul_sign_nonneg; try assumption; apply FloatAxioms.Prim2SF_valid.
  - (* mul_nonpos *)
    intros x y. rewrite number_SF, !FloatAxioms.leb_spec.
    rewrite FloatAxioms.mul_spec, Prim2SF_zero.
    intros Hx Hy N.
    apply mul_sign_nonpos; try assumption; apply FloatAxioms.Prim2SF_valid.
  - (* exp_expands *)
    intros p x e Hp Hx He. rewrite (math_exp_inv _ _ He).
    pose proof (@Libm.exp_monotone _ _ libm _ _ Hx) as H1.
    rewrite exp_0 in H1. revert Hp H1.
    rewrite number_SF, !FloatAxioms.leb_spec.
    rewrite FloatAxioms.mul_spec, Prim2SF_zero, Prim2SF_one.
    intros Hp H1 N.
    pose proof (FloatAxioms.Prim2SF_valid p) as Vp.
    rewrite <- (mul_one_r (Prim2SF p) Vp) at 1.
    apply mul_nonneg_monotone; try assumption;
      try apply FloatAxioms.Prim2SF_valid.
    + reflexivity.
    + rewrite (mul_one_r (Prim2SF p) Vp).
      exact (proj2 (SFleb_not_nan _ _ Hp)).
  - (* exp_shrinks *)
    intros p x e Hp Hx He. rewrite (math_exp_inv _ _ He).
    pose proof (@Libm.exp_monotone _ _ libm _ _ Hx) as H1.
    rewrite exp_0 in H1. revert Hp H1.
    rewrite number_SF, !FloatAxioms.leb_spec.
    rewrite FloatAxioms.mul_spec, Prim2SF_zero, Prim2SF_one.
    intros Hp H1 N.
    pose proof (FloatAxioms.Prim2SF_valid p) as Vp.
    rewrite <- (mul_one_r (Prim2SF p) Vp) at 2.
    apply mul_nonneg_monotone; try assumption;
      try apply FloatAxioms.Prim2SF_valid.
    + reflexivity.
    + rewrite (mul_one_r (Prim2SF p) Vp).
      exact (proj2 (SFleb_not_nan _ _ Hp)).
Qed.

End PythonFloats.

Set Implicit Arguments.

(* ================================================================== *)
(** * Range sizing *)
(* ================================================================== *)

Lemma round_tick_pos : forall t ts,
  0 < ts -> Optimizer.round_tick t ts = Ok (t / ts * ts).
Proof.
  intros t ts Hts. unfold Optimizer.round_tick.
  replace (ts =? 0) with false by (symmetry; apply Z.eqb_neq; lia).
  reflexivity.
Qed.

(** ** In any arithmetic *)

Section RangeFacts.

Unset Implicit Arguments.

Variable A : Optimizer.Arith.

(** [compute_optimal_range] returns exactly when the price has a tick and
    both bounds have one, and then returns the range of these two. *)
Lemma compute_optimal_range_returns : forall (p v k : Optimizer.float A) ts r,
  0 < ts ->
  Optimizer.compute_optimal_range A p v k ts = Ok r <->
  exists c a b,
    Optimizer.price_to_tick A p = Ok c /\
    RangeSpec.lower_tick A p (FloatLaws.effective_volatility A v) k = Ok a /\
    RangeSpec.upper_tick A p (FloatLaws.effective_volatility A v) k = Ok b /\
    r = RangeSpec.range_of a b ts.
Proof.
  intros p v k ts r Hts.
  unfold Optimizer.compute_optimal_range, RangeSpec.lower_tick,
    RangeSpec.upper_tick, RangeSpec.range_of, FloatLaws.effective_volatility.
  set (w := if Optimizer.le A v (Optimizer.lit_0 A)
            then Optimizer.lit_0_01 A else v).
  destruct (Optimizer.price_to_tick A p) as [c|e0]; cbn [bind].
  2:{ split; [discriminate|]. intros (c & a & b & H & _). discriminate H. }
  destruct (Optimizer.math_exp A (Optimizer.mul A (Optimizer.neg A k) w))
    as [el|e1]; cbn [bind].
  2:{ split; [discriminate|]. intros (c' & a & b & _ & H & _).
      discriminate H. }
  destruct (Optimizer.math_exp A (Optimizer.mul A k w)) as [eu|e2];
    cbn [bind].
  2:{ split; [discriminate|]. intros (c' & a & b & _ & _ & H & _).
      discriminate H. }
  destruct (Optimizer.price_to_tick A (Optimizer.mul A p el)) as [a|e3];
    cbn [bind].
  2:{ split; [discriminate|]. intros (c' & a & b & _ & H & _).
      discriminate H. }
  rewrite (@round_tick_pos a ts Hts). cbn [bind].
  destruct (Optimizer.price_to_tick A (Optimizer.mul A p eu)) as [b|e4];
    cbn [bind].
  2:{ split; [discriminate|]. intros (c' & a' & b & _ & _ & H & _).
      discriminate H. }
  rewrite (@round_tick_pos b ts Hts). cbn [bind]. cbv zeta.
  split.
  - intro H. exists c, a, b. repeat split. congruence.
  - intros (c' & a' & b' & _ & Ha & Hb & ->).
    injection Ha as <-. injection Hb as <-. reflexivity.
Qed.

(** A range made of two ticks is ordered and made of multiples of the
    spacing. *)
Lemma range_of_valid : forall a b ts,
  0 < ts ->
  fst (RangeSpec.range_of a b ts) < snd (RangeSpec.range_of a b ts) /\
  fst (RangeSpec.range_of a b ts) mod ts = 0 /\
  snd (RangeSpec.range_of a b ts) mod ts = 0.
Proof.
  intros a b ts Hts. unfold RangeSpec.range_of. cbv zeta. cbn [fst snd].
  assert (Ha : (a / ts * ts) mod ts = 0) by (apply Z.mod_mul; lia).
  assert (Ha1 : (a / ts * ts + ts) mod ts = 0).
  { replace (a / ts * ts + ts) with ((a / ts + 1) * ts) by ring.
    apply Z.mod_mul. lia. }
  assert (Hb1 : (b / ts * ts + ts) mod ts = 0).
  { replace (b / ts * ts + ts) with ((b / ts + 1) * ts) by ring.
    apply Z.mod_mul. lia. }
  destruct (a / ts * ts >=? b / ts * ts + ts) eqn:E.
  - repeat split; [lia | exact Ha | exact Ha1].
  - rewrite Z.geb_leb in E. apply Z.leb_gt in E.
    repeat split; [exact E | exact Ha | exact Hb1].
Qed.

(** The width is the spacing times the number of multiples of the spacing
    from the one at or below the lower tick to the one above the upper
    tick, and one spacing at least. *)
Lemma range_of_width : forall a b ts,
  0 < ts ->
  Optimizer.width (RangeSpec.range_of a b ts)
  = ts * Z.max 1 (b / ts - a / ts + 1).
Proof.
  intros a b ts Hts. unfold Optimizer.width, RangeSpec.range_of.
  cbv zeta. cbn [fst snd].
  destruct (a / ts * ts >=? b / ts * ts + ts) eqn:E.
  - rewrite Z.geb_leb in E. apply Z.leb_le in E.
    assert (b / ts + 1 <= a / ts) by nia.
    rewrite Z.max_l by lia. ring.
  - rewrite Z.geb_leb in E. apply Z.leb_gt in E.
    assert (a / ts < b / ts + 1) by nia.
    rewrite Z.max_r by lia. ring.
Qed.

(** In any arithmetic, a range that is returned is a valid one. *)
Lemma returned_range_valid : forall (p v k : Optimizer.float A) (ts tl tu : Z),
  0 < ts ->
  Optimizer.compute_optimal_range A p v k ts = Ok (tl, tu) ->
  tl < tu /\ tl mod ts = 0 /\ tu mod ts = 0.
Proof.
  intros p v k ts tl tu Hts H.
  apply (compute_optimal_range_returns p v k ts (tl, tu) Hts) in H.
  destruct H as (c & a & b & _ & _ & _ & E).
  pose proof (range_of_valid a b ts Hts) as V. rewrite <- E in V. exact V.
Qed.

(** A volatility that is not above 0 is replaced by 0.01. *)
Lemma clamped_volatility : forall (p v k : Optimizer.float A) (ts : Z),
  Optimizer.le A v (Optimizer.lit_0 A) = true ->
  Optimizer.compute_optimal_range A p v k ts
  = Optimizer.compute_optimal_range A p (Optimizer.lit_0_01 A) k ts.
Proof.
  intros p v k ts H. unfold Optimizer.compute_optimal_range.
  rewrite H.
  destruct (Optimizer.le A (Optimizer.lit_0_01 A) (Optimizer.lit_0 A));
    reflexivity.
Qed.

(** A price that is not above 0 is refused. *)
Lemma nonpositive_price_refused : forall (p v k : Optimizer.float A) (ts : Z),
  Optimizer.le A p (Optimizer.lit_0 A) = true ->
  Optimizer.compute_optimal_range A p v k ts = Err ValueError.
Proof.
  intros p v k ts H. unfold Optimizer.compute_optimal_range,
    Optimizer.price_to_tick.
  rewrite H. reflexivity.
Qed.

(** ** In an arithmetic that keeps the order *)

Hypothesis laws : FloatLaws.Monotone A.

Local Abbreviation leq := (FloatLaws.leq A).
Local Abbreviation number := (FloatLaws.number A).
Local Abbreviation zero := (Optimizer.lit_0 A).

Lemma zero_number : number zero.
Proof.
  exact (proj1 (FloatLaws.le_numbers laws (FloatLaws.zero_le_small laws))).
Qed.

Lemma not_le_zero : forall x,
  Optimizer.le A x zero = false -> number x -> leq zero x.
Proof.
  intros x Hx Hn.
  destruct (FloatLaws.le_total laws Hn zero_number) as [H | H];
    [|exact H].
  unfold FloatLaws.leq in H. congruence.
Qed.

(** A price that has a tick is a number above 0. *)
Lemma price_to_tick_number : forall x t,
  Optimizer.price_to_tick A x = Ok t -> number x /\ leq zero x.
Proof.
  intros x t. unfold Optimizer.price_to_tick.
  destruct (Optimizer.le A x zero) eqn:Hle; [discriminate|].
  destruct (Optimizer.math_log A x) as [l|] eqn:El; [|discriminate].
  cbn [bind].
  destruct (Optimizer.math_log A (Optimizer.lit_1_0001 A)) as [L|] eqn:EL;
    [|discriminate].
  cbn [bind].
  destruct (Optimizer.truediv A l L) as [q|] eqn:Eq; [|discriminate].
  cbn [bind]. intro Ef.
  assert (Hx : number x).
  { apply (FloatLaws.log_number laws El).
    apply (FloatLaws.div_number laws Eq).
    apply (FloatLaws.floor_number laws Ef). }
  split; [exact Hx | apply not_le_zero; assumption].
Qed.

(** The tick never decreases with the price. *)
Lemma price_to_tick_monotone : forall x y s t,
  Optimizer.price_to_tick A x = Ok s ->
  Optimizer.price_to_tick A y = Ok t ->
  leq x y -> s <= t.
Proof.
  intros x y s t. unfold Optimizer.price_to_tick.
  destruct (Optimizer.le A x zero); [discriminate|].
  destruct (Optimizer.le A y zero); [discriminate|].
  destruct (Optimizer.math_log A x) as [lx|] eqn:Elx; [|discriminate].
  destruct (Optimizer.math_log A y) as [ly|] eqn:Ely; [|discriminate].
  cbn [bind].
  destruct (Optimizer.math_log A (Optimizer.lit_1_0001 A)) as [L|] eqn:EL;
    [|discriminate].
  cbn [bind].
  destruct (Optimizer.truediv A lx L) as [qx|] eqn:Eqx; [|discriminate].
  destruct (Optimizer.truediv A ly L) as [qy|] eqn:Eqy; [|discriminate].
  cbn [bind]. intros Ex Ey Hxy.
  apply (FloatLaws.floor_mono laws Ex Ey).
  apply (FloatLaws.div_mono laws Eqx Eqy).
  - exact (FloatLaws.log_base_nonneg laws EL).
  - exact (FloatLaws.log_mono laws Elx Ely Hxy).
  - exact (FloatLaws.floor_number laws Ex).
  - exact (FloatLaws.floor_number laws Ey).
Qed.

(** The ticks of [price * exp x] and [price * exp y] for [x <= y]. *)
Lemma scaled_tick_monotone : forall p x y ex ey s t,
  leq zero p ->
  Optimizer.math_exp A x = Ok ex ->
  Optimizer.math_exp A y = Ok ey ->
  Optimizer.price_to_tick A (Optimizer.mul A p ex) = Ok s ->
  Optimizer.price_to_tick A (Optimizer.mul A p ey) = Ok t ->
  leq x y -> s <= t.
Proof.
  intros p x y ex ey s t Hp Ex Ey Hs Ht Hxy.
  apply (price_to_tick_monotone _ _ _ _ Hs Ht).
  apply (FloatLaws.mul_mono_nonneg_l laws Hp).
  - exact (FloatLaws.exp_mono laws Ex Ey Hxy).
  - exact (proj1 (price_to_tick_number _ _ Hs)).
  - exact (proj1 (price_to_tick_number _ _ Ht)).
Qed.

(** What a tick of a bound tells of the product it was computed from. *)
Lemma scaled_tick_numbers : forall p x ex t,
  Optimizer.math_exp A x = Ok ex ->
  Optimizer.price_to_tick A (Optimizer.mul A p ex) = Ok t ->
  number p /\ number x.
Proof.
  intros p x ex t Ex Ht.
  destruct (price_to_tick_number _ _ Ht) as [Hn _].
  destruct (FloatLaws.mul_number laws Hn) as [Hp He].
  split; [exact Hp | exact (FloatLaws.exp_number laws Ex He)].
Qed.

(** The volatility computed with is at or above 0, when it is a number. *)
Lemma effective_volatility_nonneg : forall v,
  number (FloatLaws.effective_volatility A v) ->
  leq zero (FloatLaws.effective_volatility A v).
Proof.
  intro v. unfold FloatLaws.effective_volatility.
  destruct (Optimizer.le A v zero) eqn:E.
  - intros _. exact (FloatLaws.zero_le_small laws).
  - intro Hn. apply not_le_zero; assumption.
Qed.

(** The ticks of the two bounds of one call, and what they rest on. *)
Lemma bounds_data : forall p w k a b,
  RangeSpec.lower_tick A p w k = Ok a ->
  RangeSpec.upper_tick A p w k = Ok b ->
  exists el eu,
    Optimizer.math_exp A (Optimizer.mul A (Optimizer.neg A k) w) = Ok el /\
    Optimizer.math_exp A (Optimizer.mul A k w) = Ok eu /\
    Optimizer.price_to_tick A (Optimizer.mul A p el) = Ok a /\
    Optimizer.price_to_tick A (Optimizer.mul A p eu) = Ok b /\
    number (Optimizer.mul A (Optimizer.neg A k) w) /\
    number (Optimizer.mul A k w) /\
    number k /\ number w.
Proof.
  intros p w k a b. unfold RangeSpec.lower_tick, RangeSpec.upper_tick.
  destruct (Optimizer.math_exp A (Optimizer.mul A (Optimizer.neg A k) w))
    as [el|] eqn:El; [|discriminate].
  destruct (Optimizer.math_exp A (Optimizer.mul A k w))
    as [eu|] eqn:Eu; [|discriminate].
  cbn [bind]. intros Ha Hb. exists el, eu.
  destruct (scaled_tick_numbers _ _ _ _ El Ha) as [_ Hl].
  destruct (scaled_tick_numbers _ _ _ _ Eu Hb) as [_ Hu].
  destruct (FloatLaws.mul_number laws Hu) as [Hk Hw].
  repeat split; assumption.
Qed.

(** Between two calls at the same price: when the product of multiplier
    and volatility does not decrease and the product of the opposite
    multiplier and the volatility does not increase, the upper tick does
    not fall and the lower tick does not rise. *)
Lemma bounds_move_apart : forall p c w1 k1 w2 k2 a1 b1 a2 b2,
  Optimizer.price_to_tick A p = Ok c ->
  RangeSpec.lower_tick A p w1 k1 = Ok a1 ->
  RangeSpec.upper_tick A p w1 k1 = Ok b1 ->
  RangeSpec.lower_tick A p w2 k2 = Ok a2 ->
  RangeSpec.upper_tick A p w2 k2 = Ok b2 ->
  leq (Optimizer.mul A k1 w1) (Optimizer.mul A k2 w2) ->
  leq (Optimizer.mul A (Optimizer.neg A k2) w2)
      (Optimizer.mul A (Optimizer.neg A k1) w1) ->
  a2 <= a1 /\ b1 <= b2.
Proof.
  intros p c w1 k1 w2 k2 a1 b1 a2 b2 Hc Ha1 Hb1 Ha2 Hb2 Hup Hlo.
  destruct (price_to_tick_number _ _ Hc) as [_ Hp].
  destruct (bounds_data _ _ _ _ _ Ha1 Hb1)
    as (el1 & eu1 & El1 & Eu1 & Tl1 & Tu1 & _).
  destruct (bounds_data _ _ _ _ _ Ha2 Hb2)
    as (el2 & eu2 & El2 & Eu2 & Tl2 & Tu2 & _).
  split.
  - exact (scaled_tick_monotone _ _ _ _ _ _ _ Hp El2 El1 Tl2 Tl1 Hlo).
  - exact (scaled_tick_monotone _ _ _ _ _ _ _ Hp Eu1 Eu2 Tu1 Tu2 Hup).
Qed.

(** With a multiplier at or above 0 the lower tick is not above the upper
    one; with a multiplier at or below 0 it is not below. *)
Lemma bounds_order : forall p c w k a b,
  Optimizer.price_to_tick A p = Ok c ->
  RangeSpec.lower_tick A p w k = Ok a ->
  RangeSpec.upper_tick A p w k = Ok b ->
  leq zero w ->
  (leq zero k -> a <= b) /\ (leq k zero -> b <= a).
Proof.
  intros p c w k a b Hc Ha Hb Hw.
  destruct (price_to_tick_number _ _ Hc) as [_ Hp].
  destruct (bounds_data _ _ _ _ _ Ha Hb)
    as (el & eu & El & Eu & Tl & Tu & Nl & Nu & _).
  split; intro Hk.
  - apply (scaled_tick_monotone _ _ _ _ _ _ _ Hp El Eu Tl Tu).
    apply (FloatLaws.mul_mono_nonneg_r laws Hw); [|assumption..].
    apply (FloatLaws.le_trans laws (y := zero));
      [apply (FloatLaws.neg_nonneg laws); exact Hk | exact Hk].
  - apply (scaled_tick_monotone _ _ _ _ _ _ _ Hp Eu El Tu Tl).
    apply (FloatLaws.mul_mono_nonneg_r laws Hw); [|assumption..].
    apply (FloatLaws.le_trans laws (y := zero));
      [exact Hk | apply (FloatLaws.neg_nonpos laws); exact Hk].
Qed.

(** The ticks of two calls at the same price whose volatilities computed
    with are [w1 <= w2], the multiplier being the same. *)
Lemma ticks_in_volatility : forall p c k w1 w2 a1 b1 a2 b2,
  Optimizer.price_to_tick A p = Ok c ->
  RangeSpec.lower_tick A p w1 k = Ok a1 ->
  RangeSpec.upper_tick A p w1 k = Ok b1 ->
  RangeSpec.lower_tick A p w2 k = Ok a2 ->
  RangeSpec.upper_tick A p w2 k = Ok b2 ->
  leq zero w1 -> leq w1 w2 ->
  (leq zero k -> a2 <= a1 /\ a1 <= b1 /\ b1 <= b2) /\
  (leq k zero -> b1 <= a1 /\ b2 <= a2).
Proof.
  intros p c k w1 w2 a1 b1 a2 b2 Hc Ha1 Hb1 Ha2 Hb2 Hw1 Hw.
  assert (Hw2 : leq zero w2) by exact (FloatLaws.le_trans laws Hw1 Hw).
  destruct (bounds_data _ _ _ _ _ Ha1 Hb1)
    as (_ & _ & _ & _ & _ & _ & Nl1 & Nu1 & _).
  destruct (bounds_data _ _ _ _ _ Ha2 Hb2)
    as (_ & _ & _ & _ & _ & _ & Nl2 & Nu2 & _).
  split; intro Hk.
  - assert (Hup : leq (Optimizer.mul A k w1) (Optimizer.mul A k w2))
      by (apply (FloatLaws.mul_mono_nonneg_l laws); assumption).
    assert (Hlo : leq (Optimizer.mul A (Optimizer.neg A k) w2)
                      (Optimizer.mul A (Optimizer.neg A k) w1)).
    { apply (FloatLaws.mul_mono_nonpos_l laws); try assumption.
      apply (FloatLaws.neg_nonneg laws). exact Hk. }
    destruct (bounds_move_apart _ _ _ _ _ _ _ _ _ _ Hc Ha1 Hb1 Ha2 Hb2 Hup Hlo)
      as [H1 H2].
    pose proof (proj1 (bounds_order _ _ _ _ _ _ Hc Ha1 Hb1 Hw1) Hk). lia.
  - split.
    + exact (proj2 (bounds_order _ _ _ _ _ _ Hc Ha1 Hb1 Hw1) Hk).
    + exact (proj2 (bounds_order _ _ _ _ _ _ Hc Ha2 Hb2 Hw2) Hk).
Qed.

(** The same with the multipliers [k1 <= k2] and one volatility. *)
Lemma ticks_in_multiplier : forall p c w k1 k2 a1 b1 a2 b2,
  Optimizer.price_to_tick A p = Ok c ->
  RangeSpec.lower_tick A p w k1 = Ok a1 ->
  RangeSpec.upper_tick A p w k1 = Ok b1 ->
  RangeSpec.lower_tick A p w k2 = Ok a2 ->
  RangeSpec.upper_tick A p w k2 = Ok b2 ->
  leq zero w -> leq k1 k2 ->
  a2 <= a1 /\ b1 <= b2.
Proof.
  intros p c w k1 k2 a1 b1 a2 b2 Hc Ha1 Hb1 Ha2 Hb2 Hw Hk.
  destruct (bounds_data _ _ _ _ _ Ha1 Hb1)
    as (_ & _ & _ & _ & _ & _ & Nl1 & Nu1 & _).
  destruct (bounds_data _ _ _ _ _ Ha2 Hb2)
    as (_ & _ & _ & _ & _ & _ & Nl2 & Nu2 & _).
  apply (bounds_move_apart _ _ _ _ _ _ _ _ _ _ Hc Ha1 Hb1 Ha2 Hb2).
  - apply (FloatLaws.mul_mono_nonneg_r laws); assumption.
  - apply (FloatLaws.mul_mono_nonneg_r laws); try assumption.
    apply (FloatLaws.neg_antitone laws). exact Hk.
Qed.

(** With a multiplier at or above 0 the tick of the price lies between
    the ticks of the two bounds. *)
Lemma bounds_around_price : forall p c w k a b,
  FloatLaws.Expanding A ->
  Optimizer.price_to_tick A p = Ok c ->
  RangeSpec.lower_tick A p w k = Ok a ->
  RangeSpec.upper_tick A p w k = Ok b ->
  leq zero w -> leq zero k ->
  a <= c <= b.
Proof.
  intros p c w k a b more Hc Ha Hb Hw Hk.
  destruct (price_to_tick_number _ _ Hc) as [_ Hp].
  destruct (bounds_data _ _ _ _ _ Ha Hb)
    as (el & eu & El & Eu & Tl & Tu & Nl & Nu & _).
  split.
  - apply (price_to_tick_monotone _ _ _ _ Tl Hc).
    apply (FloatLaws.exp_shrinks more Hp) with (2 := El).
    + apply (FloatLaws.mul_nonpos more); try assumption.
      apply (FloatLaws.neg_nonneg laws). exact Hk.
    + exact (proj1 (price_to_tick_number _ _ Tl)).
  - apply (price_to_tick_monotone _ _ _ _ Hc Tu).
    apply (FloatLaws.exp_expands more Hp) with (2 := Eu).
    + apply (FloatLaws.mul_nonneg more); assumption.
    + exact (proj1 (price_to_tick_number _ _ Tu)).
Qed.

Set Implicit Arguments.

End RangeFacts.

(** ** In exact arithmetic *)

Section ExactFacts.

Local Open Scope R_scope.

Lemma ln_10001_pos : 0 < ln 1.0001.
Proof.
  rewrite <- ln_1. apply ln_increasing; lra.
Qed.

Lemma real_leq : forall x y : R,
  FloatLaws.leq ExactArith.real_arith x y <-> x <= y.
Proof.
  intros x y. unfold FloatLaws.leq. cbn -[Rle_dec].
  destruct (Rle_dec x y); split; intro H;
    (reflexivity || assumption || discriminate || contradiction).
Qed.

Lemma real_truediv : forall x y q : R,
  Optimizer.truediv ExactArith.real_arith x y = Ok q ->
  y <> 0 /\ q = x / y.
Proof.
  intros x y q. cbn -[Req_dec_T].
  destruct (Req_dec_T y 0); [discriminate|].
  intro H. injection H as <-. split; [assumption | reflexivity].
Qed.

Lemma real_math_log : forall x l : R,
  Optimizer.math_log ExactArith.real_arith x = Ok l ->
  0 < x /\ l = ln x.
Proof.
  intros x l. cbn -[Rle_dec].
  destruct (Rle_dec x 0); [discriminate|].
  intro H. injection H as <-. split; [lra | reflexivity].
Qed.

(** The laws of the order hold together in exact arithmetic. *)
Lemma real_arith_monotone : FloatLaws.Monotone ExactArith.real_arith.
Proof.
  constructor; unfold FloatLaws.number.
  - intros x y _. rewrite !real_leq. lra.
  - intros x y _ _. rewrite !real_leq. lra.
  - intros x y z. rewrite !real_leq. lra.
  - rewrite real_leq. cbn. lra.
  - intros x. rewrite !real_leq. cbn. lra.
  - intros x. rewrite !real_leq. cbn. lra.
  - intros x y. rewrite !real_leq. cbn. lra.
  - intros x y _. rewrite !real_leq. lra.
  - intros c x y. rewrite !real_leq. cbn. intros Hc Hxy _ _.
    apply Rmult_le_compat_l; assumption.
  - intros c x y. rewrite !real_leq. cbn. intros Hc Hxy _ _. nra.
  - intros c x y. rewrite !real_leq. cbn. intros Hc Hxy _ _.
    apply Rmult_le_compat_r; assumption.
  - intros x y q _ _. rewrite real_leq. lra.
  - intros c x y qx qy Hx Hy. rewrite !real_leq. cbn. intros Hc Hxy _ _.
    destruct (real_truediv _ _ Hx) as [Hc0 ->].
    destruct (real_truediv _ _ Hy) as [_ ->].
    unfold Rdiv. apply Rmult_le_compat_r; [|exact Hxy].
    left. apply Rinv_0_lt_compat. lra.
  - intros x e _ _. rewrite real_leq. lra.
  - intros x y ex ey Hx Hy. rewrite !real_leq. cbn in Hx, Hy.
    injection Hx as <-. injection Hy as <-.
    intros [Hlt | ->]; [|lra]. left. apply exp_increasing. exact Hlt.
  - intros x l _ _. rewrite real_leq. lra.
  - intros x y lx ly Hx Hy. rewrite !real_leq.
    destruct (real_math_log _ Hx) as [Px ->].
    destruct (real_math_log _ Hy) as [Py ->].
    intros [Hlt | ->]; [|lra]. left. apply ln_increasing; assumption.
  - intros l H. rewrite real_leq. cbn.
    destruct (real_math_log _ H) as [_ ->].
    left. exact ln_10001_pos.
  - intros x n _. rewrite real_leq. lra.
  - intros x y m n Hx Hy. rewrite real_leq. cbn in Hx, Hy.
    injection Hx as <-. injection Hy as <-.
    apply Zfloor_le.
Qed.

Lemma exp_ge_1 : forall x : R, 0 <= x -> 1 <= exp x.
Proof.
  intros x [Hx | <-]; [|rewrite exp_0; lra].
  pose proof (exp_ineq1 x (Rgt_not_eq _ _ Hx)). lra.
Qed.

Lemma real_arith_expanding : FloatLaws.Expanding ExactArith.real_arith.
Proof.
  constructor; unfold FloatLaws.number.
  - intros x y. rewrite !real_leq. cbn. intros Hx Hy _.
    apply Rmult_le_pos; assumption.
  - intros x y. rewrite !real_leq. cbn. intros Hx Hy _. nra.
  - intros p x e. rewrite !real_leq. cbn. intros Hp Hx He _.
    injection He as <-. pose proof (exp_ge_1 Hx). nra.
  - intros p x e. rewrite !real_leq. cbn. intros Hp Hx He _.
    injection He as <-.
    assert (H : exp x <= 1).
    { rewrite <- exp_0. destruct Hx as [Hlt | ->]; [|lra].
      left. apply exp_increasing. exact Hlt. }
    nra.
Qed.

Lemma price_to_tick_pos : forall p : R,
  0 < p ->
  Optimizer.price_to_tick ExactArith.real_arith p
  = Ok (ExactArith.tick_of p).
Proof.
  intros p Hp. pose proof ln_10001_pos as HL.
  unfold Optimizer.price_to_tick, ExactArith.tick_of.
  cbn -[Rle_dec Req_dec_T Zfloor].
  destruct (Rle_dec p 0); [lra|].
  destruct (Rle_dec 1.0001 0); [lra|]. cbn [bind].
  destruct (Req_dec_T (ln 1.0001) 0); [lra | reflexivity].
Qed.

(** On a positive price the two ticks are those of [price * exp (-x)] and
    [price * exp x], with [x] the product of multiplier and volatility. *)
Lemma exact_ticks : forall p w k : R,
  0 < p ->
  RangeSpec.lower_tick ExactArith.real_arith p w k
  = Ok (Zfloor ((ln p - k * w) / ln 1.0001)) /\
  RangeSpec.upper_tick ExactArith.real_arith p w k
  = Ok (Zfloor ((ln p + k * w) / ln 1.0001)).
Proof.
  intros p w k Hp. unfold RangeSpec.lower_tick, RangeSpec.upper_tick.
  change (Optimizer.math_exp ExactArith.real_arith)
    with (fun x : R => @Ok R (exp x)).
  change (Optimizer.mul ExactArith.real_arith) with Rmult.
  change (Optimizer.neg ExactArith.real_arith) with Ropp.
  cbn [bind].
  rewrite !price_to_tick_pos
    by (apply Rmult_lt_0_compat; [exact Hp | apply exp_pos]).
  unfold ExactArith.tick_of.
  rewrite !ln_mult by (exact Hp || apply exp_pos).
  rewrite !ln_exp.
  replace (ln p + - k * w) with (ln p - k * w) by ring.
  split; reflexivity.
Qed.

(** In exact arithmetic a positive price and a positive spacing always
    give a range. *)
Lemma exact_range_returns : forall (p v k : R) (ts : Z),
  0 < p -> (0 < ts)%Z ->
  exists r,
    Optimizer.compute_optimal_range ExactArith.real_arith p v k ts = Ok r.
Proof.
  intros p v k ts Hp Hts.
  destruct (exact_ticks (FloatLaws.effective_volatility
                           ExactArith.real_arith v) k Hp) as [Ha Hb].
  eexists.
  apply (compute_optimal_range_returns ExactArith.real_arith p v k ts _ Hts).
  eexists _, _, _.
  split; [exact (price_to_tick_pos Hp)|].
  split; [exact Ha|]. split; [exact Hb | reflexivity].
Qed.

Lemma Zfloor_shift : forall (y : R) (n : Z),
  Zfloor (y + IZR n) = (Zfloor y + n)%Z.
Proof.
  intros y n. apply Zfloor_eq.
  pose proof (Zfloor_bound y) as [H1 H2].
  rewrite plus_IZR. lra.
Qed.

(** In exact arithmetic the width grows by two spacings at least as soon
    as the product of multiplier and volatility, not below 0, grows by the
    spacing times [ln 1.0001]. *)
Lemma exact_growth_is_strict : forall (p v1 k1 v2 k2 : R) (ts : Z) r1 r2,
  (0 < ts)%Z ->
  Optimizer.compute_optimal_range ExactArith.real_arith p v1 k1 ts = Ok r1 ->
  Optimizer.compute_optimal_range ExactArith.real_arith p v2 k2 ts = Ok r2 ->
  0 <= k1 * FloatLaws.effective_volatility ExactArith.real_arith v1 ->
  k1 * FloatLaws.effective_volatility ExactArith.real_arith v1
    + IZR ts * ln 1.0001
  <= k2 * FloatLaws.effective_volatility ExactArith.real_arith v2 ->
  (Optimizer.width r1 + 2 * ts <= Optimizer.width r2)%Z.
Proof.
  intros p v1 k1 v2 k2 ts r1 r2 Hts H1 H2.
  set (w1 := FloatLaws.effective_volatility ExactArith.real_arith v1).
  set (w2 := FloatLaws.effective_volatility ExactArith.real_arith v2).
  intros Hx1 Hx.
  pose proof ln_10001_pos as HL.
  apply (compute_optimal_range_returns ExactArith.real_arith p v1 k1 ts r1 Hts)
    in H1.
  apply (compute_optimal_range_returns ExactArith.real_arith p v2 k2 ts r2 Hts)
    in H2.
  destruct H1 as (c1 & a1 & b1 & Hc & Ha1 & Hb1 & ->).
  destruct H2 as (c2 & a2 & b2 & _ & Ha2 & Hb2 & ->).
  fold w1 in Ha1, Hb1. fold w2 in Ha2, Hb2.
  assert (Hp : 0 < p).
  { unfold Optimizer.price_to_tick in Hc. cbn -[Rle_dec] in Hc.
    destruct (Rle_dec p 0); [discriminate Hc | lra]. }
  destruct (exact_ticks w1 k1 Hp) as [Ea1 Eb1].
  destruct (exact_ticks w2 k2 Hp) as [Ea2 Eb2].
  rewrite Ea1 in Ha1. rewrite Eb1 in Hb1.
  rewrite Ea2 in Ha2. rewrite Eb2 in Hb2.
  injection Ha1 as <-. injection Hb1 as <-.
  injection Ha2 as <-. injection Hb2 as <-.
  rewrite !range_of_width by exact Hts.
  set (L := ln 1.0001) in *.
  set (x1 := k1 * w1) in *. set (x2 := k2 * w2) in *.
  assert (Hb : (Zfloor ((ln p + x1) / L) + ts
                <= Zfloor ((ln p + x2) / L))%Z).
  { rewrite <- Zfloor_shift. apply Zfloor_le.
    apply (Rmult_le_reg_r L); [exact HL|].
    replace (((ln p + x1) / L + IZR ts) * L)
      with (ln p + x1 + IZR ts * L) by (field; lra).
    replace ((ln p + x2) / L * L) with (ln p + x2) by (field; lra).
    lra. }
  assert (Ha : (Zfloor ((ln p - x2) / L) + ts
                <= Zfloor ((ln p - x1) / L))%Z).
  { rewrite <- Zfloor_shift. apply Zfloor_le.
    apply (Rmult_le_reg_r L); [exact HL|].
    replace (((ln p - x2) / L + IZR ts) * L)
      with (ln p - x2 + IZR ts * L) by (field; lra).
    replace ((ln p - x1) / L * L) with (ln p - x1) by (field; lra).
    lra. }
  assert (Hab : (Zfloor ((ln p - x1) / L) <= Zfloor ((ln p + x1) / L))%Z).
  { apply Zfloor_le. unfold Rdiv. apply Rmult_le_compat_r; [|lra].
    left. apply Rinv_0_lt_compat. exact HL. }
  set (a1 := Zfloor ((ln p - x1) / L)) in *.
  set (b1 := Zfloor ((ln p + x1) / L)) in *.
  set (a2 := Zfloor ((ln p - x2) / L)) in *.
  set (b2 := Zfloor ((ln p + x2) / L)) in *.
  assert (Db : (b1 / ts + 1 <= b2 / ts)%Z).
  { replace (b1 / ts + 1)%Z with ((b1 + 1 * ts) / ts)%Z
      by (rewrite Z.div_add by lia; reflexivity).
    apply Z.div_le_mono; lia. }
  assert (Da : (a2 / ts + 1 <= a1 / ts)%Z).
  { replace (a2 / ts + 1)%Z with ((a2 + 1 * ts) / ts)%Z
      by (rewrite Z.div_add by lia; reflexivity).
    apply Z.div_le_mono; lia. }
  assert (Dab : (a1 / ts <= b1 / ts)%Z) by (apply Z.div_le_mono; lia).
  nia.
Qed.

End ExactFacts.

(** ** On Python floats *)

(** Whatever the C library, when its [exp] overflows at 800, as the
    binary64 format forces a correct one to, the call with price 1,
    volatility 400 and multiplier 2 raises. *)
Lemma exp_overflow_raises : forall libm_exp libm_log,
  libm_exp 800%float = PrimFloat.infinity ->
  exists e,
    Optimizer.compute_optimal_range (PyFloat.arith libm_exp libm_log)
      1%float 400%float 2%float 60
    = Err e.
Proof.
  intros libm_exp libm_log H.
  unfold Optimizer.compute_optimal_range.
  destruct (Optimizer.price_to_tick _ _) as [c|e]; [|exists e; reflexivity].
  cbn [bind].
  change (Optimizer.le (PyFloat.arith libm_exp libm_log) 400%float
            (Optimizer.lit_0 (PyFloat.arith libm_exp libm_log)))
    with (PrimFloat.leb 400 0).
  replace (PrimFloat.leb 400 0) with false by (vm_compute; reflexivity).
  destruct (Optimizer.math_exp _ _) as [el|e]; [|exists e; reflexivity].
  cbn [bind].
  change (Optimizer.math_exp (PyFloat.arith libm_exp libm_log)
            (Optimizer.mul (PyFloat.arith libm_exp libm_log) 2%float 400%float))
    with (PyFloat.math_exp libm_exp (PrimFloat.mul 2 400)).
  replace (PrimFloat.mul 2 400) with 800%float by (vm_compute; reflexivity).
  unfold PyFloat.math_exp. rewrite H.
  exists OverflowError. vm_compute. reflexivity.
Qed.

(** Two calls of the tests of the repository, with the stand-in library. *)
Example range_values :
  Optimizer.compute_optimal_range StandInLibm.arith
    2450%float 0.082%float 2%float 60 = Ok (76380, 79740) /\
  Optimizer.compute_optimal_range StandInLibm.arith
    100%float 0%float 2%float 60 = Ok (45840, 46260).
Proof. vm_compute. repeat split. Qed.

(** ** C10 *)

(** C10, as the code has it. For every positive tick spacing and all
    arguments, in whatever arithmetic: a pair [(tick_lower, tick_upper)]
    that [compute_optimal_range] returns has [tick_lower < tick_upper] and
    both are multiples of the tick spacing; a volatility that is not above
    0 gives what volatility 0.01 gives; a price that is not above 0 is a
    ValueError; and the call returns exactly when the price and the two
    bounds [price * exp (-k * volatility)], [price * exp (k * volatility)]
    have a tick.  It need not return on a positive price: see
    [optimal_range_raises]. *)
Theorem optimal_range_valid : forall (A : Optimizer.Arith)
    (p v k : Optimizer.float A) (ts : Z),
  0 < ts ->
  (forall tl tu : Z,
      Optimizer.compute_optimal_range A p v k ts = Ok (tl, tu) ->
      tl < tu /\ tl mod ts = 0 /\ tu mod ts = 0) /\
  (Optimizer.le A v (Optimizer.lit_0 A) = true ->
   Optimizer.compute_optimal_range A p v k ts
   = Optimizer.compute_optimal_range A p (Optimizer.lit_0_01 A) k ts) /\
  (Optimizer.le A p (Optimizer.lit_0 A) = true ->
   Optimizer.compute_optimal_range A p v k ts = Err ValueError) /\
  ((exists r, Optimizer.compute_optimal_range A p v k ts = Ok r) <->
   (exists c a b,
       Optimizer.price_to_tick A p = Ok c /\
       RangeSpec.lower_tick A p (FloatLaws.effective_volatility A v) k
       = Ok a /\
       RangeSpec.upper_tick A p (FloatLaws.effective_volatility A v) k
       = Ok b)).
Proof.
  intros A p v k ts Hts.
  split; [intros tl tu; apply returned_range_valid; exact Hts|].
  split; [apply clamped_volatility|].
  split; [apply nonpositive_price_refused|].
  split.
  - intros [r Hr].
    apply (compute_optimal_range_returns A p v k ts r Hts) in Hr.
    destruct Hr as (c & a & b & Hc & Ha & Hb & _).
    exists c, a, b. auto.
  - intros (c & a & b & Hc & Ha & Hb).
    exists (RangeSpec.range_of a b ts).
    apply (compute_optimal_range_returns A p v k ts _ Hts).
    exists c, a, b. auto.
Qed.

Lemma optimal_range_valid_witness :
  0 < 60 /\
  Optimizer.compute_optimal_range StandInLibm.arith
    2450%float 0.082%float 2%float 60 = Ok (76380, 79740) /\
  (76380 < 79740 /\ 76380 mod 60 = 0 /\ 79740 mod 60 = 0) /\
  Optimizer.compute_optimal_range StandInLibm.arith
    2450%float (-1)%float 2%float 60
  = Optimizer.compute_optimal_range StandInLibm.arith
      2450%float 0.01%float 2%float 60.
Proof.
  assert (H : 0 < 60) by lia.
  assert (E : Optimizer.compute_optimal_range StandInLibm.arith
                2450%float 0.082%float 2%float 60 = Ok (76380, 79740))
    by (vm_compute; reflexivity).
  assert (C : Optimizer.le StandInLibm.arith (-1)%float
                (Optimizer.lit_0 StandInLibm.arith) = true)
    by (vm_compute; reflexivity).
  split; [exact H|]. split; [exact E|]. split.
  - exact (proj1 (@optimal_range_valid StandInLibm.arith
                    2450%float 0.082%float 2%float 60 H) _ _ E).
  - exact (proj1 (proj2 (@optimal_range_valid StandInLibm.arith
                           2450%float (-1)%float 2%float 60 H)) C).
Defined.

(** C10, as stated, fails: with the positive price 1, the spacing 60 and
    the multiplier 2, the volatility 400 makes [math.exp(800.0)] overflow
    and the call raises OverflowError; with the positive price [2^-1000]
    and the volatility 30 the lower price [2^-1000 * math.exp(-60.0)]
    rounds to 0 and the call raises ValueError. *)
Lemma optimal_range_raises :
  PrimFloat.ltb 0 1 = true /\
  Optimizer.compute_optimal_range StandInLibm.arith
    1%float 400%float 2%float 60 = Err OverflowError /\
  PrimFloat.ltb 0 0x1p-1000 = true /\
  Optimizer.compute_optimal_range StandInLibm.arith
    0x1p-1000%float 30%float 2%float 60 = Err ValueError.
Proof. vm_compute. repeat split. Qed.

(** ** C5 *)

(** C5, as the code has it. In an arithmetic that keeps the order, for a
    fixed price and a positive tick spacing, between two calls that return:
    the width never decreases when the volatility computed with (the
    argument, or 0.01 for an argument not above 0) increases with the
    multiplier fixed, nor when the multiplier increases with the volatility
    fixed.  It need not increase.  A width is the spacing times the number
    of multiples of the spacing from the one at or below the tick of the
    lower price to the one above the tick of the upper price; so, with a
    first multiplier at or above 0, the width grows exactly when the tick
    of the lower price falls to a lower multiple of the spacing or the
    tick of the upper price reaches a higher one. *)
Theorem width_never_decreases : forall (A : Optimizer.Arith),
  FloatLaws.Monotone A ->
  forall (p : Optimizer.float A) (ts : Z),
  0 < ts ->
  (forall k v1 v2 r1 r2,
      Optimizer.compute_optimal_range A p v1 k ts = Ok r1 ->
      Optimizer.compute_optimal_range A p v2 k ts = Ok r2 ->
      FloatLaws.leq A (FloatLaws.effective_volatility A v1)
                      (FloatLaws.effective_volatility A v2) ->
      Optimizer.width r1 <= Optimizer.width r2) /\
  (forall v k1 k2 r1 r2,
      Optimizer.compute_optimal_range A p v k1 ts = Ok r1 ->
      Optimizer.compute_optimal_range A p v k2 ts = Ok r2 ->
      FloatLaws.leq A k1 k2 ->
      Optimizer.width r1 <= Optimizer.width r2) /\
  (forall v1 k1 v2 k2 r1 r2,
      Optimizer.compute_optimal_range A p v1 k1 ts = Ok r1 ->
      Optimizer.compute_optimal_range A p v2 k2 ts = Ok r2 ->
      FloatLaws.leq A (Optimizer.lit_0 A) k1 ->
      (k1 = k2 /\
       FloatLaws.leq A (FloatLaws.effective_volatility A v1)
                       (FloatLaws.effective_volatility A v2)) \/
      (v1 = v2 /\ FloatLaws.leq A k1 k2) ->
      exists a1 b1 a2 b2,
        RangeSpec.lower_tick A p (FloatLaws.effective_volatility A v1) k1
        = Ok a1 /\
        RangeSpec.upper_tick A p (FloatLaws.effective_volatility A v1) k1
        = Ok b1 /\
        RangeSpec.lower_tick A p (FloatLaws.effective_volatility A v2) k2
        = Ok a2 /\
        RangeSpec.upper_tick A p (FloatLaws.effective_volatility A v2) k2
        = Ok b2 /\
        Optimizer.width r1 = ts * (b1 / ts - a1 / ts + 1) /\
        Optimizer.width r2 = ts * (b2 / ts - a2 / ts + 1) /\
        (Optimizer.width r1 < Optimizer.width r2 <->
         a2 / ts < a1 / ts \/ b1 / ts < b2 / ts)).
Proof.
  intros A laws p ts Hts.
  assert (Hdiv : forall x y, x <= y -> x / ts <= y / ts)
    by (intros x y Hxy; apply Z.div_le_mono; lia).
  assert (Hcalls : forall v1 k1 v2 k2 r1 r2,
    Optimizer.compute_optimal_range A p v1 k1 ts = Ok r1 ->
    Optimizer.compute_optimal_range A p v2 k2 ts = Ok r2 ->
    exists c a1 b1 a2 b2,
      Optimizer.price_to_tick A p = Ok c /\
      RangeSpec.lower_tick A p (FloatLaws.effective_volatility A v1) k1
      = Ok a1 /\
      RangeSpec.upper_tick A p (FloatLaws.effective_volatility A v1) k1
      = Ok b1 /\
      RangeSpec.lower_tick A p (FloatLaws.effective_volatility A v2) k2
      = Ok a2 /\
      RangeSpec.upper_tick A p (FloatLaws.effective_volatility A v2) k2
      = Ok b2 /\
      FloatLaws.leq A (Optimizer.lit_0 A)
        (FloatLaws.effective_volatility A v1) /\
      FloatLaws.number A k1 /\
      Optimizer.width r1 = ts * Z.max 1 (b1 / ts - a1 / ts + 1) /\
      Optimizer.width r2 = ts * Z.max 1 (b2 / ts - a2 / ts + 1)).
  { intros v1 k1 v2 k2 r1 r2 H1 H2.
    apply (compute_optimal_range_returns A p v1 k1 ts r1 Hts) in H1.
    apply (compute_optimal_range_returns A p v2 k2 ts r2 Hts) in H2.
    destruct H1 as (c & a1 & b1 & Hc & Ha1 & Hb1 & ->).
    destruct H2 as (_ & a2 & b2 & _ & Ha2 & Hb2 & ->).
    exists c, a1, b1, a2, b2.
    destruct (bounds_data A laws _ _ _ _ _ Ha1 Hb1)
      as (_ & _ & _ & _ & _ & _ & _ & _ & Nk & Nw).
    rewrite !range_of_width by exact Hts.
    repeat split; try assumption.
    apply (effective_volatility_nonneg A laws). exact Nw. }
  split; [|split].
  - intros k v1 v2 r1 r2 H1 H2 Hv.
    destruct (Hcalls _ _ _ _ _ _ H1 H2)
      as (c & a1 & b1 & a2 & b2 & Hc & Ha1 & Hb1 & Ha2 & Hb2 & Hw1 & Nk
          & -> & ->).
    destruct (ticks_in_volatility A laws _ _ _ _ _ _ _ _ _
                Hc Ha1 Hb1 Ha2 Hb2 Hw1 Hv) as [Hpos Hneg].
    destruct (FloatLaws.le_total laws Nk (zero_number A laws)) as [Hk | Hk].
    + destruct (Hneg Hk) as [Q1 Q2].
      apply Hdiv in Q1. apply Hdiv in Q2.
      rewrite !Z.max_l by lia. lia.
    + destruct (Hpos Hk) as (Q1 & Q2 & Q3).
      apply Hdiv in Q1. apply Hdiv in Q2. apply Hdiv in Q3. nia.
  - intros v k1 k2 r1 r2 H1 H2 Hk.
    destruct (Hcalls _ _ _ _ _ _ H1 H2)
      as (c & a1 & b1 & a2 & b2 & Hc & Ha1 & Hb1 & Ha2 & Hb2 & Hw1 & Nk
          & -> & ->).
    destruct (ticks_in_multiplier A laws _ _ _ _ _ _ _ _ _
                Hc Ha1 Hb1 Ha2 Hb2 Hw1 Hk) as [Q1 Q2].
    apply Hdiv in Q1. apply Hdiv in Q2. nia.
  - intros v1 k1 v2 k2 r1 r2 H1 H2 Hk1 Hcase.
    destruct (Hcalls _ _ _ _ _ _ H1 H2)
      as (c & a1 & b1 & a2 & b2 & Hc & Ha1 & Hb1 & Ha2 & Hb2 & Hw1 & Nk
          & W1 & W2).
    exists a1, b1, a2, b2.
    assert (Q : a2 <= a1 /\ a1 <= b1 /\ b1 <= b2).
    { destruct Hcase as [[<- Hv] | [<- Hk]].
      - exact (proj1 (ticks_in_volatility A laws _ _ _ _ _ _ _ _ _
                        Hc Ha1 Hb1 Ha2 Hb2 Hw1 Hv) Hk1).
      - destruct (ticks_in_multiplier A laws _ _ _ _ _ _ _ _ _
                    Hc Ha1 Hb1 Ha2 Hb2 Hw1 Hk) as [Q1 Q2].
        pose proof (proj1 (bounds_order A laws _ _ _ _ _ _
                             Hc Ha1 Hb1 Hw1) Hk1).
        lia. }
    destruct Q as (Q1 & Q2 & Q3).
    apply Hdiv in Q1. apply Hdiv in Q2. apply Hdiv in Q3.
    rewrite Z.max_r in W1 by lia. rewrite Z.max_r in W2 by lia.
    repeat split; try assumption.
    + rewrite W1, W2. intro H. assert (b1 / ts - a1 / ts < b2 / ts - a2 / ts)
        by nia. lia.
    + rewrite W1, W2. intro H.
      apply Z.mul_lt_mono_pos_l; [exact Hts | lia].
Qed.

Lemma width_never_decreases_witness :
  FloatLaws.Monotone ExactArith.real_arith /\
  0 < 60 /\
  (exists r1 r2,
      Optimizer.compute_optimal_range ExactArith.real_arith
        2450%R 0.05%R 2%R 60 = Ok r1 /\
      Optimizer.compute_optimal_range ExactArith.real_arith
        2450%R 0.20%R 2%R 60 = Ok r2 /\
      Optimizer.width r1 <= Optimizer.width r2) /\
  (exists r1 r2,
      Optimizer.compute_optimal_range ExactArith.real_arith
        2450%R 0.08%R 1%R 60 = Ok r1 /\
      Optimizer.compute_optimal_range ExactArith.real_arith
        2450%R 0.08%R 3%R 60 = Ok r2 /\
      Optimizer.width r1 <= Optimizer.width r2).
Proof.
  assert (H : 0 < 60) by lia.
  assert (Hp : (0 < 2450)%R) by lra.
  pose proof (@width_never_decreases ExactArith.real_arith
                real_arith_monotone 2450%R 60 H) as (Hvol & Hmul & _).
  split; [exact real_arith_monotone|]. split; [exact H|]. split.
  - destruct (exact_range_returns 0.05%R 2%R Hp H) as [r1 E1].
    destruct (exact_range_returns 0.20%R 2%R Hp H) as [r2 E2].
    exists r1, r2. split; [exact E1|]. split; [exact E2|].
    apply (Hvol _ _ _ _ _ E1 E2).
    apply real_leq. unfold FloatLaws.effective_volatility.
    cbn -[Rle_dec].
    destruct (Rle_dec 0.05 0); destruct (Rle_dec 0.20 0); lra.
  - destruct (exact_range_returns 0.08%R 1%R Hp H) as [r1 E1].
    destruct (exact_range_returns 0.08%R 3%R Hp H) as [r2 E2].
    exists r1, r2. split; [exact E1|]. split; [exact E2|].
    apply (Hmul _ _ _ _ _ E1 E2).
    apply real_leq. lra.
Defined.

(** C5, as stated, fails: at price 1 and spacing 60, the volatilities 0.01
    and 0.011 with multiplier 1 give the same range, hence the same width
    240, and so do the multipliers 1 and 1.1 with volatility 0.01. *)
Lemma width_not_strict :
  PrimFloat.ltb 0 1 = true /\
  PrimFloat.ltb 0.01 0.011 = true /\
  PrimFloat.ltb 1 1.1 = true /\
  Optimizer.compute_optimal_range StandInLibm.arith
    1%float 0.01%float 1%float 60 = Ok (-120, 120) /\
  Optimizer.compute_optimal_range StandInLibm.arith
    1%float 0.011%float 1%float 60 = Ok (-120, 120) /\
  Optimizer.compute_optimal_range StandInLibm.arith
    1%float 0.01%float 1.1%float 60 = Ok (-120, 120) /\
  Optimizer.width (-120, 120) = 240.
Proof. vm_compute. repeat split. Qed.

(** Across the clamp the width can even drop: volatility 0 is computed as
    0.01 and gives width 240, volatility 0.005 gives width 120.  This is why
    the monotonicity above is in the volatility computed with. *)
Example width_drops_across_clamp :
  PrimFloat.ltb 0 0.005 = true /\
  Optimizer.compute_optimal_range StandInLibm.arith
    1%float 0%float 1%float 60 = Ok (-120, 120) /\
  Optimizer.compute_optimal_range StandInLibm.arith
    1%float 0.005%float 1%float 60 = Ok (-60, 60).
Proof. vm_compute. repeat split. Qed.

(** The two comparisons of the tests of the repository, with the stand-in
    library: the larger volatility and the larger multiplier give the wider
    range. *)
Example width_grows_in_the_tests :
  Optimizer.compute_optimal_range StandInLibm.arith
    2450%float 0.05%float 2%float 60 = Ok (77040, 79080) /\
  Optimizer.compute_optimal_range StandInLibm.arith
    2450%float 0.20%float 2%float 60 = Ok (74040, 82080) /\
  Optimizer.compute_optimal_range StandInLibm.arith
    2450%float 0.08%float 1%float 60 = Ok (77220, 78900) /\
  Optimizer.compute_optimal_range StandInLibm.arith
    2450%float 0.08%float 3%float 60 = Ok (75600, 80460).
Proof. vm_compute. repeat split. Qed.

(* ================================================================== *)
(** * Further properties: the place of the current price *)
(* ================================================================== *)

(** In an arithmetic that keeps the order and where the exponential of a
    number at or above 0 does not lower a price, with a positive tick
    spacing and a multiplier at or above 0, a range that
    [compute_optimal_range] returns holds the tick of the current price:
    [tick_lower <= price_to_tick(current_price) < tick_upper]. *)
Theorem range_holds_current_tick : forall (A : Optimizer.Arith),
  FloatLaws.Monotone A -> FloatLaws.Expanding A ->
  forall (p v k : Optimizer.float A) (ts tl tu : Z),
  0 < ts ->
  FloatLaws.leq A (Optimizer.lit_0 A) k ->
  Optimizer.compute_optimal_range A p v k ts = Ok (tl, tu) ->
  exists c, Optimizer.price_to_tick A p = Ok c /\ tl <= c < tu.
Proof.
  intros A laws more p v k ts tl tu Hts Hk H.
  apply (compute_optimal_range_returns A p v k ts (tl, tu) Hts) in H.
  destruct H as (c & a & b & Hc & Ha & Hb & E).
  exists c. split; [exact Hc|].
  destruct (bounds_data A laws _ _ _ _ _ Ha Hb)
    as (_ & _ & _ & _ & _ & _ & _ & _ & _ & Nw).
  pose proof (effective_volatility_nonneg A laws v Nw) as Hw.
  destruct (bounds_around_price A laws _ _ _ _ _ _ more Hc Ha Hb Hw Hk)
    as [Hac Hcb].
  unfold RangeSpec.range_of in E. cbv zeta in E.
  pose proof (Z.mul_div_le a ts Hts) as Ha1.
  pose proof (Z.mul_succ_div_gt b ts Hts) as Hb1.
  assert (Hab : a / ts <= b / ts) by (apply Z.div_le_mono; lia).
  destruct (a / ts * ts >=? b / ts * ts + ts) eqn:G.
  - rewrite Z.geb_leb in G. apply Z.leb_le in G. nia.
  - injection E as -> ->. nia.
Qed.

Lemma range_holds_current_tick_witness :
  exists tl tu c : Z,
    Optimizer.compute_optimal_range ExactArith.real_arith
      2450%R 0.082%R 2%R 60 = Ok (tl, tu) /\
    Optimizer.price_to_tick ExactArith.real_arith 2450%R = Ok c /\
    tl <= c < tu.
Proof.
  assert (H : 0 < 60) by lia.
  assert (Hp : (0 < 2450)%R) by lra.
  assert (Hk : FloatLaws.leq ExactArith.real_arith
                 (Optimizer.lit_0 ExactArith.real_arith) 2%R)
    by (apply real_leq; cbn; lra).
  destruct (exact_range_returns 0.082%R 2%R Hp H) as [[tl tu] E].
  destruct (@range_holds_current_tick ExactArith.real_arith
              real_arith_monotone real_arith_expanding
              2450%R 0.082%R 2%R 60 tl tu H Hk E) as (c & Hc & Hin).
  exists tl, tu, c. auto.
Defined.

(** The same on floats, with the stand-in library: the tick of the price
    2450 and the range around it. *)
Example current_tick_on_floats :
  Optimizer.price_to_tick StandInLibm.arith 2450%float = Ok 78042 /\
  Optimizer.compute_optimal_range StandInLibm.arith
    2450%float 0.082%float 2%float 60 = Ok (76380, 79740).
Proof. vm_compute. repeat split. Qed.

(* ================================================================== *)
(** * Further properties: rounding of ticks *)
(* ================================================================== *)

(** [round_tick] rounds towards minus infinity, not to the nearest multiple:
    with a positive spacing the result is the multiple of the spacing at or
    just below the tick (with a negative one, at or just above); a spacing
    of 0 is a ZeroDivisionError; a rounded tick rounds to itself. *)
Theorem round_tick_floors : forall tick ts : Z,
  (ts = 0 -> Optimizer.round_tick tick ts = Err ZeroDivisionError) /\
  (ts <> 0 ->
   exists r,
     Optimizer.round_tick tick ts = Ok r /\
     r mod ts = 0 /\
     (0 < ts -> r <= tick < r + ts) /\
     (ts < 0 -> r + ts < tick <= r) /\
     Optimizer.round_tick r ts = Ok r).
Proof.
  intros tick ts. split.
  - intros ->. reflexivity.
  - intro Hts. unfold Optimizer.round_tick.
    replace (ts =? 0) with false by (symmetry; apply Z.eqb_neq; exact Hts).
    exists (tick / ts * ts). split; [reflexivity|].
    split; [apply Z.mod_mul; exact Hts|].
    pose proof (Z.div_mod tick ts Hts) as E.
    split; [|split].
    + intro Hpos. pose proof (Z.mod_pos_bound tick ts Hpos). lia.
    + intro Hneg. pose proof (Z.mod_neg_bound tick ts Hneg). lia.
    + rewrite Z.div_mul by exact Hts. reflexivity.
Qed.

(** The values of the test of the repository. *)
Example round_tick_values :
  Optimizer.round_tick 100 60 = Ok 60 /\
  Optimizer.round_tick 119 60 = Ok 60 /\
  Optimizer.round_tick 120 60 = Ok 120 /\
  Optimizer.round_tick (-100) 60 = Ok (-120) /\
  Optimizer.round_tick 0 60 = Ok 0.
Proof. repeat split. Qed.

(* ================================================================== *)
(** * Further properties: hexadecimal text *)
(* ================================================================== *)

Lemma hex_byte_digits : forall x : byte,
  PyText.is_space (PyText.hex_digit (Byte.to_N x / 16)) = false /\
  PyText.digit_value (PyText.hex_digit (Byte.to_N x / 16))
    = Some (Byte.to_N x / 16)%N /\
  PyText.digit_value (PyText.hex_digit (Byte.to_N x mod 16))
    = Some (Byte.to_N x mod 16)%N /\
  Byte.of_N (16 * (Byte.to_N x / 16) + Byte.to_N x mod 16) = Some x.
Proof.
  intro x. destruct x; vm_compute; repeat split.
Qed.

Lemma fromhex_hex : forall b : bytes, PyText.fromhex (PyText.hex b) = Ok b.
Proof.
  induction b as [|x b IH]; [reflexivity|].
  destruct (hex_byte_digits x) as (Hs & Hd1 & Hd2 & Hb).
  cbn [PyText.hex PyText.fromhex]. rewrite Hs, Hd1, Hd2, IH. cbn [bind].
  rewrite Hb. reflexivity.
Qed.

(** The text of a byte string never starts with [0x]. *)
Lemma hex_no_prefix : forall b : bytes,
  PyText.removeprefix (PyText.hex b) "0x" = PyText.hex b.
Proof.
  intros [|x b]; [reflexivity|].
  unfold PyText.removeprefix. cbn [PyText.hex PyText.strip_prefix].
  destruct (Ascii.eqb "0" (PyText.hex_digit (Byte.to_N x / 16)));
    [|reflexivity].
  replace (Ascii.eqb "x" (PyText.hex_digit (Byte.to_N x mod 16))) with false;
    [reflexivity|].
  destruct x; reflexivity.
Qed.

(** The signature text a client sends, ["0x" + sig.hex()] or [sig.hex()]
    alone, is read back by [submit_intent] as the bytes [sig]; the text of
    [n] bytes has [2 n] characters. *)
Theorem signature_text_roundtrip : forall sig : bytes,
  PyText.fromhex (PyText.removeprefix ("0x" ++ PyText.hex sig) "0x") = Ok sig /\
  PyText.fromhex (PyText.removeprefix (PyText.hex sig) "0x") = Ok sig /\
  String.length (PyText.hex sig) = (2 * length sig)%nat.
Proof.
  intro sig. split; [|split].
  - change (PyText.removeprefix ("0x" ++ PyText.hex sig) "0x")
      with (PyText.hex sig).
    apply fromhex_hex.
  - rewrite hex_no_prefix. apply fromhex_hex.
  - induction sig as [|x b IH]; [reflexivity|].
    cbn [PyText.hex String.length length]. rewrite IH. lia.
Qed.

(** Text that is not hexadecimal is refused, white space between bytes is
    skipped, and only the lower-case prefix is removed. *)
Example fromhex_values :
  PyText.fromhex "0a ff" = Ok [x0a; xff] /\
  PyText.fromhex "0A" = Ok [x0a] /\
  PyText.fromhex "abc" = Err ValueError /\
  PyText.fromhex "zz" = Err ValueError /\
  PyText.fromhex (PyText.removeprefix "0Xab" "0x") = Err ValueError.
Proof. repeat split. Qed.

(* ================================================================== *)
(** * Further properties: the message to sign *)
(* ================================================================== *)

(** [build_eip712_message] keeps every input apart: two calls that build
    the same message had the same intent, the same chain id and the same
    verifying contract. *)
Theorem eip712_message_injective :
  forall (i1 i2 : LPIntent) (c1 c2 : Z) (v1 v2 : address),
  Signer.build_eip712_message i1 c1 v1 = Signer.build_eip712_message i2 c2 v2 ->
  i1 = i2 /\ c1 = c2 /\ v1 = v2.
Proof.
  intros [u1 [a1 b1 f1 t1 h1] l1 up1 am1 n1 d1]
         [u2 [a2 b2 f2 t2 h2] l2 up2 am2 n2 d2] c1 c2 v1 v2 H.
  unfold Signer.build_eip712_message in H. cbn in H.
  inversion H. subst. auto.
Qed.

Lemma eip712_message_injective_witness :
  Signer.build_eip712_message Sample.intent0 31337 (Sample.addr x12)
  = Signer.build_eip712_message Sample.intent0 31337 (Sample.addr x12) /\
  Sample.intent0 = Sample.intent0.
Proof.
  split; [reflexivity|].
  apply (@eip712_message_injective Sample.intent0 Sample.intent0 31337 31337
           (Sample.addr x12) (Sample.addr x12) eq_refl).
Defined.

(* ================================================================== *)
(** * Further properties: the pool key of the configuration route *)
(* ================================================================== *)

Lemma str_min_max_cases : forall a b : string,
  String.leb (PyText.str_min a b) (PyText.str_max a b) = true /\
  ((PyText.str_min a b = a /\ PyText.str_max a b = b) \/
   (PyText.str_min a b = b /\ PyText.str_max a b = a)).
Proof.
  intros a b. unfold PyText.str_min, PyText.str_max, String.ltb, String.leb.
  pose proof (String.compare_antisym a b) as Hab.
  destruct (String.compare a b) eqn:E.
  - apply String.compare_eq_iff in E. subst b.
    assert (Hr : String.compare a a = Eq)
      by (destruct (String.compare a a); [reflexivity | discriminate Hab
                                           | discriminate Hab]).
    rewrite Hr. cbn. rewrite Hr. auto.
  - destruct (String.compare b a) eqn:E'; cbn in Hab; try discriminate.
    rewrite ?E. auto.
  - destruct (String.compare b a) eqn:E'; cbn in Hab; try discriminate.
    rewrite ?E'. auto.
Qed.

(** [get_config] orders the two token addresses as strings: when both are
    set, [currency0] is not above [currency1] and the two are the two
    tokens; when one is missing both are empty.  Fee, spacing and hooks are
    3000, 60 and the hook address. *)
Theorem config_pool_key_ordered : forall cfg : Config.Config,
  exists view : App.ConfigView,
    App.get_config (Some cfg) = Some view /\
    let a := Config.token_a_address cfg in
    let b := Config.token_b_address cfg in
    let k := App.v_pool_key view in
    (a <> EmptyString -> b <> EmptyString ->
     String.leb (App.v_currency0 k) (App.v_currency1 k) = true /\
     ((App.v_currency0 k = a /\ App.v_currency1 k = b) \/
      (App.v_currency0 k = b /\ App.v_currency1 k = a))) /\
    (a = EmptyString \/ b = EmptyString ->
     App.v_currency0 k = EmptyString /\ App.v_currency1 k = EmptyString) /\
    App.v_fee k = 3000 /\ App.v_tickSpacing k = 60 /\
    App.v_hooks k = Config.hook_address cfg.
Proof.
  intro cfg. eexists. split; [reflexivity|].
  cbn [App.v_pool_key App.v_currency0 App.v_currency1 App.v_fee
       App.v_tickSpacing App.v_hooks].
  generalize (Config.token_a_address cfg) (Config.token_b_address cfg).
  intros a b. cbv zeta. split; [|split; [|repeat split]].
  - intros Ha Hb.
    assert (Ta : App.truthy a = true)
      by (destruct a; [congruence | reflexivity]).
    assert (Tb : App.truthy b = true)
      by (destruct b; [congruence | reflexivity]).
    rewrite Ta, Tb. cbn [andb]. apply str_min_max_cases.
  - intros [Ha | Hb].
    + rewrite Ha. cbn. split; reflexivity.
    + rewrite Hb. rewrite andb_false_r. split; reflexivity.
Qed.

(** The order is that of the text: an upper-case digit sorts before a
    lower-case one, whatever the numbers the texts denote. *)
Example str_min_is_textual :
  PyText.str_min "0xa0" "0xB0" = "0xB0"%string /\
  PyText.str_max "0xa0" "0xB0" = "0xa0"%string.
Proof. split; reflexivity. Qed.

(* ================================================================== *)
(** * Further properties: size of the tree and of the proofs *)
(* ================================================================== *)

Section MerkleSize.

Variable keccak : bytes -> bytes.

Local Abbreviation hash_pair := (Merkle._hash_pair keccak).
Local Abbreviation pair_up := (MerkleSpec.pair_up keccak).
Local Abbreviation chain := (MerkleSpec.chain keccak).

(** Halving [n] (rounding up) lowers the rounded-up binary logarithm by
    one. *)
Lemma log2_up_half : forall n : nat,
  (1 < n)%nat -> Nat.log2_up n = S (Nat.log2_up ((n + 1) / 2)).
Proof.
  intros n Hn.
  set (m := ((n + 1) / 2)%nat).
  assert (Hm : (2 * m - 1 <= n <= 2 * m)%nat /\ (1 <= m)%nat).
  { unfold m. pose proof (Nat.div_mod_eq (n + 1) 2) as E.
    pose proof (Nat.mod_upper_bound (n + 1) 2). lia. }
  destruct Hm as [[Hlo Hhi] Hm1].
  apply Nat.log2_up_unique; [lia|].
  cbn [Nat.pred].
  destruct (Nat.eq_dec m 1) as [E1 | E1].
  - rewrite E1 in *. change (Nat.log2_up 1) with 0%nat. simpl. lia.
  - assert (Hm2 : (1 < m)%nat) by lia.
    pose proof (Nat.log2_up_spec m Hm2) as [S1 S2].
    destruct (Nat.log2_up m) as [|k] eqn:Ek.
    + simpl in S2. lia.
    + cbn [Nat.pred] in S1.
      rewrite (Nat.pow_succ_r' 2 (S k)). rewrite (Nat.pow_succ_r' 2 k) in *.
      lia.
Qed.

(** The loop of [_build] runs as many times as the rounded-up binary
    logarithm of the number of leaves. *)
Lemma chain_length : forall fuel l,
  (length l <= fuel)%nat -> l <> [] ->
  length (chain fuel l) = Nat.log2_up (length l).
Proof.
  induction fuel as [|fuel IH]; intros l Hlen Hne.
  - destruct l; simpl in *; [congruence | lia].
  - cbn [MerkleSpec.chain].
    destruct (1 <? length l)%nat eqn:E.
    + apply Nat.ltb_lt in E. cbn [length].
      rewrite IH.
      * rewrite pair_up_length. symmetry. apply log2_up_half. exact E.
      * rewrite pair_up_length. pose proof (half_le E). lia.
      * apply pair_up_nonempty. exact Hne.
    + apply Nat.ltb_ge in E.
      assert (H1 : length l = 1%nat)
        by (destruct l; simpl in *; [congruence | lia]).
      rewrite H1. reflexivity.
Qed.

Lemma proof_fold_err : forall (ls : list (list bytes)) e,
  fold_left Merkle.proof_step ls (Err e) = Err e.
Proof. induction ls as [|l ls IH]; intro e; [reflexivity | apply IH]. Qed.

(** One turn of the loop of [get_proof] appends at most one node. *)
Lemma proof_step_grows : forall layer acc idx p idx',
  Merkle.proof_step (Ok (acc, idx)) layer = Ok (p, idx') ->
  (length p <= S (length acc))%nat.
Proof.
  intros layer acc idx p idx'. unfold Merkle.proof_step. cbn [bind].
  destruct (idx mod 2 =? 0).
  - destruct (idx + 1 <? Z.of_nat (length layer)).
    + destruct (index layer (idx + 1)); cbn [bind]; [|discriminate].
      intro H. inversion H. rewrite length_app. simpl. lia.
    + cbn [bind]. intro H. inversion H. lia.
  - destruct (index layer (idx - 1)); cbn [bind]; [|discriminate].
    intro H. inversion H. rewrite length_app. simpl. lia.
Qed.

Lemma proof_fold_grows : forall (ls : list (list bytes)) acc idx p idx',
  fold_left Merkle.proof_step ls (Ok (acc, idx)) = Ok (p, idx') ->
  (length p <= length acc + length ls)%nat.
Proof.
  induction ls as [|l ls IH]; intros acc idx p idx' H.
  - simpl in H. inversion H. simpl. lia.
  - cbn [fold_left] in H.
    destruct (Merkle.proof_step (Ok (acc, idx)) l) as [[acc1 idx1]|e] eqn:E.
    + apply proof_step_grows in E. apply IH in H. simpl. lia.
    + rewrite proof_fold_err in H. discriminate.
Qed.

Lemma removelast_length : forall (A : Type) (l : list A),
  length (removelast l) = (length l - 1)%nat.
Proof.
  intros A l. induction l as [|a [|b l] IH]; try reflexivity.
  change (removelast (a :: b :: l)) with (a :: removelast (b :: l)).
  cbn [length] in *. rewrite IH. lia.
Qed.

(** A tree of [n] leaves has [1 + ceil(log2 n)] layers, and no proof is
    longer than [ceil(log2 n)]. *)
Theorem tree_depth_logarithmic : forall (lvs : list bytes) (t : Merkle.MerkleTree),
  Merkle.__init__ keccak lvs = Ok t ->
  length (Merkle.layers t) = S (Nat.log2_up (length lvs)) /\
  forall i proof,
    Merkle.get_proof t i = Ok proof ->
    (length proof <= Nat.log2_up (length lvs))%nat.
Proof.
  intros lvs t Ht.
  assert (Hne : lvs <> []) by (intros ->; discriminate).
  rewrite init_layers in Ht by exact Hne. inversion Ht; subst t; clear Ht.
  cbn [Merkle.layers].
  assert (Hlen : length (chain (length lvs) lvs) = Nat.log2_up (length lvs))
    by (apply chain_length; [lia | exact Hne]).
  split; [cbn [length]; rewrite Hlen; reflexivity|].
  intros i proof. unfold Merkle.get_proof. cbn [Merkle.leaves Merkle.layers].
  destruct ((i <? 0) || (i >=? Z.of_nat (length lvs)))%bool; [discriminate|].
  destruct (fold_left Merkle.proof_step
              (all_but_last (lvs :: chain (length lvs) lvs)) (Ok ([], i)))
    as [[p idx']|e] eqn:E; cbn [bind]; [|discriminate].
  intro H. inversion H; subst proof. cbn [fst].
  apply proof_fold_grows in E. unfold all_but_last in E.
  rewrite removelast_length in E. cbn [length] in E. lia.
Qed.


End MerkleSize.

Lemma tree_depth_logarithmic_witness :
  exists t,
    Merkle.__init__ Keccak256.keccak256
      [Sample.leafA; Sample.leafB; Sample.leafC] = Ok t /\
    length (Merkle.layers t) = 3%nat.
Proof.
  destruct (Merkle.__init__ Keccak256.keccak256
              [Sample.leafA; Sample.leafB; Sample.leafC]) as [t|e] eqn:E;
    [|vm_compute in E; discriminate E].
  exists t. split; [reflexivity|].
  destruct (@tree_depth_logarithmic Keccak256.keccak256 _ _ E) as [H _].
  exact H.
Defined.

Section MerkleFull.

Variable keccak : bytes -> bytes.

Local Abbreviation hash_pair := (Merkle._hash_pair keccak).
Local Abbreviation pair_up := (MerkleSpec.pair_up keccak).
Local Abbreviation chain := (MerkleSpec.chain keccak).

(** In a layer of even length every node has a sibling: one turn of the
    loop of [get_proof] appends exactly one node. *)
Lemma proof_step_even_layer : forall layer idx acc,
  (idx < length layer)%nat -> Nat.even (length layer) = true ->
  exists sib,
    Merkle.proof_step (Ok (acc, Z.of_nat idx)) layer
    = Ok (acc ++ [sib], Z.of_nat (idx / 2)).
Proof.
  intros layer idx acc Hlt Hev.
  apply Nat.even_spec in Hev. destruct Hev as [h Hh].
  unfold Merkle.proof_step. cbn [bind].
  replace (Z.of_nat idx / 2) with (Z.of_nat (idx / 2))
    by (rewrite Nat2Z.inj_div; reflexivity).
  destruct (even_or_odd idx) as [[m ->] | [m ->]].
  - replace (Z.of_nat (2 * m) mod 2 =? 0) with true
      by (symmetry; apply Z.eqb_eq; rewrite Nat2Z.inj_mul, Z.mul_comm;
          apply Z.mod_mul; lia).
    replace (Z.of_nat (2 * m) + 1 <? Z.of_nat (length layer)) with true
      by (symmetry; apply Z.ltb_lt; lia).
    destruct (nth_error layer (2 * m + 1)) as [sib|] eqn:E;
      [| apply nth_error_None in E; lia].
    replace (Z.of_nat (2 * m) + 1) with (Z.of_nat (2 * m + 1)) by lia.
    rewrite (index_nat _ _ E). cbn [bind]. exists sib. reflexivity.
  - replace (Z.of_nat (2 * m + 1) mod 2 =? 0) with false
      by (symmetry; apply Z.eqb_neq;
          rewrite Nat2Z.inj_add, Nat2Z.inj_mul, Z.add_comm, Z.mul_comm,
            Z.mod_add; [discriminate | lia]).
    destruct (nth_error layer (2 * m)) as [sib|] eqn:E;
      [| apply nth_error_None in E; lia].
    replace (Z.of_nat (2 * m + 1) - 1) with (Z.of_nat (2 * m)) by lia.
    rewrite (index_nat _ _ E). cbn [bind]. exists sib. reflexivity.
Qed.

Lemma proof_length_pow2 : forall d fuel l idx acc,
  length l = (2 ^ d)%nat -> (length l <= fuel)%nat -> (idx < length l)%nat ->
  exists p idx',
    fold_left Merkle.proof_step
      (all_but_last (l :: chain fuel l)) (Ok (acc, Z.of_nat idx))
      = Ok (p, idx') /\
    length p = (length acc + d)%nat.
Proof.
  unfold all_but_last.
  induction d as [|d IH]; intros fuel l idx acc Hl Hfuel Hidx.
  - simpl in Hl. destruct fuel as [|fuel]; [lia|].
    cbn [MerkleSpec.chain]. rewrite Hl. cbn.
    exists acc, (Z.of_nat idx). split; [reflexivity | lia].
  - assert (H2 : (1 < length l)%nat).
    { rewrite Hl, Nat.pow_succ_r'.
      pose proof (Nat.pow_nonzero 2 d). lia. }
    destruct fuel as [|fuel]; [lia|].
    cbn [MerkleSpec.chain].
    replace (1 <? length l)%nat with true
      by (symmetry; apply Nat.ltb_lt; exact H2).
    change (removelast (l :: pair_up l :: chain fuel (pair_up l)))
      with (l :: removelast (pair_up l :: chain fuel (pair_up l))).
    cbn [fold_left].
    assert (Hev : Nat.even (length l) = true).
    { rewrite Hl, Nat.pow_succ_r'. apply Nat.even_spec.
      exists (2 ^ d)%nat. reflexivity. }
    destruct (@proof_step_even_layer l idx acc Hidx Hev) as [sib Hs]. rewrite Hs.
    assert (Hpl : length (pair_up l) = (2 ^ d)%nat).
    { rewrite pair_up_length, Hl, Nat.pow_succ_r'.
      replace (2 * 2 ^ d + 1)%nat with (1 + 2 ^ d * 2)%nat by lia.
      rewrite Nat.div_add by lia. reflexivity. }
    destruct (IH fuel (pair_up l) (idx / 2)%nat (acc ++ [sib])) as (p & i' & Hp & Hlen).
    + exact Hpl.
    + rewrite pair_up_length. pose proof (half_le H2). lia.
    + rewrite Hpl. apply Nat.Div0.div_lt_upper_bound.
      rewrite <- Nat.pow_succ_r', <- Hl. exact Hidx.
    + exists p, i'. split; [exact Hp|].
      rewrite Hlen, length_app. simpl. lia.
Qed.

(** When the number of leaves is a power of two, [2 ^ d], every proof has
    exactly [d] nodes. *)
Theorem proof_length_power_of_two :
  forall (d : nat) (lvs : list bytes) (t : Merkle.MerkleTree)
         (i : Z) (proof : list bytes),
  length lvs = (2 ^ d)%nat ->
  Merkle.__init__ keccak lvs = Ok t ->
  Merkle.get_proof t i = Ok proof ->
  length proof = d.
Proof.
  intros d lvs t i proof Hlen Ht.
  assert (Hne : lvs <> []) by (intros ->; discriminate).
  rewrite init_layers in Ht by exact Hne. inversion Ht; subst t; clear Ht.
  unfold Merkle.get_proof. cbn [Merkle.leaves Merkle.layers].
  destruct ((i <? 0) || (i >=? Z.of_nat (length lvs)))%bool eqn:Ei;
    [discriminate|].
  apply orb_false_iff in Ei. destruct Ei as [E1 E2].
  apply Z.ltb_ge in E1. rewrite Z.geb_leb in E2. apply Z.leb_gt in E2.
  destruct (@proof_length_pow2 d (length lvs) lvs (Z.to_nat i) [] Hlen (le_n _))
    as (p & i' & Hp & Hpl); [lia|].
  rewrite Z2Nat.id in Hp by lia. rewrite Hp. cbn [bind fst].
  intro H. inversion H; subst proof. exact Hpl.
Qed.

(** The root of a batch with more than one leaf is also the root of the
    shorter batch made of its layer-1 nodes, and every layer-1 node has a
    proof that [verify] accepts against that root, as if it were a leaf:
    the root tells neither the number of leaves nor leaves from nodes. *)
Theorem layer_one_is_a_batch :
  forall (lvs : list bytes) (t : Merkle.MerkleTree) (l1 : list bytes),
  Merkle.__init__ keccak lvs = Ok t ->
  index (Merkle.layers t) 1 = Ok l1 ->
  (length l1 < length lvs)%nat /\
  exists t1 rt,
    Merkle.__init__ keccak l1 = Ok t1 /\
    Merkle.root t = Ok rt /\
    Merkle.root t1 = Ok rt /\
    forall j,
      0 <= j < Z.of_nat (length l1) ->
      exists node proof,
        index l1 j = Ok node /\
        Merkle.get_proof t1 j = Ok proof /\
        Merkle.verify keccak node proof rt = true.
Proof.
  intros lvs t l1 Ht Hl1.
  assert (Hne : lvs <> []) by (intros ->; discriminate).
  pose proof Ht as Ht'.
  rewrite init_layers in Ht' by exact Hne. inversion Ht'; subst t; clear Ht'.
  cbn [Merkle.layers] in Hl1.
  apply index_nonneg_inv in Hl1; [|lia].
  change (Z.to_nat 1) with 1%nat in Hl1.
  assert (H0 : nth_error (lvs :: chain (length lvs) lvs) 0 = Some lvs)
    by reflexivity.
  destruct (chain_adjacent _ _ _ _ H0 Hl1) as [Hlen ->].
  assert (Hne1 : pair_up lvs <> []) by (apply pair_up_nonempty; exact Hne).
  split; [rewrite pair_up_length; pose proof (half_le Hlen); lia|].
  pose proof (tree_root_up keccak lvs Hlen) as Hup.
  unfold MerkleSpec.tree_root in Hup. rewrite Ht in Hup. cbn [bind] in Hup.
  rewrite (init_layers keccak Hne1) in Hup. cbn [bind] in Hup.
  assert (H0' : 0 <= 0 < Z.of_nat (length (pair_up lvs)))
    by (destruct (pair_up lvs); [congruence | simpl; lia]).
  destruct (built_proof_folds keccak Hne1 H0')
    as (t0 & _ & _ & rt & Ht0 & _ & _ & Hrt & _).
  rewrite init_layers in Ht0 by exact Hne1. inversion Ht0; subst t0; clear Ht0.
  exists (Merkle.mkTree (pair_up lvs)
            (pair_up lvs :: chain (length (pair_up lvs)) (pair_up lvs))), rt.
  split; [apply init_layers; exact Hne1|].
  split; [rewrite Hup; exact Hrt|].
  split; [exact Hrt|].
  intros j Hj.
  destruct (built_proof_folds keccak Hne1 Hj)
    as (t' & node & proof & rt' & Ht1 & Hnode & Hproof & Hroot & _ & Hver).
  rewrite init_layers in Ht1 by exact Hne1. inversion Ht1; subst t'.
  exists node, proof. rewrite Hroot in Hrt. inversion Hrt; subst rt'.
  auto.
Qed.

End MerkleFull.

Lemma proof_length_power_of_two_witness :
  exists t proof,
    Merkle.__init__ Keccak256.keccak256 [Sample.leafA; Sample.leafB] = Ok t /\
    Merkle.get_proof t 0 = Ok proof /\
    length proof = 1%nat.
Proof.
  destruct (@built_proof_folds Keccak256.keccak256
              [Sample.leafA; Sample.leafB] 0)
    as (t & leaf & proof & rt & Ht & _ & Hp & _);
    [discriminate | simpl; lia |].
  exists t, proof. split; [exact Ht|]. split; [exact Hp|].
  exact (@proof_length_power_of_two Keccak256.keccak256 1
           [Sample.leafA; Sample.leafB] t 0 proof eq_refl Ht Hp).
Defined.

Lemma layer_one_is_a_batch_witness :
  exists t l1,
    Merkle.__init__ Keccak256.keccak256
      [Sample.leafA; Sample.leafB; Sample.leafC] = Ok t /\
    index (Merkle.layers t) 1 = Ok l1 /\
    (length l1 < 3)%nat.
Proof.
  destruct (Merkle.__init__ Keccak256.keccak256
              [Sample.leafA; Sample.leafB; Sample.leafC]) as [t|e] eqn:E;
    [|vm_compute in E; discriminate E].
  destruct (index (Merkle.layers t) 1) as [l1|e] eqn:E1.
  - exists t, l1. split; [reflexivity|]. split; [exact E1|].
    destruct (@layer_one_is_a_batch Keccak256.keccak256 _ _ _ E E1) as [H _].
    exact H.
  - rewrite (@init_layers Keccak256.keccak256
               [Sample.leafA; Sample.leafB; Sample.leafC]) in E
      by discriminate.
    inversion E; subst t. discriminate E1.
Defined.

(* ================================================================== *)
(** * The leaf of an intent: what is refused *)
(* ================================================================== *)

Lemma is_address_dec : forall a,
  LeafSpec.is_address a \/ ~ LeafSpec.is_address a.
Proof.
  intro a. unfold LeafSpec.is_address.
  destruct (Nat.eq_dec (length a) 20); [left | right]; assumption.
Qed.

Lemma is_uint_dec : forall bits n,
  LeafSpec.is_uint bits n \/ ~ LeafSpec.is_uint bits n.
Proof.
  intros bits n. unfold LeafSpec.is_uint.
  destruct (Z_le_dec 0 n), (Z_lt_dec n (2 ^ bits)); tauto.
Qed.

Lemma is_int_dec : forall bits n,
  LeafSpec.is_int bits n \/ ~ LeafSpec.is_int bits n.
Proof.
  intros bits n. unfold LeafSpec.is_int.
  destruct (Z_le_dec (- 2 ^ (bits - 1)) n), (Z_lt_dec n (2 ^ (bits - 1)));
    tauto.
Qed.

Lemma encode_address_refused : forall a,
  ~ LeafSpec.is_address a ->
  Abi.encode_single Abi.t_address (Abi.v_address a) = Err EncodingError.
Proof.
  intros a H. unfold LeafSpec.is_address in H. cbn [Abi.encode_single].
  destruct (length a =? 20)%nat eqn:E; [|reflexivity].
  apply Nat.eqb_eq in E. contradiction.
Qed.

Lemma encode_uint_refused : forall bits n,
  ~ LeafSpec.is_uint bits n ->
  Abi.encode_single (Abi.uint bits) (Abi.v_int n) = Err EncodingError.
Proof.
  intros bits n H. unfold LeafSpec.is_uint in H. cbn [Abi.encode_single].
  destruct ((0 <=? n) && (n <? 2 ^ bits))%bool eqn:E; [|reflexivity].
  apply andb_true_iff in E. destruct E as [E1 E2].
  apply Z.leb_le in E1. apply Z.ltb_lt in E2. tauto.
Qed.

Lemma encode_int_refused : forall bits n,
  ~ LeafSpec.is_int bits n ->
  Abi.encode_single (Abi.int bits) (Abi.v_int n) = Err EncodingError.
Proof.
  intros bits n H. unfold LeafSpec.is_int in H. cbn [Abi.encode_single].
  destruct ((- 2 ^ (bits - 1) <=? n) && (n <? 2 ^ (bits - 1)))%bool eqn:E;
    [|reflexivity].
  apply andb_true_iff in E. destruct E as [E1 E2].
  apply Z.leb_le in E1. apply Z.ltb_lt in E2. tauto.
Qed.

Section LeafRefusals.

Variable keccak : bytes -> bytes.
Hypothesis keccak_length : forall b, length (keccak b) = 32%nat.

Import LeafSpec.

Ltac field_case D ok bad :=
  let H := fresh "H" in
  destruct D as [H | H];
  [ rewrite (ok H)
  | rewrite (bad H); cbn [bind]; right; split;
    [ unfold intent_fits, pool_fits; tauto | reflexivity ] ].

Lemma hash_pool_key_cases : forall p : PoolKey,
  (pool_fits p /\ exists h, Merkle._hash_pool_key keccak p = Ok h) \/
  (~ pool_fits p /\ Merkle._hash_pool_key keccak p = Err EncodingError).
Proof.
  intro p. unfold Merkle._hash_pool_key. cbn [Abi.encode].
  rewrite (encode_bytes32 _ (keccak_length _)).
  field_case (is_address_dec (currency0 p))
    (@encode_address (currency0 p)) (@encode_address_refused (currency0 p)).
  field_case (is_address_dec (currency1 p))
    (@encode_address (currency1 p)) (@encode_address_refused (currency1 p)).
  field_case (is_uint_dec 24 (fee p))
    (@encode_uint 24 (fee p)) (@encode_uint_refused 24 (fee p)).
  field_case (is_int_dec 24 (tick_spacing p))
    (@encode_int 24 (tick_spacing p)) (@encode_int_refused 24 (tick_spacing p)).
  field_case (is_address_dec (hooks p))
    (@encode_address (hooks p)) (@encode_address_refused (hooks p)).
  cbn [bind]. left. split; [unfold pool_fits; tauto|].
  eexists. reflexivity.
Qed.

(** The two ways a call of [compute_leaf] ends. *)
Lemma compute_leaf_cases : forall intent : LPIntent,
  (intent_fits intent /\
   exists leaf,
     Merkle.compute_leaf keccak intent = Ok leaf /\ length leaf = 32%nat) \/
  (~ intent_fits intent /\
   Merkle.compute_leaf keccak intent = Err EncodingError).
Proof.
  intro intent. unfold Merkle.compute_leaf.
  destruct (hash_pool_key_cases (pool intent)) as [[Hp [h Hh]] | [Hp Hh]];
    rewrite Hh; cbn [bind];
    [| right; split; [unfold intent_fits; tauto | reflexivity]].
  assert (Hlen : length h = 32%nat).
  { pose proof (hash_pool_key_encoding keccak keccak_length Hp) as E.
    rewrite Hh in E.
    assert (E' : h = keccak
                   (keccak (bytes_of_string Merkle.PoolKey_signature)
                    ++ address_word (currency0 (pool intent))
                    ++ address_word (currency1 (pool intent))
                    ++ uint_word (fee (pool intent))
                    ++ int_word (tick_spacing (pool intent))
                    ++ address_word (hooks (pool intent))))
      by congruence.
    rewrite E'. apply keccak_length. }
  cbn [Abi.encode].
  rewrite (encode_bytes32 _ (keccak_length _)), (encode_bytes32 _ Hlen).
  field_case (is_address_dec (user intent))
    (@encode_address (user intent)) (@encode_address_refused (user intent)).
  field_case (is_int_dec 24 (tick_lower intent))
    (@encode_int 24 (tick_lower intent))
    (@encode_int_refused 24 (tick_lower intent)).
  field_case (is_int_dec 24 (tick_upper intent))
    (@encode_int 24 (tick_upper intent))
    (@encode_int_refused 24 (tick_upper intent)).
  field_case (is_uint_dec 256 (amount intent))
    (@encode_uint 256 (amount intent))
    (@encode_uint_refused 256 (amount intent)).
  field_case (is_uint_dec 256 (nonce intent))
    (@encode_uint 256 (nonce intent))
    (@encode_uint_refused 256 (nonce intent)).
  field_case (is_uint_dec 256 (deadline intent))
    (@encode_uint 256 (deadline intent))
    (@encode_uint_refused 256 (deadline intent)).
  cbn [bind]. left. split; [unfold intent_fits; tauto|].
  eexists. split; [reflexivity | apply keccak_length].
Qed.

(** [compute_leaf] returns a 32-byte leaf exactly for the intents whose
    fields fit their Solidity types; for any other intent the encoder
    refuses a field and the call raises, whatever the other fields are. *)
Theorem compute_leaf_accepts_fitting_intents : forall intent : LPIntent,
  (intent_fits intent /\
   exists leaf,
     Merkle.compute_leaf keccak intent = Ok leaf /\ length leaf = 32%nat) \/
  (~ intent_fits intent /\
   Merkle.compute_leaf keccak intent = Err EncodingError).
Proof. exact compute_leaf_cases. Qed.

End LeafRefusals.

Lemma compute_leaf_accepts_fitting_intents_witness :
  Merkle.compute_leaf Keccak256.keccak256
    (mkLPIntent (Sample.addr x01) Sample.pool0 (-60) 60 (2 ^ 256) 0 0)
  = Err EncodingError.
Proof.
  destruct (@compute_leaf_accepts_fitting_intents Keccak256.keccak256
              keccak256_length
              (mkLPIntent (Sample.addr x01) Sample.pool0 (-60) 60 (2 ^ 256) 0 0))
    as [[Hfit _] | [_ H]]; [exfalso | exact H].
  destruct Hfit as (_ & _ & _ & _ & [_ Ha] & _).
  cbn [amount] in Ha. lia.
Defined.

(* ================================================================== *)
(** * The intent collector *)
(* ================================================================== *)

Lemma bytes_eqb_eq : forall a b, bytes_eqb a b = true -> a = b.
Proof.
  induction a as [|x a IH]; intros [|y b]; simpl; try congruence.
  intro H. apply andb_true_iff in H. destruct H as [H1 H2].
  f_equal; [apply Byte.byte_dec_bl; exact H1 | apply IH; exact H2].
Qed.

Lemma same_user_nonce_key : forall intent entry sig,
  Collector.same_user_nonce intent entry = true <->
  CollectorSpec.key entry = CollectorSpec.key (intent, sig).
Proof.
  intros intent [e s] sig.
  unfold Collector.same_user_nonce, CollectorSpec.key. cbn [fst].
  rewrite andb_true_iff, Z.eqb_eq. split.
  - intros [H1 H2]. apply bytes_eqb_eq in H1. congruence.
  - intro H. inversion H as [[H1 H2]]. split; [apply bytes_eqb_refl | reflexivity].
Qed.

Lemma existsb_same_user_nonce : forall intent sig pending,
  existsb (Collector.same_user_nonce intent) pending = false <->
  ~ In (CollectorSpec.key (intent, sig)) (map CollectorSpec.key pending).
Proof.
  intros intent sig pending. split.
  - intros H Hin. apply in_map_iff in Hin. destruct Hin as [e [He Hin]].
    assert (Ht : existsb (Collector.same_user_nonce intent) pending = true).
    { apply existsb_exists. exists e. split; [exact Hin|].
      apply (same_user_nonce_key intent e sig). exact He. }
    congruence.
  - intro H.
    destruct (existsb (Collector.same_user_nonce intent) pending) eqn:E;
      [|reflexivity].
    apply existsb_exists in E. destruct E as [e [Hin He]].
    exfalso. apply H. apply in_map_iff. exists e. split; [|exact Hin].
    apply (same_user_nonce_key intent e sig). exact He.
Qed.

Section CollectorFacts.

Variable SignableMessage : Type.
Variable encode_typed_data : Signer.FullMessage -> result SignableMessage.
Variable recover_vrs : SignableMessage -> Z * Z * Z -> result address.

Local Abbreviation submit_intent :=
  (Collector.submit_intent encode_typed_data recover_vrs).
Local Abbreviation verify_intent_signature :=
  (Signer.verify_intent_signature encode_typed_data recover_vrs).

(** The two ways a call of [submit_intent] ends. *)
Lemma submit_intent_cases : forall now c request,
  (exists f, submit_intent now c request = (c, Collector.Failed f)) \/
  (exists sig,
     PyText.fromhex
       (PyText.removeprefix (Requests.signature request) "0x") = Ok sig /\
     now <= Requests.deadline request /\
     verify_intent_signature (Requests.to_lp_intent request) sig
       (Collector.chain_id c) (Collector.verifying_contract c)
     = Ok (Requests.user request) /\
     existsb (Collector.same_user_nonce (Requests.to_lp_intent request))
       (Collector.pending_intents c) = false /\
     submit_intent now c request
     = (Collector.with_pending c
          (Collector.pending_intents c
             ++ [(Requests.to_lp_intent request, sig)]),
        Collector.Returned
          (Collector.mkResponse "accepted"
             (Z.of_nat (length (Collector.pending_intents c)) + 1)))).
Proof.
  intros now c request. unfold Collector.submit_intent.
  destruct (PyText.fromhex _) as [sig|e] eqn:Ehex; [|left; eauto].
  change (Types.deadline (Requests.to_lp_intent request))
    with (Requests.deadline request).
  change (Types.user (Requests.to_lp_intent request))
    with (Requests.user request).
  destruct (Requests.deadline request <? now) eqn:Ed; [left; eauto|].
  apply Z.ltb_ge in Ed.
  destruct (Signer.verify_intent_signature _ _ _ _ _ _) as [rec|e] eqn:Ev;
    [|left; eauto].
  destruct (bytes_eqb rec (Requests.user request)) eqn:Eu;
    cbn [negb]; [|left; eauto].
  apply bytes_eqb_eq in Eu. subst rec.
  destruct (existsb _ _) eqn:Edup; [left; eauto|].
  right. exists sig. repeat split; try assumption.
  rewrite length_app. cbn [length].
  replace (Z.of_nat (length (Collector.pending_intents c) + 1))
    with (Z.of_nat (length (Collector.pending_intents c)) + 1) by lia.
  reflexivity.
Qed.

(** A call of [submit_intent] either fails and leaves the collector as it
    was, or appends the intent with its decoded signature at the end of the
    queue, changes no other attribute and reports the new length of the
    queue; it accepts only a request whose deadline is not before the clock,
    whose signature recovers to its user, and whose user and nonce no
    pending entry has. *)
Theorem submit_intent_all_or_nothing : forall now c request,
  match submit_intent now c request with
  | (c', Collector.Failed _) => c' = c
  | (c', Collector.Returned response) =>
      exists sig,
        PyText.fromhex
          (PyText.removeprefix (Requests.signature request) "0x") = Ok sig /\
        c' = Collector.with_pending c
               (Collector.pending_intents c
                  ++ [(Requests.to_lp_intent request, sig)]) /\
        Collector.status response = "accepted"%string /\
        Collector.pending_count response
        = Requests.st_pending_intents (Collector.get_status c') /\
        now <= Requests.deadline request /\
        verify_intent_signature (Requests.to_lp_intent request) sig
          (Collector.chain_id c) (Collector.verifying_contract c)
        = Ok (Requests.user request) /\
        Forall (fun entry =>
                  CollectorSpec.key entry
                  <> CollectorSpec.key (Requests.to_lp_intent request, sig))
               (Collector.pending_intents c)
  end.
Proof.
  intros now c request.
  destruct (submit_intent_cases now c request)
    as [[f ->] | (sig & Hhex & Hd & Hv & Hdup & ->)]; [reflexivity|].
  exists sig. split; [exact Hhex|]. split; [reflexivity|].
  split; [reflexivity|].
  split.
  { cbn [Collector.pending_count Collector.get_status
         Requests.st_pending_intents Collector.with_pending
         Collector.pending_intents].
    rewrite length_app. cbn [length]. lia. }
  split; [exact Hd|]. split; [exact Hv|].
  apply Forall_forall. intros entry Hin He.
  apply (existsb_same_user_nonce (Requests.to_lp_intent request) sig) in Hdup.
  apply Hdup. rewrite <- He. apply in_map. exact Hin.
Qed.

(** If no two pending entries have the same user and nonce, none have
    after a call of [submit_intent], accepted or not. *)
Theorem pending_nonces_stay_distinct : forall now c request,
  CollectorSpec.distinct_keys (Collector.pending_intents c) ->
  CollectorSpec.distinct_keys
    (Collector.pending_intents (fst (submit_intent now c request))).
Proof.
  intros now c request Hnd.
  destruct (submit_intent_cases now c request)
    as [[f ->] | (sig & Hhex & Hd & Hv & Hdup & ->)]; [exact Hnd|].
  cbn [fst Collector.with_pending Collector.pending_intents].
  unfold CollectorSpec.distinct_keys in *.
  rewrite map_app. cbn [map].
  apply (existsb_same_user_nonce (Requests.to_lp_intent request) sig) in Hdup.
  apply (Permutation_NoDup (Permutation_cons_append _ _)).
  constructor; assumption.
Qed.

End CollectorFacts.

Section CollectorRounds.

Variable SignableMessage : Type.
Variable encode_typed_data : Signer.FullMessage -> result SignableMessage.
Variable recover_vrs : SignableMessage -> Z * Z * Z -> result address.

Local Abbreviation submit_intent :=
  (Collector.submit_intent encode_typed_data recover_vrs).
Local Abbreviation verify_intent_signature :=
  (Signer.verify_intent_signature encode_typed_data recover_vrs).
Local Abbreviation reachable :=
  (CollectorSpec.reachable encode_typed_data recover_vrs).

(** Once the signature, the deadline and the signer are checked, the pending
    queue alone decides. *)
Lemma submit_intent_checked : forall now c request sig,
  PyText.fromhex
    (PyText.removeprefix (Requests.signature request) "0x") = Ok sig ->
  now <= Requests.deadline request ->
  verify_intent_signature (Requests.to_lp_intent request) sig
    (Collector.chain_id c) (Collector.verifying_contract c)
  = Ok (Requests.user request) ->
  submit_intent now c request
  = if existsb (Collector.same_user_nonce (Requests.to_lp_intent request))
         (Collector.pending_intents c)
    then (c, Collector.Failed
               (Collector.HTTPException 400 Collector.DuplicateNonce))
    else (Collector.with_pending c
            (Collector.pending_intents c
               ++ [(Requests.to_lp_intent request, sig)]),
          Collector.Returned
            (Collector.mkResponse "accepted"
               (Z.of_nat
                  (length (Collector.pending_intents c
                             ++ [(Requests.to_lp_intent request, sig)]))))).
Proof.
  intros now c request sig Hhex Hd Hv. unfold Collector.submit_intent.
  rewrite Hhex.
  change (Types.deadline (Requests.to_lp_intent request))
    with (Requests.deadline request).
  change (Types.user (Requests.to_lp_intent request))
    with (Requests.user request).
  replace (Requests.deadline request <? now) with false
    by (symmetry; apply Z.ltb_ge; exact Hd).
  rewrite Hv, bytes_eqb_refl. reflexivity.
Qed.

(** The duplicate check looks at the pending queue only: a request that was
    accepted is refused as a duplicate while its intent is pending, and is
    accepted again, with the same nonce, once [drain_pending] has emptied
    the queue. *)
Theorem drained_intent_is_accepted_again :
  forall now c request c' response,
  submit_intent now c request = (c', Collector.Returned response) ->
  submit_intent now c' request
  = (c', Collector.Failed
           (Collector.HTTPException 400 Collector.DuplicateNonce)) /\
  exists sig,
    submit_intent now (fst (Collector.drain_pending c')) request
    = (Collector.with_pending c' [(Requests.to_lp_intent request, sig)],
       Collector.Returned (Collector.mkResponse "accepted" 1)).
Proof.
  intros now c request c' response H.
  destruct (submit_intent_cases encode_typed_data recover_vrs now c request)
    as [[f Hf] | (sig & Hhex & Hd & Hv & Hdup & Hacc)];
    [rewrite Hf in H; discriminate H|].
  rewrite Hacc in H. inversion H; subst c'. clear H.
  split.
  - rewrite (@submit_intent_checked now
               (Collector.with_pending c
                  (Collector.pending_intents c
                     ++ [(Requests.to_lp_intent request, sig)]))
               request sig Hhex Hd Hv).
    cbn [Collector.with_pending Collector.pending_intents].
    rewrite existsb_app. cbn [existsb].
    replace (Collector.same_user_nonce (Requests.to_lp_intent request)
               (Requests.to_lp_intent request, sig)) with true.
    + rewrite orb_true_r. reflexivity.
    + symmetry. apply (same_user_nonce_key _ _ sig). reflexivity.
  - exists sig.
    rewrite (@submit_intent_checked now
               (fst (Collector.drain_pending
                       (Collector.with_pending c
                          (Collector.pending_intents c
                             ++ [(Requests.to_lp_intent request, sig)]))))
               request sig Hhex Hd Hv).
    reflexivity.
Qed.

Lemma last_entry_snoc : forall history e,
  CollectorSpec.last_entry (history ++ [e]) = Some e.
Proof.
  intros history e. unfold CollectorSpec.last_entry.
  rewrite map_app. cbn [map]. apply last_last.
Qed.

(** In every collector that calls of its methods make from a new one, the
    counter of executed batches is the number of entries of the history, and
    the last root and transaction are those of the last entry (none when
    there is no entry): this is what [get_status] reports. *)
Theorem status_reports_the_history : forall c,
  reachable c ->
  Requests.st_batches_executed (Collector.get_status c)
  = Z.of_nat (length (Collector.batch_history c)) /\
  Requests.st_last_batch_root (Collector.get_status c)
  = option_map Collector.h_root
      (CollectorSpec.last_entry (Collector.batch_history c)) /\
  Requests.st_last_batch_tx (Collector.get_status c)
  = option_map Collector.h_tx_hash
      (CollectorSpec.last_entry (Collector.batch_history c)).
Proof.
  cbn [Collector.get_status Requests.st_batches_executed
       Requests.st_last_batch_root Requests.st_last_batch_tx].
  induction 1 as [chain contract | now c request _ IH | c _ IH
                  | c pending _ IH | now c root tx n _ IH].
  - cbn. auto.
  - destruct (submit_intent_cases encode_typed_data recover_vrs now c request)
      as [[f ->] | (sig & _ & _ & _ & _ & ->)]; exact IH.
  - exact IH.
  - exact IH.
  - cbn [Collector.record_batch Collector.batches_executed
         Collector.last_batch_root Collector.last_batch_tx
         Collector.batch_history].
    rewrite last_entry_snoc, length_app. cbn [option_map length
      Collector.h_root Collector.h_tx_hash].
    destruct IH as [IH _]. rewrite IH. repeat split. lia.
Qed.

End CollectorRounds.

Lemma pending_nonces_stay_distinct_witness :
  let c1 := fst (Fixture.submit0 0 Fixture.collector0 Fixture.request0) in
  let c2 := fst (Fixture.submit0 0 c1 Fixture.request1) in
  length (Collector.pending_intents c1) = 1%nat /\
  length (Collector.pending_intents c2) = 2%nat /\
  CollectorSpec.distinct_keys (Collector.pending_intents c2).
Proof.
  cbv zeta.
  split; [vm_compute; reflexivity|]. split; [vm_compute; reflexivity|].
  apply (@pending_nonces_stay_distinct _ StandIn.encode_typed_data
           StandIn.recover_vrs 0
           (fst (Fixture.submit0 0 Fixture.collector0 Fixture.request0))
           Fixture.request1).
  apply (@pending_nonces_stay_distinct _ StandIn.encode_typed_data
           StandIn.recover_vrs 0 Fixture.collector0 Fixture.request0).
  constructor.
Defined.

Lemma drained_intent_is_accepted_again_witness :
  exists c' response,
    Fixture.submit0 0 Fixture.collector0 Fixture.request0
    = (c', Collector.Returned response) /\
    Fixture.submit0 0 c' Fixture.request0
    = (c', Collector.Failed
             (Collector.HTTPException 400 Collector.DuplicateNonce)).
Proof.
  destruct (Fixture.submit0 0 Fixture.collector0 Fixture.request0)
    as [c' [response | f]] eqn:E; [|vm_compute in E; discriminate E].
  exists c', response. split; [reflexivity|].
  destruct (@drained_intent_is_accepted_again _ StandIn.encode_typed_data
              StandIn.recover_vrs 0 Fixture.collector0 Fixture.request0
              c' response E) as [H _].
  exact H.
Defined.

Lemma status_reports_the_history_witness :
  Requests.st_batches_executed
    (Collector.get_status
       (Collector.record_batch 7
          (fst (Fixture.submit0 0 Fixture.collector0 Fixture.request0))
          "0xroot" "0xtx" 1))
  = 1.
Proof.
  destruct (@status_reports_the_history _ StandIn.encode_typed_data
              StandIn.recover_vrs
              (Collector.record_batch 7
                 (fst (Fixture.submit0 0 Fixture.collector0 Fixture.request0))
                 "0xroot" "0xtx" 1)) as [H _].
  - apply CollectorSpec.reach_record. apply CollectorSpec.reach_submit.
    apply CollectorSpec.reach_init.
  - rewrite H. vm_compute. reflexivity.
Defined.

(* ================================================================== *)
(** * The batch submitter *)
(* ================================================================== *)

Lemma hex_length : forall b : bytes,
  String.length (PyText.hex b) = (2 * length b)%nat.
Proof.
  induction b as [|x b IH]; [reflexivity|].
  cbn [PyText.hex String.length length]. rewrite IH. lia.
Qed.

Lemma comprehension_length : forall (A B : Type) (f : A -> result B) l ys,
  PyText.comprehension f l = Ok ys -> length ys = length l.
Proof.
  induction l as [|x l IH]; intros ys H; cbn in H.
  - inversion H. reflexivity.
  - destruct (f x) as [y|]; [|discriminate]. cbn in H.
    destruct (PyText.comprehension f l) as [ys'|]; [|discriminate].
    cbn in H. inversion H. cbn. rewrite (IH ys' eq_refl). reflexivity.
Qed.

Lemma comprehension_nth : forall (A B : Type) (f : A -> result B) l ys i x y,
  PyText.comprehension f l = Ok ys ->
  nth_error l i = Some x -> nth_error ys i = Some y -> f x = Ok y.
Proof.
  induction l as [|a l IH]; intros ys i x y H Hx Hy; cbn in H.
  - destruct i; discriminate.
  - destruct (f a) as [b|] eqn:Ea; [|discriminate]. cbn in H.
    destruct (PyText.comprehension f l) as [ys'|] eqn:E; [|discriminate].
    cbn in H. inversion H; subst ys. destruct i as [|i]; cbn in Hx, Hy.
    + congruence.
    + exact (IH ys' i x y eq_refl Hx Hy).
Qed.

Lemma comprehension_total : forall (A B : Type) (f : A -> result B) l,
  (forall x, In x l -> exists y, f x = Ok y) ->
  exists ys, PyText.comprehension f l = Ok ys.
Proof.
  induction l as [|a l IH]; intro H; cbn.
  - eexists. reflexivity.
  - destruct (H a (or_introl eq_refl)) as [y ->]. cbn.
    destruct IH as [ys ->]; [intros x Hx; apply H; right; exact Hx|].
    cbn. eexists. reflexivity.
Qed.

Lemma comprehension_forall : forall (A B : Type) (f : A -> result B)
                                    (P : B -> Prop) l ys,
  PyText.comprehension f l = Ok ys ->
  (forall x y, f x = Ok y -> P y) -> Forall P ys.
Proof.
  induction l as [|a l IH]; intros ys H HP; cbn in H.
  - inversion H. constructor.
  - destruct (f a) as [b|] eqn:Ea; [|discriminate]. cbn in H.
    destruct (PyText.comprehension f l) as [ys'|] eqn:E; [|discriminate].
    cbn in H. inversion H; subst ys. constructor; [eapply HP; eassumption|].
    apply IH; [reflexivity | exact HP].
Qed.

Lemma range_nth : forall n i,
  (i < n)%nat -> nth_error (PyText.range n) i = Some (Z.of_nat i).
Proof.
  intros n i H. unfold PyText.range.
  rewrite nth_error_map, nth_error_seq.
  replace (i <? n)%nat with true by (symmetry; apply Nat.ltb_lt; exact H).
  reflexivity.
Qed.

Lemma range_in : forall n z,
  In z (PyText.range n) -> 0 <= z < Z.of_nat n.
Proof.
  intros n z H. unfold PyText.range in H. apply in_map_iff in H.
  destruct H as [k [<- Hk]]. apply in_seq in Hk. lia.
Qed.

Section ExecutorFacts.

Variable keccak : bytes -> bytes.
Hypothesis keccak_length : forall b, length (keccak b) = 32%nat.

Local Abbreviation hash_pair := (Merkle._hash_pair keccak).
Local Abbreviation pair_up := (MerkleSpec.pair_up keccak).
Local Abbreviation chain := (MerkleSpec.chain keccak).
Local Abbreviation compute_leaf := (Merkle.compute_leaf keccak).

Lemma hash_pair_length : forall a b, length (hash_pair a b) = 32%nat.
Proof.
  intros a b. unfold Merkle._hash_pair.
  destruct (bytes_leb a b); apply keccak_length.
Qed.

Lemma pair_up_words : forall l,
  Forall (fun w : bytes => length w = 32%nat) l ->
  Forall (fun w : bytes => length w = 32%nat) (pair_up l).
Proof.
  intro l. induction l as [| a | a b l IH] using list_pair_ind; intro H.
  - constructor.
  - exact H.
  - cbn [MerkleSpec.pair_up]. constructor; [apply hash_pair_length|].
    apply IH. inversion H as [|? ? _ H']. inversion H'. assumption.
Qed.

Lemma chain_last_words : forall fuel l,
  Forall (fun w : bytes => length w = 32%nat) l ->
  Forall (fun w : bytes => length w = 32%nat) (last (l :: chain fuel l) []).
Proof.
  induction fuel as [|fuel IH]; intros l H; [exact H|].
  cbn [MerkleSpec.chain]. destruct (1 <? length l)%nat; [|exact H].
  change (last (l :: pair_up l :: chain fuel (pair_up l)) [])
    with (last (pair_up l :: chain fuel (pair_up l)) []).
  apply IH. apply pair_up_words. exact H.
Qed.

(** The tree of a non-empty list of 32-byte leaves has a 32-byte root. *)
Lemma root_word : forall lvs,
  lvs <> [] ->
  Forall (fun w : bytes => length w = 32%nat) lvs ->
  exists t rt,
    Merkle.__init__ keccak lvs = Ok t /\ Merkle.root t = Ok rt /\
    length rt = 32%nat.
Proof.
  intros lvs Hne Hw.
  assert (H0 : 0 <= 0 < Z.of_nat (length lvs))
    by (destruct lvs; [congruence | simpl; lia]).
  destruct (built_proof_folds keccak Hne H0)
    as (t & _ & _ & rt & Ht & _ & _ & Hrt & _).
  exists t, rt. split; [exact Ht|]. split; [exact Hrt|].
  pose proof (tree_root_top keccak Hne) as Htop.
  unfold MerkleSpec.tree_root in Htop. rewrite Ht in Htop. cbn [bind] in Htop.
  rewrite Hrt in Htop. symmetry in Htop.
  apply index_nonneg_inv in Htop; [|lia].
  pose proof (chain_last_words (length lvs) Hw) as Hall.
  rewrite Forall_forall in Hall. apply Hall.
  apply nth_error_In with (n := Z.to_nat 0). exact Htop.
Qed.

Lemma leaves_of_fitting_intents : forall intents,
  Forall LeafSpec.intent_fits intents ->
  exists leaves,
    PyText.comprehension compute_leaf intents = Ok leaves /\
    length leaves = length intents /\
    Forall (fun w : bytes => length w = 32%nat) leaves.
Proof.
  intros intents Hfit.
  destruct (@comprehension_total _ _ compute_leaf intents) as [leaves Hl].
  { intros x Hx. rewrite Forall_forall in Hfit.
    destruct (compute_leaf_cases keccak keccak_length x)
      as [[_ [leaf [H _]]] | [Hn _]]; [eauto | elim Hn; auto]. }
  exists leaves. split; [exact Hl|].
  split; [exact (@comprehension_length _ _ _ _ _ Hl)|].
  apply (@comprehension_forall _ _ compute_leaf _ intents leaves Hl).
  intros x y Hxy.
  destruct (compute_leaf_cases keccak keccak_length x)
    as [[_ [leaf [H Hlen]]] | [_ H]]; rewrite H in Hxy; [|discriminate].
  inversion Hxy; subst y. exact Hlen.
Qed.

Lemma leaves_of_unfit_intents : forall intents,
  ~ Forall LeafSpec.intent_fits intents ->
  PyText.comprehension compute_leaf intents = Err EncodingError.
Proof.
  induction intents as [|x l IH]; intro H; [elim H; constructor|].
  cbn [PyText.comprehension].
  destruct (compute_leaf_cases keccak keccak_length x)
    as [[Hx [leaf [E _]]] | [_ E]]; rewrite E; cbn [bind]; [|reflexivity].
  rewrite IH; [reflexivity|].
  intro Hl. apply H. constructor; assumption.
Qed.

(** [get_batch_root] raises ValueError on the empty batch and the encoder's
    error on a batch with an intent that does not fit its types; on any
    other batch it returns ["0x"] followed by the 64 hexadecimal digits of
    the root of the tree of the leaves, a text of 66 characters that reads
    back as the 32 bytes of the root. *)
Theorem batch_root_text : forall intents : list LPIntent,
  (intents = [] ->
   Executor.get_batch_root keccak intents = Err ValueError) /\
  (~ Forall LeafSpec.intent_fits intents ->
   Executor.get_batch_root keccak intents = Err EncodingError) /\
  (intents <> [] -> Forall LeafSpec.intent_fits intents ->
   exists leaves t rt,
     PyText.comprehension compute_leaf intents = Ok leaves /\
     Merkle.__init__ keccak leaves = Ok t /\
     Merkle.root t = Ok rt /\
     Executor.get_batch_root keccak intents = Ok ("0x" ++ PyText.hex rt)%string /\
     String.length ("0x" ++ PyText.hex rt) = 66%nat /\
     PyText.fromhex (PyText.removeprefix ("0x" ++ PyText.hex rt) "0x")
     = Ok rt).
Proof.
  intro intents. split; [|split].
  - intros ->. reflexivity.
  - intro H. unfold Executor.get_batch_root.
    rewrite (leaves_of_unfit_intents H). reflexivity.
  - intros Hne Hfit.
    destruct (leaves_of_fitting_intents Hfit) as (leaves & Hl & Hlen & Hw).
    assert (Hne' : leaves <> []).
    { intros ->. destruct intents; [congruence | discriminate]. }
    destruct (root_word Hne' Hw) as (t & rt & Ht & Hrt & Hrl).
    exists leaves, t, rt.
    split; [exact Hl|]. split; [exact Ht|]. split; [exact Hrt|].
    split; [unfold Executor.get_batch_root; rewrite Hl; cbn [bind];
            rewrite Ht; cbn [bind]; rewrite Hrt; reflexivity|].
    split.
    + cbn [String.append String.length]. rewrite hex_length, Hrl. reflexivity.
    + change (PyText.removeprefix ("0x" ++ PyText.hex rt) "0x")
        with (PyText.hex rt).
      apply fromhex_hex.
Qed.

Section WithWeb3.

Variable to_checksum_address : address -> result string.
Variable ContractFunction : Type.
Variable Transaction : Type.
Variable executeBatch :
  list Executor.IntentTuple -> list bytes -> list (list bytes) ->
  result ContractFunction.
Variable build_transaction :
  ContractFunction -> Executor.TxParams -> result Transaction.
Variable account_address : string.
Variable get_transaction_count : string -> result Z.
Variable gas_price : result Z.

Local Abbreviation build_batch_tx :=
  (Executor.build_batch_tx keccak to_checksum_address executeBatch
     build_transaction account_address get_transaction_count gas_price).
Local Abbreviation intent_tuple :=
  (Executor.intent_tuple to_checksum_address).

(** On a non-empty batch of intents that fit their types, [build_batch_tx]
    gets through the Merkle part without raising: it hands [executeBatch]
    the signatures as given and one proof per intent, in the order of the
    intents, each of which [verify] accepts for its leaf and the root; the
    transaction is built with a gas limit of 3000000.  On the empty batch it
    raises ValueError before anything is read from the chain. *)
Theorem batch_tx_carries_valid_proofs :
  forall (intents : list LPIntent) (signatures : list bytes),
  (intents = [] -> build_batch_tx intents signatures = Err ValueError) /\
  (intents <> [] -> Forall LeafSpec.intent_fits intents ->
   exists leaves t rt proofs,
     PyText.comprehension compute_leaf intents = Ok leaves /\
     Merkle.__init__ keccak leaves = Ok t /\
     Merkle.root t = Ok rt /\
     length proofs = length intents /\
     (forall i leaf proof,
        nth_error leaves i = Some leaf ->
        nth_error proofs i = Some proof ->
        Merkle.get_proof t (Z.of_nat i) = Ok proof /\
        Merkle.verify keccak leaf proof rt = true) /\
     build_batch_tx intents signatures
     = (intent_tuples <- PyText.comprehension intent_tuple intents ;;
        call <- executeBatch intent_tuples signatures proofs ;;
        nonce <- get_transaction_count account_address ;;
        price <- gas_price ;;
        build_transaction call
          (Executor.mkTxParams account_address nonce 3000000 price))).
Proof.
  intros intents signatures. split; [intros ->; reflexivity|].
  intros Hne Hfit.
  destruct (leaves_of_fitting_intents Hfit) as (leaves & Hl & Hlen & Hw).
  assert (Hne' : leaves <> []).
  { intros ->. destruct intents; [congruence | discriminate]. }
  destruct (root_word Hne' Hw) as (t & rt & Ht & Hrt & _).
  assert (Hproof : forall i, 0 <= i < Z.of_nat (length leaves) ->
            exists leaf proof,
              index leaves i = Ok leaf /\ Merkle.get_proof t i = Ok proof /\
              Merkle.verify keccak leaf proof rt = true).
  { intros i Hi.
    destruct (built_proof_folds keccak Hne' Hi)
      as (t' & leaf & proof & rt' & Ht' & Hleaf & Hp & Hrt' & _ & Hv).
    rewrite Ht in Ht'. inversion Ht'; subst t'.
    rewrite Hrt in Hrt'. inversion Hrt'; subst rt'.
    exists leaf, proof. auto. }
  destruct (@comprehension_total _ _ (Merkle.get_proof t)
              (PyText.range (length intents))) as [proofs Hps].
  { intros z Hz. apply range_in in Hz. rewrite <- Hlen in Hz.
    destruct (Hproof z Hz) as (_ & proof & _ & Hp & _). eauto. }
  exists leaves, t, rt, proofs.
  split; [exact Hl|]. split; [exact Ht|]. split; [exact Hrt|].
  assert (Hplen : length proofs = length intents).
  { rewrite (@comprehension_length _ _ _ _ _ Hps). unfold PyText.range.
    rewrite length_map, length_seq. reflexivity. }
  split; [exact Hplen|].
  split.
  - intros i leaf proof Hleaf Hp.
    assert (Hi : (i < length leaves)%nat)
      by (apply nth_error_Some; congruence).
    assert (Hget : Merkle.get_proof t (Z.of_nat i) = Ok proof).
    { apply (@comprehension_nth _ _ _ _ _ i _ _ Hps); [|exact Hp].
      apply range_nth. lia. }
    split; [exact Hget|].
    destruct (Hproof (Z.of_nat i)) as (leaf' & proof' & Hl' & Hp' & Hv); [lia|].
    rewrite (index_nat _ _ Hleaf) in Hl'. inversion Hl'; subst leaf'.
    rewrite Hget in Hp'. inversion Hp'; subst proof'. exact Hv.
  - unfold Executor.build_batch_tx. rewrite Hl. cbn [bind].
    rewrite Ht. cbn [bind]. rewrite Hps. reflexivity.
Qed.

End WithWeb3.

End ExecutorFacts.

Lemma intent0_fits : LeafSpec.intent_fits Sample.intent0.
Proof.
  unfold LeafSpec.intent_fits, LeafSpec.pool_fits, LeafSpec.is_address,
    LeafSpec.is_uint, LeafSpec.is_int. simpl. repeat split; lia.
Qed.

Lemma batch_root_text_witness :
  exists text,
    Executor.get_batch_root Keccak256.keccak256 [Sample.intent0] = Ok text /\
    String.length text = 66%nat.
Proof.
  destruct (@batch_root_text Keccak256.keccak256 keccak256_length
              [Sample.intent0]) as (_ & _ & H).
  destruct H as (leaves & t & rt & _ & _ & _ & Hg & Hlen & _);
    [discriminate | constructor; [exact intent0_fits | constructor] |].
  eexists. split; [exact Hg | exact Hlen].
Defined.

Lemma batch_tx_carries_valid_proofs_witness :
  exists tx,
    Executor.build_batch_tx Keccak256.keccak256
      (fun a => Ok (PyText.hex a))
      (fun _ _ _ => Ok tt) (fun _ params => Ok params)
      "agent" (fun _ => Ok 0) (Ok 1)
      [Sample.intent0] [Fixture.signature0] = Ok tx /\
    Executor.tx_gas tx = 3000000.
Proof.
  destruct (@batch_tx_carries_valid_proofs Keccak256.keccak256
              keccak256_length (fun a => Ok (PyText.hex a)) unit
              Executor.TxParams (fun _ _ _ => Ok tt)
              (fun _ params => Ok params) "agent"%string (fun _ => Ok 0)
              (Ok 1) [Sample.intent0] [Fixture.signature0]) as (_ & H).
  destruct H as (leaves & t & rt & proofs & _ & _ & _ & _ & _ & Hb);
    [discriminate | constructor; [exact intent0_fits | constructor] |].
  eexists. split; [rewrite Hb; reflexivity | reflexivity].
Defined.

(* ================================================================== *)
(** * The adaptive multiplier *)
(* ================================================================== *)

Section AdaptiveFacts.

Local Open Scope R_scope.

Lemma sum_of_zeros : forall (l : list R) (acc : R),
  Forall (fun x => x = 0) l -> fold_left Rplus l acc = acc.
Proof.
  induction l as [|x l IH]; intros acc H; [reflexivity|].
  inversion H as [|? ? Hx Hl]; subst. cbn [fold_left].
  rewrite IH by exact Hl. lra.
Qed.

Lemma unpriced_scores_zero : forall self : Adaptive.AdaptiveParams,
  Forall (fun r => Adaptive.price_at_entry r = 0) (Adaptive.history self) ->
  Adaptive.recent_avg_il self = 0.
Proof.
  intros self Hall. unfold Adaptive.recent_avg_il.
  set (scores := map Adaptive.calculate_il_score
                   (PyText.last10 (Adaptive.history self))).
  assert (Hz : Forall (fun x => x = 0) scores).
  { apply Forall_forall. intros x Hx. apply in_map_iff in Hx.
    destruct Hx as [r [<- Hr]]. unfold PyText.last10 in Hr.
    assert (Hin : In r (Adaptive.history self)).
    { rewrite <- (firstn_skipn (length (Adaptive.history self) - 10)
                    (Adaptive.history self)).
      apply in_or_app. right. exact Hr. }
    rewrite Forall_forall in Hall. specialize (Hall r Hin).
    unfold Adaptive.calculate_il_score. rewrite Hall.
    destruct (Rle_dec 0 0); [reflexivity | lra]. }
  destruct scores as [|x l] eqn:E; [reflexivity|].
  unfold OptimizerExact.sum. rewrite (sum_of_zeros 0 Hz).
  unfold Rdiv. apply Rmult_0_l.
Qed.


End AdaptiveFacts.


(* ================================================================== *)
(** * One round of the batch loop *)
(* ================================================================== *)

Section AgentFacts.

Variable keccak : bytes -> bytes.
Variable submit_batch : list LPIntent -> list bytes -> option string.
Variable receipt_gas_used : string -> option Z.

Local Abbreviation process_batch :=
  (Agent.process_batch keccak submit_batch receipt_gas_used).

(** Putting back what [drain_pending] took gives the collector back. *)
Lemma drain_then_put_back : forall c,
  Collector.extend_pending (fst (Collector.drain_pending c))
    (snd (Collector.drain_pending c)) = c.
Proof. intros []. reflexivity. Qed.

Lemma record_then_put_back : forall now c root tx n,
  Collector.extend_pending
    (Collector.record_batch now (fst (Collector.drain_pending c)) root tx n)
    (snd (Collector.drain_pending c))
  = Collector.record_batch now c root tx n.
Proof. intros now [] root tx n. reflexivity. Qed.

(** The branches of [process_batch]. *)
Lemma process_batch_cases : forall now self,
  let pending := Collector.pending_intents (Agent.collector self) in
  let intents := map fst pending in
  let n := Z.of_nat (length pending) in
  (process_batch now self = (self, None)) \/
  (exists tx root,
     Config.min_batch_size (Agent.config self) <= n /\
     submit_batch intents (map snd pending) = Some tx /\
     Executor.get_batch_root keccak intents = Ok root /\
     receipt_gas_used tx = None /\
     process_batch now self
     = (Agent.mkAgent (Agent.config self)
          (Collector.record_batch now (Agent.collector self) root tx n)
          (Agent.adaptive self), None)) \/
  (exists tx root gas first,
     Config.min_batch_size (Agent.config self) <= n /\
     submit_batch intents (map snd pending) = Some tx /\
     Executor.get_batch_root keccak intents = Ok root /\
     receipt_gas_used tx = Some gas /\
     index intents 0 = Ok first /\
     process_batch now self
     = (Agent.mkAgent (Agent.config self)
          (Collector.record_batch now
             (Collector.with_pending (Agent.collector self) []) root tx n)
          (Adaptive.update_k
             (Adaptive.record_batch (Agent.adaptive self)
                (Adaptive.unpriced_result root n gas
                   (Types.tick_lower first) (Types.tick_upper first)))),
        Some tx)).
Proof.
  intros now self. cbv zeta. unfold Agent.process_batch, Agent.put_back.
  pose proof (drain_then_put_back (Agent.collector self)) as Hback.
  pose proof (fun root tx n =>
                record_then_put_back now (Agent.collector self) root tx n)
    as Hrec.
  cbn [Collector.drain_pending fst snd] in *.
  assert (Hself : Agent.mkAgent (Agent.config self) (Agent.collector self)
                    (Agent.adaptive self) = self) by (destruct self; reflexivity).
  rewrite length_map.
  destruct (_ <? _) eqn:Emin; [left; rewrite Hback, Hself; reflexivity|].
  apply Z.ltb_ge in Emin.
  destruct (submit_batch _ _) as [tx|] eqn:Es;
    [|left; rewrite Hback, Hself; reflexivity].
  destruct (Executor.get_batch_root _ _) as [root|e] eqn:Er;
    [|left; rewrite Hback, Hself; reflexivity].
  destruct (receipt_gas_used tx) as [gas|] eqn:Eg.
  - destruct (index _ 0) as [first|e] eqn:Ei.
    + right. right. exists tx, root, gas, first. repeat split; assumption.
    + exfalso. destruct (Collector.pending_intents (Agent.collector self));
        [discriminate Er | discriminate Ei].
  - right. left. exists tx, root. rewrite Hrec. repeat split; assumption.
Qed.

(** On an agent whose adaptive history holds only results without prices,
    a round that returns [None] puts back every intent it took: the pending
    queue, the adaptive parameters and the configuration are as before the
    call.  The collector is unchanged too, except in one case: when the
    batch was submitted and recorded and reading its receipt then failed,
    the batch is counted as executed and its intents are pending again. *)
Theorem failed_round_restores_queue : forall now self,
  let pending := Collector.pending_intents (Agent.collector self) in
  Forall (fun r => Adaptive.price_at_entry r = 0%R)
    (Adaptive.history (Agent.adaptive self)) ->
  snd (process_batch now self) = None ->
  let self' := fst (process_batch now self) in
  Collector.pending_intents (Agent.collector self') = pending /\
  Agent.adaptive self' = Agent.adaptive self /\
  Agent.config self' = Agent.config self /\
  (Agent.collector self' = Agent.collector self \/
   exists tx root,
     submit_batch (map fst pending) (map snd pending) = Some tx /\
     Executor.get_batch_root keccak (map fst pending) = Ok root /\
     receipt_gas_used tx = None /\
     Agent.collector self'
     = Collector.record_batch now (Agent.collector self) root tx
         (Z.of_nat (length pending))).
Proof.
  intros now self. cbv zeta. intros _.
  destruct (process_batch_cases now self)
    as [-> | [(tx & root & _ & Hs & Hr & Hg & ->)
             | (tx & root & gas & first & _ & _ & _ & _ & _ & ->)]];
    cbn [fst snd]; intro H; [| | discriminate H].
  - auto.
  - cbn [Agent.collector Agent.adaptive Agent.config
         Collector.record_batch Collector.pending_intents].
    repeat split. right. exists tx, root. auto.
Qed.

(** A round that returns a transaction hash took at least
    [min_batch_size] intents, submitted them in the order of the queue and
    left the queue empty; the collector counts one more batch, whose root
    and transaction [get_status] reports, and the adaptive history has one
    more result. *)
Theorem successful_round_records_batch : forall now self tx,
  let pending := Collector.pending_intents (Agent.collector self) in
  snd (process_batch now self) = Some tx ->
  let self' := fst (process_batch now self) in
  pending <> [] /\
  Config.min_batch_size (Agent.config self) <= Z.of_nat (length pending) /\
  submit_batch (map fst pending) (map snd pending) = Some tx /\
  Collector.pending_intents (Agent.collector self') = [] /\
  Requests.st_batches_executed (Collector.get_status (Agent.collector self'))
  = Collector.batches_executed (Agent.collector self) + 1 /\
  Requests.st_last_batch_tx (Collector.get_status (Agent.collector self'))
  = Some tx /\
  (exists root,
     Executor.get_batch_root keccak (map fst pending) = Ok root /\
     Requests.st_last_batch_root
       (Collector.get_status (Agent.collector self')) = Some root) /\
  length (Adaptive.history (Agent.adaptive self'))
  = S (length (Adaptive.history (Agent.adaptive self))).
Proof.
  intros now self tx0. cbv zeta.
  destruct (process_batch_cases now self)
    as [-> | [(tx & root & _ & _ & _ & _ & ->)
             | (tx & root & gas & first & Hmin & Hs & Hr & _ & Hi & ->)]];
    cbn [fst snd]; intro H; try discriminate H.
  inversion H; subst tx0.
  split.
  { intro E. rewrite E in Hi. discriminate Hi. }
  split; [exact Hmin|]. split; [exact Hs|].
  cbn [Agent.collector Agent.adaptive Collector.record_batch
       Collector.with_pending Collector.pending_intents
       Collector.get_status Collector.batches_executed
       Collector.last_batch_tx Collector.last_batch_root
       Requests.st_batches_executed Requests.st_last_batch_tx
       Requests.st_last_batch_root].
  split; [reflexivity|]. split; [reflexivity|]. split; [reflexivity|].
  split; [exists root; auto|].
  unfold Adaptive.update_k.
  destruct (_ <? _)%nat;
    cbn [Adaptive.history Adaptive.record_batch]; rewrite length_app;
    cbn [length]; lia.
Qed.

Local Open Scope R_scope.

(** The results [process_batch] records carry no prices, so they score 0:
    on an agent whose adaptive history holds only such results, with a
    non-negative learning rate and a multiplier not below [min_k], a round
    never raises the multiplier, and the history still holds only such
    results after it. *)
Theorem rounds_never_raise_k : forall now self,
  Forall (fun r => Adaptive.price_at_entry r = 0)
    (Adaptive.history (Agent.adaptive self)) ->
  0 <= Adaptive.learning_rate (Agent.adaptive self) ->
  Adaptive.min_k (Agent.adaptive self)
    <= Adaptive.k_multiplier (Agent.adaptive self) ->
  let a' := Agent.adaptive (fst (process_batch now self)) in
  Forall (fun r => Adaptive.price_at_entry r = 0) (Adaptive.history a') /\
  Adaptive.learning_rate a' = Adaptive.learning_rate (Agent.adaptive self) /\
  Adaptive.min_k a' = Adaptive.min_k (Agent.adaptive self) /\
  Adaptive.min_k a' <= Adaptive.k_multiplier a'
    <= Adaptive.k_multiplier (Agent.adaptive self).
Proof.
  intros now self Hall Hlr Hk. cbv zeta.
  destruct (process_batch_cases now self)
    as [-> | [(tx & root & _ & _ & _ & _ & ->)
             | (tx & root & gas & first & _ & _ & _ & _ & _ & ->)]];
    cbn [fst Agent.adaptive]; try (repeat split; try assumption; lra).
  set (a1 := Adaptive.record_batch (Agent.adaptive self) _).
  assert (Hall1 : Forall (fun r => Adaptive.price_at_entry r = 0)
                    (Adaptive.history a1)).
  { unfold a1. cbn [Adaptive.record_batch Adaptive.history].
    apply Forall_app. split; [exact Hall|]. repeat constructor. }
  unfold Adaptive.update_k.
  destruct (length (Adaptive.history a1) <? 2)%nat eqn:E.
  - unfold a1 in *. cbn [Adaptive.record_batch Adaptive.history
      Adaptive.learning_rate Adaptive.min_k Adaptive.k_multiplier] in *.
    repeat split; try assumption; lra.
  - apply Nat.ltb_ge in E.
    pose proof (unpriced_scores_zero a1 Hall1) as Havg.
    cbn [Adaptive.history Adaptive.learning_rate Adaptive.min_k
         Adaptive.k_multiplier].
    rewrite Havg.
    split; [exact Hall1|].
    unfold a1. cbn [Adaptive.record_batch Adaptive.history
      Adaptive.learning_rate Adaptive.min_k Adaptive.max_k
      Adaptive.k_multiplier].
    split; [reflexivity|]. split; [reflexivity|].
    unfold Adaptive.py_max, Adaptive.py_min.
    destruct (Rlt_dec _ _); try destruct (Rlt_dec _ _); lra.
Qed.

End AgentFacts.

Lemma receipt_failure_round :
  snd (Agent.process_batch Keccak256.keccak256 Fixture.submit_ok
         Fixture.receipt_fails 7 Fixture.agent2)
  = None.
Proof.
  destruct (process_batch_cases Keccak256.keccak256 Fixture.submit_ok
              Fixture.receipt_fails 7 Fixture.agent2)
    as [-> | [(tx & root & _ & _ & _ & _ & ->)
             | (tx & root & gas & first & _ & _ & _ & Hg & _)]];
    [reflexivity | reflexivity | discriminate Hg].
Qed.

Lemma failed_round_restores_queue_witness :
  let self' :=
    fst (Agent.process_batch Keccak256.keccak256 Fixture.submit_ok
           Fixture.receipt_fails 7 Fixture.agent2) in
  Collector.pending_intents (Agent.collector self')
  = [(Sample.intent0, Fixture.signature0)] /\
  Agent.adaptive self' = Agent.adaptive Fixture.agent2.
Proof.
  cbv zeta.
  destruct (@failed_round_restores_queue Keccak256.keccak256
              Fixture.submit_ok Fixture.receipt_fails 7 Fixture.agent2)
    as (H1 & H2 & _).
  - repeat constructor.
  - exact receipt_failure_round.
  - split; [exact H1 | exact H2].
Defined.

Lemma fixture_round_succeeds :
  snd (Agent.process_batch Keccak256.keccak256 Fixture.submit_ok
         Fixture.receipt_ok 0 Fixture.agent1)
  = Some "0xtx"%string.
Proof.
  destruct (process_batch_cases Keccak256.keccak256 Fixture.submit_ok
              Fixture.receipt_ok 0 Fixture.agent1)
    as [H | [(tx & root & _ & _ & _ & Hg & _)
            | (tx & root & gas & first & _ & Hs & _ & _ & _ & ->)]].
  - exfalso. unfold Agent.process_batch in H.
    cbn [Fixture.agent1 Agent.collector Agent.config Collector.drain_pending
         Collector.pending_intents Collector.with_pending Fixture.collector0
         Collector.__init__ length map fst snd] in H.
    change (Z.of_nat 1 <? Config.min_batch_size Fixture.config0)
      with false in H.
    cbv iota in H.
    change (Fixture.submit_ok [Sample.intent0] [Fixture.signature0])
      with (Some "0xtx"%string) in H.
    cbv iota in H.
    destruct (Executor.get_batch_root Keccak256.keccak256 [Sample.intent0])
      as [root|e] eqn:E; [|vm_compute in E; discriminate E].
    change (Fixture.receipt_ok "0xtx") with (Some 21000) in H.
    cbn [index] in H. discriminate H.
  - discriminate Hg.
  - cbn [snd]. rewrite <- Hs. reflexivity.
Qed.

Lemma fixture2_round_succeeds :
  snd (Agent.process_batch Keccak256.keccak256 Fixture.submit_ok
         Fixture.receipt_ok 0 Fixture.agent2)
  = Some "0xtx"%string.
Proof. exact fixture_round_succeeds. Qed.

Lemma successful_round_records_batch_witness :
  Collector.pending_intents
    (Agent.collector
       (fst (Agent.process_batch Keccak256.keccak256 Fixture.submit_ok
               Fixture.receipt_ok 0 Fixture.agent1)))
  = [].
Proof.
  destruct (@successful_round_records_batch Keccak256.keccak256
              Fixture.submit_ok Fixture.receipt_ok 0 Fixture.agent1
              "0xtx"%string fixture_round_succeeds) as (_ & _ & _ & H & _).
  exact H.
Defined.

Lemma rounds_never_raise_k_witness :
  let a' :=
    Agent.adaptive
      (fst (Agent.process_batch Keccak256.keccak256 Fixture.submit_ok
              Fixture.receipt_ok 0 Fixture.agent2)) in
  length (Adaptive.history a') = 2%nat /\
  (1 <= Adaptive.k_multiplier a' <= 2)%R.
Proof.
  cbv zeta.
  destruct (@rounds_never_raise_k Keccak256.keccak256 Fixture.submit_ok
              Fixture.receipt_ok 0 Fixture.agent2) as (_ & _ & Hm & Hk).
  - repeat constructor.
  - cbn. lra.
  - cbn. lra.
  - split.
    + destruct (process_batch_cases Keccak256.keccak256 Fixture.submit_ok
                  Fixture.receipt_ok 0 Fixture.agent2)
        as [H | [(tx & root & _ & _ & _ & Hg & _)
                | (tx & root & gas & first & _ & _ & _ & _ & _ & ->)]].
      * exfalso. pose proof fixture2_round_succeeds as Hs.
        rewrite H in Hs. discriminate Hs.
      * discriminate Hg.
      * reflexivity.
    + rewrite Hm in Hk. exact Hk.
Defined.

(* ================================================================== *)
(** * The collector: malformed signatures *)
(* ================================================================== *)

Lemma fromhex_raises_ValueError : forall (n : nat) (s : string) (e : exn),
  (String.length s <= n)%nat -> PyText.fromhex s = Err e -> e = ValueError.
Proof.
  induction n as [|n IH]; intros s e Hn H.
  - destruct s; [discriminate H | simpl in Hn; lia].
  - destruct s as [|c rest]; [discriminate H|].
    cbn [PyText.fromhex] in H. cbn [String.length] in Hn.
    destruct (PyText.is_space c).
    + apply (IH rest e); [lia | exact H].
    + destruct (PyText.digit_value c) as [top|]; [|congruence].
      destruct rest as [|d rest']; [congruence|].
      destruct (PyText.digit_value d) as [bot|]; [|congruence].
      destruct (PyText.fromhex rest') as [tl|e'] eqn:E; [discriminate H|].
      cbn [bind] in H. cbn [String.length] in Hn.
      assert (e' = ValueError) by (apply (IH rest' e'); [lia | exact E]).
      congruence.
Qed.

Section CollectorErrors.

Variable SignableMessage : Type.
Variable encode_typed_data : Signer.FullMessage -> result SignableMessage.
Variable recover_vrs : SignableMessage -> Z * Z * Z -> result address.

Local Abbreviation submit_intent :=
  (Collector.submit_intent encode_typed_data recover_vrs).

(** A signature text that is not hexadecimal makes [submit_intent] end with
    a ValueError that is no [HTTPException], whatever the rest of the
    request is.  A well-formed text of a signature that is not 65 bytes long
    is answered with HTTP 400: "deadline has passed" when the deadline is
    before the clock, "Invalid signature" otherwise; the collector is
    unchanged in each case. *)
Theorem malformed_signature_errors : forall now c request,
  (forall e,
     PyText.fromhex
       (PyText.removeprefix (Requests.signature request) "0x") = Err e ->
     submit_intent now c request
     = (c, Collector.Failed (Collector.Uncaught ValueError))) /\
  (forall sig,
     PyText.fromhex
       (PyText.removeprefix (Requests.signature request) "0x") = Ok sig ->
     length sig <> 65%nat ->
     (Requests.deadline request < now ->
      submit_intent now c request
      = (c, Collector.Failed
              (Collector.HTTPException 400 Collector.DeadlinePassed))) /\
     (now <= Requests.deadline request ->
      exists e,
        submit_intent now c request
        = (c, Collector.Failed
                (Collector.HTTPException 400
                   (Collector.InvalidSignature e))))).
Proof.
  intros now c request. split.
  - intros e H. unfold Collector.submit_intent. rewrite H.
    rewrite (@fromhex_raises_ValueError _ _ e (le_n _) H). reflexivity.
  - intros sig H Hlen. unfold Collector.submit_intent. rewrite H.
    change (Types.deadline (Requests.to_lp_intent request))
      with (Requests.deadline request).
    split.
    + intro Hd.
      replace (Requests.deadline request <? now) with true
        by (symmetry; apply Z.ltb_lt; exact Hd).
      reflexivity.
    + intro Hd.
      replace (Requests.deadline request <? now) with false
        by (symmetry; apply Z.ltb_ge; exact Hd).
      unfold Signer.verify_intent_signature.
      destruct (encode_typed_data _) as [signable|e]; cbn [bind];
        [|eauto].
      unfold Signer.recover_message.
      replace (length sig =? 65)%nat with false
        by (symmetry; apply Nat.eqb_neq; exact Hlen).
      eauto.
Qed.

End CollectorErrors.

Example malformed_signature_values :
  snd (Fixture.submit0 0 Fixture.collector0
         (Requests.mkRequest (Sample.addr x01) (Sample.addr x11)
            (Sample.addr x22) 3000 60 (Sample.addr x00) (-60) 60 1 0 10
            "0xzz"))
  = Collector.Failed (Collector.Uncaught ValueError) /\
  snd (Fixture.submit0 0 Fixture.collector0
         (Requests.mkRequest (Sample.addr x01) (Sample.addr x11)
            (Sample.addr x22) 3000 60 (Sample.addr x00) (-60) 60 1 0 10
            "0x00ff"))
  = Collector.Failed
      (Collector.HTTPException 400 (Collector.InvalidSignature BadSignature)).
Proof. split; reflexivity. Qed.

(* ================================================================== *)
(** * The statements above on concrete inputs *)
(* ================================================================== *)

Lemma round_tick_floors_witness :
  exists r,
    Optimizer.round_tick (-887225) 60 = Ok r /\ r <= -887225 < r + 60.
Proof.
  destruct (round_tick_floors (-887225) 60) as [_ H].
  destruct H as (r & Hr & _ & Hpos & _); [lia|].
  exists r. split; [exact Hr | apply Hpos; lia].
Defined.

Lemma config_pool_key_ordered_witness :
  exists view,
    App.get_config
      (Some (Config.mkConfig "" "0xh" "" "" "" "" "0xbb" "0xaa" "" 1 30 5 24
               2 "" 8000 1))
    = Some view /\
    String.leb (App.v_currency0 (App.v_pool_key view))
               (App.v_currency1 (App.v_pool_key view)) = true.
Proof.
  destruct (config_pool_key_ordered
              (Config.mkConfig "" "0xh" "" "" "" "" "0xbb" "0xaa" "" 1 30 5 24
                 2 "" 8000 1)) as (view & Hv & H & _).
  exists view. split; [exact Hv|].
  cbv zeta in H. cbn [Config.token_a_address Config.token_b_address] in H.
  destruct H as [Hle _]; [discriminate | discriminate | exact Hle].
Defined.

Lemma malformed_signature_errors_witness :
  Fixture.submit0 0 Fixture.collector0
    (Requests.mkRequest (Sample.addr x01) (Sample.addr x11)
       (Sample.addr x22) 3000 60 (Sample.addr x00) (-60) 60 1 0 10 "0xzz")
  = (Fixture.collector0, Collector.Failed (Collector.Uncaught ValueError)).
Proof.
  destruct (@malformed_signature_errors _ StandIn.encode_typed_data
              StandIn.recover_vrs 0 Fixture.collector0
              (Requests.mkRequest (Sample.addr x01) (Sample.addr x11)
                 (Sample.addr x22) 3000 60 (Sample.addr x00) (-60) 60 1 0 10
                 "0xzz")) as [H _].
  apply (H ValueError). reflexivity.
Defined.
